(** * The vector memory subsystem of minime (server/index.js)

    A shallow embedding of the vector store of the Express server: the
    similarity scorer [cosine], the embedding helper [embedText], the store
    facade ([addVector], [queryVectors]), the list and clear handlers and the
    Chroma initialisation block, together with the properties the
    specification states about them; then the HTTP layer around it: the key
    check, the routes, the chat handler and the action handler, and what
    every state the server reaches has in common.

    JavaScript numbers are IEEE 754 binary64 values; they are modelled by
    Rocq's primitive floats, whose operations are specified by the same
    standard.  Array objects live in a heap, so that in-place operations
    ([push], [sort]) and fresh allocations ([map], [slice], array literals)
    are told apart.  The remote vector database, the embedding provider, the
    Gemini model and the operating system are external: their answers are
    given by interfaces over an abstract world. *)

From Stdlib Require Import ZArith Lia List Bool String Ascii Floats Zpower.
From Stdlib Require Import DecimalString Sorted Permutation.
From Stdlib Require DecimalNat DecimalFacts.
From stdpp Require Import base list.
Import ListNotations.

Local Open Scope string_scope.

(* ===================================================================== *)
(** * Part I: definitions *)
(* ===================================================================== *)

(** ** Numbers *)

Module Number.

(** Smallest exponent of a binary64 significand (subnormal numbers). *)
Definition sf_emin : Z := (-1074)%Z.

(** A rounded value that kept the sign it was asked for: neither a zero nor
    a NaN. *)
Definition has_sign (s : bool) (x : spec_float) : Prop :=
  match x with
  | S754_finite s' _ _ | S754_infinity s' => s' = s
  | _ => False
  end.

(** The signed significand of a finite double once aligned on the exponent
    [ez], as the subtraction of [SpecFloat] computes it. *)
Definition aligned (s : bool) (m : positive) (e ez : Z) : Z :=
  cond_Zopp s (Zpos (fst (shl_align m e ez))).


(** A zero of either sign, or NaN. *)
Definition zero_or_nan (x : float) : Prop :=
  match Prim2SF x with
  | S754_zero _ | S754_nan => True
  | _ => False
  end.

(** An integer above every finite double scaled by [2 ^ 1074]. *)
Definition huge : Z := (2 ^ 2200)%Z.

(** An order-preserving image of the doubles in the integers: a finite
    double is an integer multiple of [2 ^ -1074]. *)
Definition rank (x : spec_float) : Z :=
  match x with
  | S754_zero _ | S754_nan => 0%Z
  | S754_infinity s => cond_Zopp s huge
  | S754_finite s m e => cond_Zopp s (Zpos m * 2 ^ (e + 1074))%Z
  end.

Definition rank_of (x : float) : Z := rank (Prim2SF x).

End Number.

(** ** The similarity scorer *)

Definition vector := list float.

(** The body of the [for] loop of [cosine]: one pass accumulating
    [dot], [na] and [nb]. *)
Fixpoint cosine_loop (a b : vector) (acc : float * float * float)
  : float * float * float :=
  match a, b with
  | x :: a', y :: b' =>
      let '(dot, na, nb) := acc in
      cosine_loop a' b' (dot + x * y, na + x * x, nb + y * y)%float
  | _, _ => acc
  end.

(** [cosine(a, b)].  An absent argument ([null], [undefined]) is [None];
    an array, empty or not, is truthy. *)
Definition cosine (a b : option vector) : float :=
  match a, b with
  | Some a, Some b =>
      if negb (Nat.eqb (length a) (length b)) then (-1)%float
      else
        let '(dot, na, nb) := cosine_loop a b (0, 0, 0)%float in
        (dot / (sqrt na * sqrt nb))%float
  | _, _ => (-1)%float
  end.



(** ** Arrays *)

(** [Array.prototype.slice(0, k)] on an array of length [len]: a negative
    [k] counts from the end. *)
Definition slice_end (len : nat) (k : Z) : nat :=
  if (k <? 0)%Z then Z.to_nat (Z.max (Z.of_nat len + k) 0)
  else Z.to_nat (Z.min k (Z.of_nat len)).

Definition slice0 {A : Type} (l : list A) (k : Z) : list A :=
  firstn (slice_end (length l) k) l.

Section Sort.
Context {A : Type}.
Variable comparefn : A -> A -> float.

(** [SortCompare] of ECMAScript: a NaN returned by the comparator counts
    as [+0]. *)
Definition sort_compare (x y : A) : float :=
  let v := comparefn x y in
  if is_nan v then 0%float else v.

(** [x] has to be placed before [z]. *)
Definition goes_before (x z : A) : bool :=
  (sort_compare x z <? 0)%float.

(** One insertion step of the in-place sort.  [sorted_rev] is the sorted
    part of the array, last element first; [x] moves left past every
    element it has to precede and stops at the first one it does not. *)
Fixpoint sift (x : A) (sorted_rev : list A) : list A :=
  match sorted_rev with
  | [] => [x]
  | z :: rest => if goes_before x z then z :: sift x rest else x :: z :: rest
  end.

(** In the sorted part, read last element first, no element has to precede
    the one that stands before it in the array. *)
Definition settled (later earlier : A) : Prop :=
  goes_before later earlier = false.

(** [Array.prototype.sort(comparefn)], as a stable insertion sort.  When the
    comparator is consistent, the order of a stable sort is determined and
    every engine returns it.  When it is not (a NaN score makes it so),
    ECMAScript leaves the order to the engine, and the sort of Node need not
    return the order of this one: the properties that hold of every store
    state an order only under the hypothesis that no score is NaN, where the
    ranking is proved to be the one possible; without it they state no more
    than that the result is a rearrangement of the elements. *)
Definition js_sort (l : list A) : list A :=
  rev (fold_left (fun acc x => sift x acc) l []).

End Sort.

(** ** Data model *)

Definition Meta := list (string * string).

(** Objects of the store.  [score] is the property that [queryVectors]
    adds to its copies; a stored record has none.  [meta] and [embedding]
    are absent on the hits of a remote query. *)
Record Item := mkItem {
  id : string;
  text : string;
  embedding : option vector;
  meta : option Meta;
  score : option float
}.

(** [{ ...v, score: s }] *)
Definition with_score (v : Item) (s : float) : Item :=
  {| id := id v; text := text v; embedding := embedding v; meta := meta v;
     score := Some s |}.

(** [x.score] read as a number: [undefined] gives NaN in a subtraction. *)
Definition score_num (x : Item) : float :=
  match score x with Some s => s | None => nan end.

(** The comparator of [queryVectors]: [(a, b) => b.score - a.score]. *)
Definition by_score_desc (a b : Item) : float :=
  (score_num b - score_num a)%float.

(** [a] may stand before [b] in a ranking by descending score. *)
Definition desc (a b : Item) : Prop :=
  (score_num b <=? score_num a)%float = true.

(** [x] scores [s], as the comparison [==] of numbers sees it. *)
Definition scores (s : float) (x : Item) : bool :=
  (score_num x =? s)%float.

(** An element of the normalised [embeddings] array of the list handler. *)
Inductive emb_value :=
| EmbNumber (x : float)
| EmbVector (v : vector).

(** Items as the list handler serialises them. *)
Record Listed := mkListed {
  l_id : option string;
  l_text : option string;
  l_meta : option Meta;
  l_embedding : option emb_value
}.

Definition listed_of_item (v : Item) : Listed :=
  {| l_id := Some (id v); l_text := Some (text v); l_meta := meta v;
     l_embedding := option_map EmbVector (embedding v) |}.

Inductive js_error :=
| ReferenceError (name : string)
| TypeError (what : string)
| RemoteError (message : string).

Inductive result (A : Type) :=
| Ok (a : A)
| Throw (e : js_error).
Arguments Ok {A} a.
Arguments Throw {A} e.

Inductive http_response :=
| JsonOk
| JsonItem (item : Item)
| JsonItems (items : list Listed)
| JsonError (status : nat) (message : string).

(** ** The remote collaborators *)

(** The methods a Chroma collection object offers (the code probes them with
    [typeof ... === 'function']). *)
Record Collection := mkCollection {
  coll_handle : nat;
  has_add : bool;
  has_upsert : bool;
  has_query : bool;
  has_get : bool;
  has_delete : bool;
  has_clear : bool
}.

Record Client := mkClient {
  client_handle : nat;
  cl_getCollection : bool;
  cl_createCollection : bool;
  cl_deleteCollection : bool;
  cl_add : bool;
  cl_query : bool
}.

(** The OpenAI client object. *)
Record ApiClient := mkApiClient { api_key : string }.

(** What [require('chromadb')] exports. *)
Record ChromaModule := mkChromaModule {
  is_function : bool;
  has_ChromaClient : bool;
  has_Client : bool
}.

Inductive client_ctor :=
| CloudClientCtor (apiKey tenant database : string)
| ModuleCtor
| ChromaClientCtor
| ClientCtor.

Record AddRequest := mkAddRequest {
  add_ids : list string;
  add_documents : list string;
  add_metadatas : list Meta;
  add_embeddings : option (list vector)
}.

Record QueryResponse := mkQueryResponse {
  q_documents : option (list (list string));
  q_ids : option (list (list string));
  q_distances : option (list (list float))
}.

(** A field of a [get] answer: some clients return arrays, some arrays of
    arrays. *)
Inductive nested (A : Type) :=
| Flat (l : list A)
| Nested (l : list (list A)).
Arguments Flat {A} l.
Arguments Nested {A} l.

Record GetResponse := mkGetResponse {
  g_ids : option (nested string);
  g_documents : option (nested string);
  g_metadatas : option (nested (option Meta));
  g_embeddings : option (nested vector)
}.

Record EmbeddingDatum := mkEmbeddingDatum { d_embedding : option vector }.
Record EmbeddingResponse := mkEmbeddingResponse {
  e_data : option (list EmbeddingDatum)
}.

(** The external services, over a world [W] that they may change.  A call
    resolves ([Ok]) or rejects ([Throw]); a resolved value may be
    [undefined] ([None]). *)
Record Remote (W : Type) := mkRemote {
  construct_client : client_ctor -> W -> result Client * W;
  getCollection : Client -> string -> W -> result (option Collection) * W;
  createCollection : Client -> string -> W -> result (option Collection) * W;
  deleteCollection : Client -> string -> W -> result unit * W;
  collection_add : Collection -> AddRequest -> W -> result unit * W;
  collection_upsert : Collection -> AddRequest -> W -> result unit * W;
  client_add : Client -> AddRequest -> W -> result unit * W;
  collection_query :
    Collection -> vector -> Z -> W -> result (option QueryResponse) * W;
  client_query :
    Client -> vector -> Z -> W -> result (option QueryResponse) * W;
  collection_get : Collection -> W -> result (option GetResponse) * W;
  collection_delete : Collection -> W -> result unit * W;
  collection_clear : Collection -> W -> result unit * W;
  embeddings_create :
    ApiClient -> string -> string -> W -> result EmbeddingResponse * W
}.
Arguments construct_client {W}.
Arguments getCollection {W}.
Arguments createCollection {W}.
Arguments deleteCollection {W}.
Arguments collection_add {W}.
Arguments collection_upsert {W}.
Arguments client_add {W}.
Arguments collection_query {W}.
Arguments client_query {W}.
Arguments collection_get {W}.
Arguments collection_delete {W}.
Arguments collection_clear {W}.
Arguments embeddings_create {W}.

(** The calls that leave the process. *)
Inductive call :=
| CallConstruct
| CallGetCollection
| CallCreateCollection
| CallDeleteCollection
| CallCollectionAdd
| CallCollectionUpsert
| CallClientAdd
| CallCollectionQuery
| CallClientQuery
| CallCollectionGet
| CallCollectionDelete
| CallCollectionClear
| CallEmbeddings.

Definition is_chroma_call (c : call) : bool :=
  match c with CallEmbeddings => false | _ => true end.

(** ** Configuration ([process.env] and the optional module) *)

Record Config := mkConfig {
  ENABLE_CHROMA : option string;
  Chroma : option ChromaModule;
  CHROMA_CLOUD_API_KEY : option string;
  CHROMA_TENANT : option string;
  CHROMA_DATABASE : option string;
  EMBEDDING_MODEL : option string
}.

(** Truthiness of an environment variable. *)
Definition truthy (s : option string) : bool :=
  match s with
  | Some s => negb (String.eqb s EmptyString)
  | None => false
  end.

Definition or_default (s : option string) (d : string) : string :=
  if truthy s then match s with Some v => v | None => d end else d.

Inductive store_type := Memory | ChromaStore.

Inductive log_entry :=
| Info (message : string)
| Warn (message : string)
| Error (message : string).

(** [n.toString()] for a natural number. *)
Definition toString (n : nat) : string :=
  NilZero.string_of_uint (Nat.to_uint n).

(** ** Module state and the monad of the server code *)

Section Facade.
Context {W : Type}.
Variable R : Remote W.
Variable cfg : Config.

(** The module-level bindings the vector store reads and writes, the heap of
    array objects, the world of the remote services, the calls made to them
    and the console. *)
Record State := mkState {
  arrays : list (list Item);
  vectors : nat;
  type : store_type;
  chromaClient : option Client;
  chromaCollection : option Collection;
  openaiChatClient : option ApiClient;
  openaiEmbeddingsClient : option ApiClient;
  world : W;
  calls : list call;
  console : list log_entry
}.

Definition set_arrays (h : list (list Item)) (st : State) : State :=
  mkState h (vectors st) (type st) (chromaClient st) (chromaCollection st)
    (openaiChatClient st) (openaiEmbeddingsClient st) (world st) (calls st)
    (console st).

Definition set_vectors (r : nat) (st : State) : State :=
  mkState (arrays st) r (type st) (chromaClient st) (chromaCollection st)
    (openaiChatClient st) (openaiEmbeddingsClient st) (world st) (calls st)
    (console st).

Definition set_type (t : store_type) (st : State) : State :=
  mkState (arrays st) (vectors st) t (chromaClient st) (chromaCollection st)
    (openaiChatClient st) (openaiEmbeddingsClient st) (world st) (calls st)
    (console st).

Definition set_chromaClient (c : option Client) (st : State) : State :=
  mkState (arrays st) (vectors st) (type st) c (chromaCollection st)
    (openaiChatClient st) (openaiEmbeddingsClient st) (world st) (calls st)
    (console st).

Definition set_chromaCollection (c : option Collection) (st : State) : State :=
  mkState (arrays st) (vectors st) (type st) (chromaClient st) c
    (openaiChatClient st) (openaiEmbeddingsClient st) (world st) (calls st)
    (console st).

Definition set_world (w : W) (c : call) (st : State) : State :=
  mkState (arrays st) (vectors st) (type st) (chromaClient st)
    (chromaCollection st) (openaiChatClient st) (openaiEmbeddingsClient st)
    w (calls st ++ [c]) (console st).

Definition add_log (e : log_entry) (st : State) : State :=
  mkState (arrays st) (vectors st) (type st) (chromaClient st)
    (chromaCollection st) (openaiChatClient st) (openaiEmbeddingsClient st)
    (world st) (calls st) (console st ++ [e]).

(** A computation returns or throws, and leaves a state in both cases. *)
Definition M (A : Type) : Type := State -> result A * State.

Definition ret {A : Type} (a : A) : M A := fun st => (Ok a, st).

Definition throw {A : Type} (e : js_error) : M A := fun st => (Throw e, st).

Definition bind {A B : Type} (m : M A) (k : A -> M B) : M B :=
  fun st =>
    match m st with
    | (Ok a, st') => k a st'
    | (Throw e, st') => (Throw e, st')
    end.

(** [try { body } catch (e) { handler }] *)
Definition try_catch {A : Type} (body : M A) (handler : js_error -> M A) : M A :=
  fun st =>
    match body st with
    | (Ok a, st') => (Ok a, st')
    | (Throw e, st') => handler e st'
    end.

Definition gets {A : Type} (f : State -> A) : M A := fun st => (Ok (f st), st).

Definition modify (f : State -> State) : M unit := fun st => (Ok tt, f st).

Definition log (e : log_entry) : M unit := modify (add_log e).

(** A call to a remote service: the world answers and the call is recorded. *)
Definition remote {A : Type} (c : call) (f : W -> result A * W) : M A :=
  fun st => let '(r, w) := f (world st) in (r, set_world w c st).

Notation "'let*' x ':=' m 'in' k" := (bind m (fun x => k))
  (at level 10, x name, m at level 100, k at level 200).
Notation "m ';;' k" := (bind m (fun _ => k))
  (at level 100, k at level 200, right associativity).

(** *** The heap of arrays *)

(** The content of the array object at [r]. *)
Definition array_at (st : State) (r : nat) : list Item :=
  match arrays st !! r with Some a => a | None => [] end.

(** An array literal or the result of a method that builds a new array. *)
Definition alloc (a : list Item) : M nat :=
  fun st => (Ok (length (arrays st)), set_arrays (arrays st ++ [a]) st).

Definition read (r : nat) : M (list Item) := gets (fun st => array_at st r).

Definition write (r : nat) (a : list Item) : M unit :=
  modify (fun st => set_arrays (<[r := a]> (arrays st)) st).

(** [arr.push(x)] *)
Definition array_push (r : nat) (x : Item) : M unit :=
  let* a := read r in write r (a ++ [x]).

(** [arr.map(f)]: a new array. *)
Definition array_map (f : Item -> Item) (r : nat) : M nat :=
  let* a := read r in alloc (map f a).

(** [arr.sort(comparefn)]: in place. *)
Definition array_sort (comparefn : Item -> Item -> float) (r : nat) : M unit :=
  let* a := read r in write r (js_sort comparefn a).

(** [arr.slice(0, k)]: a new array. *)
Definition array_slice (r : nat) (k : Z) : M nat :=
  let* a := read r in alloc (slice0 a k).

(** The store's array is an allocated object. *)
Definition wf (st : State) : Prop := vectors st < length (arrays st).

(** [st'] has the store array of [st] and its arrays, and new arrays at
    most. *)
Definition extends (st st' : State) : Prop :=
  vectors st' = vectors st /\ exists ext, arrays st' = (arrays st ++ ext)%list.

(** A computation that leaves the store array and every existing array as
    they are, whether it returns or throws. *)
Definition preserves {A : Type} (m : M A) : Prop :=
  forall st, extends st (snd (m st)).

(** ** The embeddings helper *)

(** Reading an identifier that should hold an API client.  The module
    declares [openaiChatClient] and [openaiEmbeddingsClient]; any other name
    is bound neither in the module nor in Node's global object, and reading
    it throws a ReferenceError. *)
Definition read_client_binding (x : string) : M (option ApiClient) :=
  if String.eqb x "openaiChatClient" then gets openaiChatClient
  else if String.eqb x "openaiEmbeddingsClient" then gets openaiEmbeddingsClient
  else throw (ReferenceError x).

(** [resp.data && resp.data[0] && resp.data[0].embedding] *)
Definition first_embedding (resp : EmbeddingResponse) : option vector :=
  match e_data resp with
  | Some (d :: _) => d_embedding d
  | _ => None
  end.

(** [async function embedText(text)] *)
Definition embedText (text : string) : M (option vector) :=
  let* openaiClient := read_client_binding "openaiClient" in
  match openaiClient with
  | None => ret None
  | Some client =>
      try_catch
        (let* resp :=
           remote CallEmbeddings
             (embeddings_create R client
                (or_default (EMBEDDING_MODEL cfg) "text-embedding-3-small") text) in
         ret (first_embedding resp))
        (fun err => log (Error "embedding error") ;; ret None)
  end.

(** ** Adding a record *)

(** [id || (vectorStore.vectors.length + 1).toString()] *)
Definition item_id (supplied : option string) (len : nat) : string :=
  match supplied with
  | Some s => if String.eqb s EmptyString then toString (len + 1) else s
  | None => toString (len + 1)
  end.

Definition add_request (item : Item) (with_embeddings : bool) : AddRequest :=
  {| add_ids := [id item];
     add_documents := [text item];
     add_metadatas := [match meta item with Some m => m | None => [] end];
     add_embeddings :=
       if with_embeddings then option_map (fun e => [e]) (embedding item)
       else None |}.

(** The body of the [try] of [addVector]: [Some item] when one of the
    branches returned, [None] when control reaches the end of the block. *)
Definition chroma_add (c : Collection) (item : Item) : M (option Item) :=
  if has_add c then
    remote CallCollectionAdd (collection_add R c (add_request item true)) ;;
    ret (Some item)
  else if has_upsert c then
    remote CallCollectionUpsert (collection_upsert R c (add_request item true)) ;;
    ret (Some item)
  else
    let* cl := gets chromaClient in
    match cl with
    | Some cl' =>
        if cl_add cl' then
          remote CallClientAdd (client_add R cl' (add_request item false)) ;;
          ret (Some item)
        else ret None
    | None => ret None
    end.

(** [addVector] from the point where [await embedText(text)] has returned
    [emb]. *)
Definition addVector_stored (supplied : option string) (txt : string)
    (m : option Meta) (emb : option vector) : M Item :=
  let* vs := gets vectors in
  let* stored := read vs in
  let item :=
    {| id := item_id supplied (length stored); text := txt; embedding := emb;
       meta := Some (match m with Some m' => m' | None => [] end);
       score := None |} in
  let* coll := gets chromaCollection in
  let* returned :=
    match coll with
    | Some c =>
        try_catch (chroma_add c item)
          (fun e =>
             log (Warn "chroma add/upsert failed, falling back to memory store") ;;
             ret None)
    | None => ret None
    end in
  match returned with
  | Some it => ret it
  | None =>
      let* vs' := gets vectors in
      array_push vs' item ;;
      ret item
  end.

(** [async function addVector({ id, text, meta })] *)
Definition addVector (supplied : option string) (txt : string)
    (m : option Meta) : M Item :=
  let* emb := embedText txt in
  addVector_stored supplied txt m emb.

(** [POST /api/vector] *)
Definition post_vector (supplied : option string) (txt : option string)
    (m : option Meta) : M http_response :=
  if truthy txt then
    try_catch
      (let* item :=
         addVector supplied (match txt with Some t => t | None => EmptyString end) m in
       ret (JsonItem item))
      (fun err => log (Error "addVector error") ;; ret (JsonError 500 "internal error"))
  else ret (JsonError 400 "text required").

(** ** Querying *)

(** [(q.documents && q.documents[0]) || []] and its siblings *)
Definition first_row {A : Type} (f : option (list (list A))) : list A :=
  match f with
  | Some (row :: _) => row
  | _ => []
  end.

(** [ids[i] || (i + 1).toString()] *)
Definition hit_id (ids : list string) (i : nat) : string :=
  match ids !! i with
  | Some s => if String.eqb s EmptyString then toString (i + 1) else s
  | None => toString (i + 1)
  end.

(** The loop building [out] from a query answer. *)
Definition query_hits (q : QueryResponse) : list Item :=
  let docs := first_row (q_documents q) in
  let ids := first_row (q_ids q) in
  let distances := first_row (q_distances q) in
  imap (fun i doc =>
          {| id := hit_id ids i; text := doc; embedding := None; meta := None;
             score := distances !! i |}) docs.

(** Reading [q.documents] when [q] is [undefined] throws. *)
Definition answer_hits (q : option QueryResponse) : M (option nat) :=
  match q with
  | Some q' => let* out := alloc (query_hits q') in ret (Some out)
  | None => throw (TypeError "Cannot read properties of undefined")
  end.

(** The body of the [try] of [queryVectors]. *)
Definition chroma_query (c : Collection) (e : vector) (k : Z) : M (option nat) :=
  if has_query c then
    let* q := remote CallCollectionQuery (collection_query R c e k) in
    answer_hits q
  else
    let* cl := gets chromaClient in
    match cl with
    | Some cl' =>
        if cl_query cl' then
          let* q := remote CallClientQuery (client_query R cl' e k) in
          answer_hits q
        else ret None
    | None => ret None
    end.

(** The copies that [map] builds for a query [e], and their order once
    sorted. *)
Definition scored_copies (e : vector) (st : State) : list Item :=
  map (fun v => with_score v (cosine (Some e) (embedding v)))
    (array_at st (vectors st)).

Definition ranked_copies (e : vector) (st : State) : list Item :=
  js_sort by_score_desc (scored_copies e st).

(** The in-memory similarity scoring: the last three lines of
    [queryVectors]. *)
Definition memory_query (e : vector) (k : Z) : M nat :=
  let* vs := gets vectors in
  let* scored :=
    array_map (fun v => with_score v (cosine (Some e) (embedding v))) vs in
  array_sort by_score_desc scored ;;
  array_slice scored k.

(** [async function queryVectors(embedding, k = 3)]; the result is the
    array object returned. *)
Definition queryVectors (emb : option vector) (k : option Z) : M nat :=
  let k := match k with Some k' => k' | None => 3%Z end in
  match emb with
  | None => alloc []
  | Some e =>
      let* coll := gets chromaCollection in
      let* returned :=
        match coll with
        | Some c =>
            try_catch (chroma_query c e k)
              (fun err =>
                 log (Warn "chroma query failed, falling back to memory") ;;
                 ret None)
        | None => ret None
        end in
      match returned with
      | Some out => ret out
      | None => memory_query e k
      end
  end.

(** ** Listing *)

(** [(g.f && (Array.isArray(g.f[0]) ? g.f[0] : g.f)) || []] for a field
    whose elements are not arrays themselves. *)
Definition normalise {A : Type} (f : option (nested A)) : list A :=
  match f with
  | Some (Flat l) => l
  | Some (Nested (row :: _)) => row
  | _ => []
  end.

(** The same expression on [g.embeddings]: an embedding is an array, so a
    flat array of embeddings is taken for an array of arrays and its first
    embedding becomes the list. *)
Definition normalise_embeddings (f : option (nested vector)) : list emb_value :=
  match f with
  | Some (Flat (v :: _)) => map EmbNumber v
  | Some (Nested (row :: _)) => map EmbVector row
  | _ => []
  end.

(** [x || null] on a string. *)
Definition nonempty (s : option string) : option string :=
  match s with
  | Some v => if String.eqb v EmptyString then None else Some v
  | None => None
  end.

(** [x || null] on an element of the normalised embeddings. *)
Definition truthy_embedding (x : option emb_value) : option emb_value :=
  match x with
  | Some (EmbNumber n) =>
      if (is_nan n || (n =? 0)%float)%bool then None else Some (EmbNumber n)
  | other => other
  end.

Definition listed_rows (g : GetResponse) : list Listed :=
  let ids := normalise (g_ids g) in
  let documents := normalise (g_documents g) in
  let metadatas := normalise (g_metadatas g) in
  let embeddings := normalise_embeddings (g_embeddings g) in
  map (fun i =>
         {| l_id := nonempty (ids !! i);
            l_text := nonempty (documents !! i);
            l_meta := match metadatas !! i with Some m => m | None => None end;
            l_embedding := truthy_embedding (embeddings !! i) |})
      (seq 0 (Nat.max (length ids) (length documents))).

(** The body of the inner [try] of the list handler. *)
Definition chroma_list (c : Collection) : M (option http_response) :=
  if has_get c then
    let* g := remote CallCollectionGet (collection_get R c) in
    match g with
    | Some g' => ret (Some (JsonItems (listed_rows g')))
    | None => throw (TypeError "Cannot read properties of undefined")
    end
  else ret None.

(** The remote attempt of the list handler, failures caught. *)
Definition list_remote : M (option http_response) :=
  let* coll := gets chromaCollection in
  match coll with
  | Some c =>
      try_catch (chroma_list c)
        (fun e => log (Warn "chroma get failed") ;; ret None)
  | None => ret None
  end.

(** [GET /api/vector/list] *)
Definition list_handler : M http_response :=
  try_catch
    (let* returned := list_remote in
     match returned with
     | Some resp => ret resp
     | None =>
         let* vs := gets vectors in
         let* items := read vs in
         ret (JsonItems (map listed_of_item items))
     end)
    (fun err => log (Error "list vectors error") ;; ret (JsonError 500 "internal error")).

(** ** Clearing *)

(** The body of the inner [try] of the clear handler. *)
Definition chroma_clear (c : Collection) : M (option http_response) :=
  if has_delete c then
    remote CallCollectionDelete (collection_delete R c) ;;
    ret (Some JsonOk)
  else if has_clear c then
    remote CallCollectionClear (collection_clear R c) ;;
    ret (Some JsonOk)
  else
    let* cl := gets chromaClient in
    match cl with
    | Some cl' =>
        if cl_deleteCollection cl' then
          remote CallDeleteCollection (deleteCollection R cl' "minime") ;;
          (if cl_createCollection cl' then
             let* c' := remote CallCreateCollection (createCollection R cl' "minime") in
             modify (set_chromaCollection c')
           else ret tt) ;;
          ret (Some JsonOk)
        else ret None
    | None => ret None
    end.

(** The remote attempt of the clear handler, failures caught. *)
Definition clear_remote : M (option http_response) :=
  let* coll := gets chromaCollection in
  match coll with
  | Some c =>
      try_catch (chroma_clear c)
        (fun e => log (Warn "chroma clear failed") ;; ret None)
  | None => ret None
  end.

(** [POST /api/vector/clear] *)
Definition clear_handler : M http_response :=
  try_catch
    (let* returned := clear_remote in
     match returned with
     | Some resp => ret resp
     | None =>
         let* fresh := alloc [] in
         modify (set_vectors fresh) ;;
         ret JsonOk
     end)
    (fun err => log (Error "clear vectors error") ;; ret (JsonError 500 "internal error")).

(** ** Initialisation of the remote backend *)

(** The client construction of the initialisation block. *)
Definition connect (m : ChromaModule) : M unit :=
  if (truthy (CHROMA_CLOUD_API_KEY cfg) && truthy (CHROMA_TENANT cfg))%bool then
    let* cl :=
      remote CallConstruct
        (construct_client R
           (CloudClientCtor
              (or_default (CHROMA_CLOUD_API_KEY cfg) EmptyString)
              (or_default (CHROMA_TENANT cfg) EmptyString)
              (or_default (CHROMA_DATABASE cfg) "minime"))) in
    modify (set_chromaClient (Some cl)) ;;
    log (Info "Connected to Chroma Cloud")
  else
    let* cl :=
      if is_function m then remote CallConstruct (construct_client R ModuleCtor)
      else if has_ChromaClient m then
        remote CallConstruct (construct_client R ChromaClientCtor)
      else if has_Client m then
        remote CallConstruct (construct_client R ClientCtor)
      else throw (TypeError "Chroma is not a constructor") in
    modify (set_chromaClient (Some cl)) ;;
    log (Info "Connected to local Chroma server").

(** The body of the [try] that gets the collection named [minime]. *)
Definition get_step (cl : Client) : M unit :=
  if cl_getCollection cl then
    let* c := remote CallGetCollection (getCollection R cl "minime") in
    modify (set_chromaCollection c) ;;
    log (Info "Got existing Chroma collection: minime")
  else ret tt.

(** The body of the [try] that creates it when getting it threw. *)
Definition create_step (cl : Client) : M unit :=
  if cl_createCollection cl then
    let* c := remote CallCreateCollection (createCollection R cl "minime") in
    modify (set_chromaCollection c) ;;
    log (Info "Created Chroma collection: minime")
  else ret tt.

(** Getting, or else creating, the collection. *)
Definition obtain_collection (cl : Client) : M unit :=
  try_catch (get_step cl)
    (fun e =>
       try_catch (create_step cl)
         (fun e2 =>
            log (Warn "Could not create collection") ;;
            modify (set_chromaCollection None))).

(** [process.env.ENABLE_CHROMA === 'true'] *)
Definition chroma_enabled : bool :=
  match ENABLE_CHROMA cfg with
  | Some s => String.eqb s "true"
  | None => false
  end.

(** The initialisation block, run to its end. *)
Definition chroma_init : M unit :=
  match Chroma cfg with
  | Some m =>
      if chroma_enabled then
        try_catch
          (connect m ;;
           let* cl := gets chromaClient in
           match cl with
           | Some cl' => obtain_collection cl'
           | None => ret tt
           end ;;
           let* c := gets chromaCollection in
           match c with
           | Some _ => modify (set_type ChromaStore)
           | None => ret tt
           end)
          (fun e =>
             log (Warn "chroma initialization failed, falling back to memory store") ;;
             modify (set_chromaClient None) ;;
             modify (set_chromaCollection None))
      else
        log (Info "Chroma module present but disabled. Set ENABLE_CHROMA=true to enable Chroma integration.")
  | None => ret tt
  end.

(** The connection step of the initialisation throws. *)
Definition connection_fails (st : State) : Prop :=
  exists m e, Chroma cfg = Some m /\ fst (connect m st) = Throw e.

(** The connection step leaves a client, getting the collection throws, and
    creating it throws too or cannot be tried. *)
Definition collection_setup_fails (st : State) : Prop :=
  exists m cl e,
    Chroma cfg = Some m /\ fst (connect m st) = Ok tt /\
    chromaClient (snd (connect m st)) = Some cl /\
    fst (get_step cl (snd (connect m st))) = Throw e /\
    (cl_createCollection cl = false \/
     exists e2,
       fst (create_step cl (snd (get_step cl (snd (connect m st))))) = Throw e2).

(** ** The operations of the facade, as a caller issues them *)

Inductive request :=
| AddVector (supplied : option string) (txt : string) (m : option Meta)
| QueryVectors (emb : option vector) (k : option Z)
| ListVectors
| ClearVectors.

(** The state after serving a request, whether it returned or threw. *)
Definition serve (q : request) (st : State) : State :=
  match q with
  | AddVector supplied txt m => snd (addVector supplied txt m st)
  | QueryVectors emb k => snd (queryVectors emb k st)
  | ListVectors => snd (list_handler st)
  | ClearVectors => snd (clear_handler st)
  end.

Definition serve_all (qs : list request) (st : State) : State :=
  fold_left (fun s q => serve q s) qs st.

(** The calls to the remote vector database recorded so far. *)
Definition chroma_calls (st : State) : list call :=
  List.filter is_chroma_call (calls st).

(** The state of the module once loaded: an empty store array, no client,
    no collection. *)
Definition initial_state (w : W) (chat emb : option ApiClient) : State :=
  mkState [[]] 0 Memory None None chat emb w [] [].

End Facade.

Arguments State W : clear implicits.
Arguments M W A : clear implicits.

(** ** What a computation may change *)

(** The calls that manage the remote collection: they construct the client,
    get, create or delete the collection, list it or clear it.  None of
    them carries a record, a text or a query. *)
Definition manages_collection (c : call) : bool :=
  match c with
  | CallConstruct | CallGetCollection | CallCreateCollection
  | CallDeleteCollection | CallCollectionGet | CallCollectionDelete
  | CallCollectionClear => true
  | _ => false
  end.

(** [st'] has the calls of [st] and, after them, calls that manage the
    collection at most. *)
Definition quiet {W : Type} (st st' : State W) : Prop :=
  exists l,
    calls st' = (calls st ++ l)%list
    /\ Forall (fun c => manages_collection c = true) l.

(** [st'] differs from [st] by its world and its console at most. *)
Definition same_records {W : Type} (st st' : State W) : Prop :=
  arrays st' = arrays st /\ vectors st' = vectors st /\ type st' = type st
  /\ chromaClient st' = chromaClient st
  /\ chromaCollection st' = chromaCollection st
  /\ calls st' = calls st.

(** The state a computation leaves is related by [rel] to the state it
    started from, whether it returns or throws. *)
Definition keeps {W A : Type} (rel : State W -> State W -> Prop) (m : M W A)
  : Prop :=
  forall st, rel st (snd (m st)).

(** A computation that neither reads nor writes what [upd] sets: started
    from a state changed by [upd], it gives the same result and leaves the
    same state, changed by [upd]. *)
Definition ignores {S A : Type} (upd : S -> S) (m : S -> result A * S) : Prop :=
  forall st, m (upd st) = (fst (m st), upd (snd (m st))).

(** The module with other OpenAI clients in [openaiChatClient] and
    [openaiEmbeddingsClient]. *)
Definition set_openai_clients {W : Type} (chat emb : option ApiClient)
    (st : State W) : State W :=
  mkState (arrays st) (vectors st) (type st) (chromaClient st)
    (chromaCollection st) chat emb (world st) (calls st) (console st).

(** ** The HTTP layer *)

(** The variables of [process.env] that the HTTP layer reads, and
    [process.platform]. *)
Record Env := mkEnv {
  env_ROOT_API_KEY : option string;
  env_OPENAI_API_KEY : option string;
  env_CHAT_MODEL : option string;
  platform : string
}.

(** [const ROOT_API_KEY = process.env.ROOT_API_KEY || null] *)
Definition ROOT_API_KEY (env : Env) : option string :=
  nonempty (env_ROOT_API_KEY env).

(** [const genai = process.env.OPENAI_API_KEY ? new GoogleGenerativeAI(...) : null]:
    the client, when there is one, is known by the key it was built with. *)
Definition genai (env : Env) : option string :=
  nonempty (env_OPENAI_API_KEY env).

(** A value of [req.query]: a string, or an array or an object when the
    parameter is repeated or written with brackets.  Arrays and objects are
    truthy and never [===] a string. *)
Inductive query_value :=
| QueryString (s : string)
| QueryStructured.

(** What [apiKeyMiddleware] reads of a request. *)
Record Req := mkReq {
  req_path : string;
  header_x_api_key : option string;
  query_api_key : option query_value
}.

(** [req.headers['x-api-key'] || req.query.api_key] *)
Definition presented_key (req : Req) : option query_value :=
  match nonempty (header_x_api_key req) with
  | Some h => Some (QueryString h)
  | None => query_api_key req
  end.

(** [!key || key !== ROOT_API_KEY] *)
Definition key_refused (key : option query_value) (root : string) : bool :=
  match key with
  | Some (QueryString s) => String.eqb s EmptyString || negb (String.eqb s root)
  | Some QueryStructured => true
  | None => true
  end.

(** A middleware hands the request on or answers it. *)
Inductive verdict :=
| Next
| Respond (r : http_response).

(** [function apiKeyMiddleware(req, res, next)] *)
Definition apiKeyMiddleware (env : Env) (req : Req) : verdict :=
  if String.eqb (req_path req) "/health" then Next
  else
    match ROOT_API_KEY env with
    | None => Next
    | Some root =>
        if key_refused (presented_key req) root
        then Respond (JsonError 401 "missing or invalid API key")
        else Next
    end.

(** What a handler has sent when it returns: one of the JSON bodies of the
    vector routes, [{ ok: true, gemini }], [{ reply, stored }], or nothing
    at all. *)
Inductive http_reply :=
| Sent (r : http_response)
| SentHealth (gemini : bool)
| SentChat (reply : string) (stored_item : option Item)
| Pending.

(** The value [generateContent] resolves with: [response] may be missing,
    and [response.text()] returns the text or throws. *)
Record GenerateResult := mkGenerateResult {
  response : option (result string)
}.

(** The services of the HTTP layer besides the vector database: the Gemini
    model and the operating system. *)
Record Services (W : Type) := mkServices {
  generateContent :
    string -> string -> W -> result (option GenerateResult) * W;
  spawn : string -> list string -> W -> result unit * W
}.
Arguments generateContent {W}.
Arguments spawn {W}.

(** [err.message] *)
Definition error_message (e : js_error) : string :=
  match e with
  | ReferenceError name => name ++ " is not defined"
  | TypeError what => what
  | RemoteError message => message
  end.

(** The names every object literal inherits from [Object.prototype]; their
    values are functions, and the prototype itself for [__proto__]: all
    truthy. *)
Definition object_prototype_keys : list string :=
  [ "constructor"; "__defineGetter__"; "__defineSetter__"; "hasOwnProperty";
    "__lookupGetter__"; "__lookupSetter__"; "isPrototypeOf";
    "propertyIsEnumerable"; "toString"; "valueOf"; "__proto__";
    "toLocaleString" ].

(** Truthiness of [ACTION_WHITELIST[action]] for an action that is a string
    or absent.  The lookup of a property goes through the prototype; an
    absent action looks up the key [undefined]. *)
Definition ACTION_WHITELIST (action : option string) : bool :=
  match action with
  | Some a =>
      String.eqb a "open-folder" || String.eqb a "open-chrome-new-window"
      || existsb (String.eqb a) object_prototype_keys
  | None => false
  end.

(** [action === name] *)
Definition action_is (name : string) (action : option string) : bool :=
  match action with
  | Some a => String.eqb a name
  | None => false
  end.

Definition newline : string := String (ascii_of_nat 10) EmptyString.

(** The prompt of the chat handler, a template with two line breaks. *)
Definition prompt_of (userMessage : string) : string :=
  "You are a helpful assistant." ++ newline ++ "User: " ++ userMessage
  ++ newline ++ "Answer:".

(** The routes of the application, with what each handler reads of the
    request body; a field that is absent is [None]. *)
Inductive route :=
| Health
| PostVector (supplied : option string) (txt : option string) (m : option Meta)
| VectorList
| VectorClear
| Chat (message : option string)
| Action (action folder url : option string).

Section Server.
Context {W : Type}.
Variable R : Remote W.
Variable G : Services W.
Variable cfg : Config.
Variable env : Env.

(** The state of the process: the module state of the vector store, the
    prompts sent to the model and the processes started. *)
Record Server := mkServer {
  store : State W;
  generations : list (string * string);
  spawned : list (string * list string)
}.

Definition App (A : Type) : Type := Server -> result A * Server.

Definition app_ret {A : Type} (a : A) : App A := fun s => (Ok a, s).

Definition app_throw {A : Type} (e : js_error) : App A := fun s => (Throw e, s).

Definition app_bind {A B : Type} (m : App A) (k : A -> App B) : App B :=
  fun s =>
    match m s with
    | (Ok a, s') => k a s'
    | (Throw e, s') => (Throw e, s')
    end.

Definition app_catch {A : Type} (body : App A) (handler : js_error -> App A)
  : App A :=
  fun s =>
    match body s with
    | (Ok a, s') => (Ok a, s')
    | (Throw e, s') => handler e s'
    end.

(** A computation of the vector store, run on the store of the server. *)
Definition lift {A : Type} (m : M W A) : App A :=
  fun s =>
    let '(r, st) := m (store s) in
    (r, mkServer st (generations s) (spawned s)).

Notation "'let*' x ':=' m 'in' k" := (app_bind m (fun x => k))
  (at level 10, x name, m at level 100, k at level 200).
Notation "m ';;' k" := (app_bind m (fun _ => k))
  (at level 100, k at level 200, right associativity).

(** The world after a call that is not one to the vector database or the
    embeddings provider. *)
Definition put_world (w : W) (st : State W) : State W :=
  mkState (arrays st) (vectors st) (type st) (chromaClient st)
    (chromaCollection st) (openaiChatClient st) (openaiEmbeddingsClient st)
    w (calls st) (console st).

(** [genai.getGenerativeModel({ model }).generateContent(prompt)] *)
Definition generate (model prompt : string) : App (option GenerateResult) :=
  fun s =>
    let '(r, w) := generateContent G model prompt (world (store s)) in
    (r, mkServer (put_world w (store s))
          (generations s ++ [(model, prompt)]) (spawned s)).

(** [spawn(command, args, { detached: true })] *)
Definition spawn_detached (command : string) (args : list string) : App unit :=
  fun s =>
    let '(r, w) := spawn G command args (world (store s)) in
    (r, mkServer (put_world w (store s)) (generations s)
          (spawned s ++ [(command, args)])).

(** [GET /health] *)
Definition health_handler : App http_reply :=
  app_ret (SentHealth (match genai env with Some _ => true | None => false end)).

(** The reply of the chat handler: the [if (genai) ... else ...] of
    [POST /api/chat]. *)
Definition gemini_reply (userMessage : string) : App string :=
  match genai env with
  | Some _ =>
      app_catch
        (let* result :=
           generate (or_default (env_CHAT_MODEL env) "gemini-1.5-flash")
             (prompt_of userMessage) in
         match result with
         | Some r =>
             match response r with
             | Some (Ok t) => app_ret t
             | Some (Throw e) => app_throw e
             | None => app_ret "Received empty response from Gemini"
             end
         | None => app_ret "Received empty response from Gemini"
         end)
        (fun err =>
           lift (log (Error "gemini error")) ;;
           app_ret ("Error: Gemini failed: " ++ error_message err))
  | None => app_ret ("Echo (no API key): " ++ userMessage)
  end.

(** [POST /api/chat], for a message that is a string or absent. *)
Definition chat_handler (message : option string) : App http_reply :=
  match nonempty message with
  | None => app_ret (Sent (JsonError 400 "message required"))
  | Some userMessage =>
      app_catch
        (let* reply := gemini_reply userMessage in
         app_catch
           (let* stored_item := lift (addVector R cfg None userMessage None) in
            app_ret (SentChat reply (Some stored_item)))
           (fun storeErr =>
              lift (log (Error "storage error")) ;;
              app_ret (SentChat reply None)))
        (fun err =>
           lift (log (Error "chat handler error")) ;;
           app_ret
             (Sent (JsonError 500
                      ("internal error: "
                       ++ (if String.eqb (error_message err) EmptyString
                           then "unknown" else error_message err)))))
  end.

(** [POST /api/action], for an action, a path and a url that are strings or
    absent. *)
Definition action_handler (action folder url : option string) : App http_reply :=
  if negb (ACTION_WHITELIST action) then
    app_ret (Sent (JsonError 403 "action not allowed"))
  else
    app_catch
      (if action_is "open-folder" action then
         match nonempty folder with
         | None => app_ret (Sent (JsonError 400 "path required"))
         | Some folder' =>
             (if String.eqb (platform env) "win32" then
                spawn_detached "explorer" [folder']
              else if String.eqb (platform env) "darwin" then
                spawn_detached "open" [folder']
              else spawn_detached "xdg-open" [folder']) ;;
             app_ret (Sent JsonOk)
         end
       else if action_is "open-chrome-new-window" action then
         let url' := or_default url "about:blank" in
         (if String.eqb (platform env) "win32" then
            spawn_detached "cmd" ["/c"; "start"; "chrome"; url']
          else if String.eqb (platform env) "darwin" then
            spawn_detached "open" ["-a"; "Google Chrome"; url']
          else spawn_detached "google-chrome" [url']) ;;
         app_ret (Sent JsonOk)
       else app_ret Pending)
      (fun e =>
         lift (log (Error (error_message e))) ;;
         app_ret (Sent (JsonError 500 (error_message e)))).

(** The handler that a route names. *)
Definition handle (rt : route) : App http_reply :=
  match rt with
  | Health => health_handler
  | PostVector supplied txt m =>
      let* r := lift (post_vector R cfg supplied txt m) in app_ret (Sent r)
  | VectorList => let* r := lift (list_handler R) in app_ret (Sent r)
  | VectorClear => let* r := lift (clear_handler R) in app_ret (Sent r)
  | Chat message => chat_handler message
  | Action action folder url => action_handler action folder url
  end.

(** A request passes [apiKeyMiddleware] before the handler of its route
    runs.  The path that the middleware tests and the route that the router
    matches are separate inputs: the router matches without regard to case
    or to a trailing slash, the middleware compares the path as it is. *)
Definition app (req : Req) (rt : route) : App http_reply :=
  match apiKeyMiddleware env req with
  | Next => handle rt
  | Respond r => app_ret (Sent r)
  end.

(** The state after a sequence of requests. *)
Definition app_all (reqs : list (Req * route)) (s : Server) : Server :=
  fold_left (fun s' q => snd (app (fst q) (snd q) s')) reqs s.

(** The process with other OpenAI clients. *)
Definition with_openai_clients (chat emb : option ApiClient) (s : Server)
  : Server :=
  mkServer (set_openai_clients chat emb (store s)) (generations s) (spawned s).

(** The process once the module is loaded. *)
Definition loaded (w : W) (chat emb : option ApiClient) : Server :=
  mkServer (initial_state w chat emb) [] [].

(** The initialisation block, run to its end on the store of the server. *)
Definition init_block (s : Server) : Server :=
  mkServer (snd (chroma_init R cfg (store s))) (generations s) (spawned s).

(** A state the server reaches: the requests of [early] are served while
    the initialisation block has not run yet, those of [late] after it. *)
Definition reached (early late : list (Req * route)) (w : W)
    (chat emb : option ApiClient) : Server :=
  app_all late (init_block (app_all early (loaded w chat emb))).

(** [addVector] past its first line, repeated: the records of [inputs],
    none with an id of its own, added one after the other. *)
Definition add_all (inputs : list (string * option Meta * option vector))
    (st : State W) : State W :=
  fold_left
    (fun s '(txt, m, emb) => snd (addVector_stored R None txt m emb s))
    inputs st.

End Server.

Arguments Server W : clear implicits.
Arguments App W A : clear implicits.

(** ** Concrete services and stores used by the examples *)

Definition unreachable_error : js_error := RemoteError "ECONNREFUSED".

(** A remote side that rejects every call. *)
Definition unreachable : Remote unit :=
  {| construct_client := fun _ w => (Throw unreachable_error, w);
     getCollection := fun _ _ w => (Throw unreachable_error, w);
     createCollection := fun _ _ w => (Throw unreachable_error, w);
     deleteCollection := fun _ _ w => (Throw unreachable_error, w);
     collection_add := fun _ _ w => (Throw unreachable_error, w);
     collection_upsert := fun _ _ w => (Throw unreachable_error, w);
     client_add := fun _ _ w => (Throw unreachable_error, w);
     collection_query := fun _ _ _ w => (Throw unreachable_error, w);
     client_query := fun _ _ _ w => (Throw unreachable_error, w);
     collection_get := fun _ w => (Throw unreachable_error, w);
     collection_delete := fun _ w => (Throw unreachable_error, w);
     collection_clear := fun _ w => (Throw unreachable_error, w);
     embeddings_create := fun _ _ _ w => (Throw unreachable_error, w) |}.

(** A remote side that holds one document, lists it, and rejects every
    other call, [delete] included. *)
Definition read_only : Remote unit :=
  {| construct_client := fun _ w => (Throw unreachable_error, w);
     getCollection := fun _ _ w => (Throw unreachable_error, w);
     createCollection := fun _ _ w => (Throw unreachable_error, w);
     deleteCollection := fun _ _ w => (Throw unreachable_error, w);
     collection_add := fun _ _ w => (Throw unreachable_error, w);
     collection_upsert := fun _ _ w => (Throw unreachable_error, w);
     client_add := fun _ _ w => (Throw unreachable_error, w);
     collection_query := fun _ _ _ w => (Throw unreachable_error, w);
     client_query := fun _ _ _ w => (Throw unreachable_error, w);
     collection_get := fun _ w =>
       (Ok (Some {| g_ids := Some (Flat ["a"]);
                    g_documents := Some (Flat ["kept"]);
                    g_metadatas := None;
                    g_embeddings := None |}), w);
     collection_delete := fun _ w => (Throw unreachable_error, w);
     collection_clear := fun _ w => (Throw unreachable_error, w);
     embeddings_create := fun _ _ _ w => (Throw unreachable_error, w) |}.

(** A remote side that hands out a client and then rejects every call:
    the server is reachable, the collection cannot be had. *)
Definition collectionless : Remote unit :=
  {| construct_client := fun _ w =>
       (Ok {| client_handle := 0; cl_getCollection := true;
              cl_createCollection := true; cl_deleteCollection := true;
              cl_add := false; cl_query := false |}, w);
     getCollection := fun _ _ w => (Throw unreachable_error, w);
     createCollection := fun _ _ w => (Throw unreachable_error, w);
     deleteCollection := fun _ _ w => (Throw unreachable_error, w);
     collection_add := fun _ _ w => (Throw unreachable_error, w);
     collection_upsert := fun _ _ w => (Throw unreachable_error, w);
     client_add := fun _ _ w => (Throw unreachable_error, w);
     collection_query := fun _ _ _ w => (Throw unreachable_error, w);
     client_query := fun _ _ _ w => (Throw unreachable_error, w);
     collection_get := fun _ w => (Throw unreachable_error, w);
     collection_delete := fun _ w => (Throw unreachable_error, w);
     collection_clear := fun _ w => (Throw unreachable_error, w);
     embeddings_create := fun _ _ _ w => (Throw unreachable_error, w) |}.

(** A collection object with every method of the Chroma client. *)
Definition full_collection : Collection :=
  {| coll_handle := 0; has_add := true; has_upsert := true; has_query := true;
     has_get := true; has_delete := true; has_clear := false |}.

Definition no_config : Config :=
  {| ENABLE_CHROMA := None; Chroma := None; CHROMA_CLOUD_API_KEY := None;
     CHROMA_TENANT := None; CHROMA_DATABASE := None; EMBEDDING_MODEL := None |}.

(** Chroma enabled, the module exporting [ChromaClient], no cloud
    credentials. *)
Definition local_chroma_config : Config :=
  {| ENABLE_CHROMA := Some "true";
     Chroma := Some {| is_function := false; has_ChromaClient := true;
                       has_Client := false |};
     CHROMA_CLOUD_API_KEY := None; CHROMA_TENANT := None;
     CHROMA_DATABASE := None; EMBEDDING_MODEL := None |}.

Definition stored (i txt : string) (e : option vector) : Item :=
  {| id := i; text := txt; embedding := e; meta := Some []; score := None |}.

(** A store of three records whose second embedding is the zero vector. *)
Definition three_records : list Item :=
  [ stored "1" "cats" (Some [1; 0]%float);
    stored "2" "dogs" (Some [0; 0]%float);
    stored "3" "rockets" (Some [1; 1]%float) ].

(** Two records with distinct, non-zero embeddings. *)
Definition two_records : list Item :=
  [ stored "1" "cats" (Some [1; 0]%float);
    stored "2" "rockets" (Some [1; 1]%float) ].

(** The requests of a short session. *)
Definition session : list request :=
  [ AddVector None "hello" None;
    QueryVectors (Some [1; 0]%float) None;
    ListVectors;
    ClearVectors;
    QueryVectors None (Some 5%Z) ].

(** A module state whose store array holds [items]. *)
Definition memory_state (items : list Item) : State unit :=
  mkState [items] 0 Memory None None None None tt [] [].

(** A module state with an active remote collection and [items] in memory. *)
Definition remote_state (items : list Item) : State unit :=
  mkState [items] 0 ChromaStore None (Some full_collection) None None tt [] [].

(** A model that rejects every prompt and an operating system that starts
    every process. *)
Definition offline : Services unit :=
  {| generateContent := fun _ _ w => (Throw unreachable_error, w);
     spawn := fun _ _ w => (Ok tt, w) |}.

(** A model that rejects every prompt and an operating system on which
    [spawn] throws. *)
Definition no_launcher : Services unit :=
  {| generateContent := fun _ _ w => (Throw unreachable_error, w);
     spawn := fun _ _ w => (Throw (TypeError "spawn failed"), w) |}.

(** A development machine: a root key, a Gemini key, Linux. *)
Definition dev_env : Env :=
  {| env_ROOT_API_KEY := Some "dev-secret";
     env_OPENAI_API_KEY := Some "g-key";
     env_CHAT_MODEL := None;
     platform := "linux" |}.

(** The same machine with no key at all. *)
Definition bare_env : Env :=
  {| env_ROOT_API_KEY := None;
     env_OPENAI_API_KEY := None;
     env_CHAT_MODEL := None;
     platform := "linux" |}.

(** An answer of [get] with flat fields: two records, each with its
    embedding. *)
Definition flat_answer : GetResponse :=
  {| g_ids := Some (Flat ["a"; "b"]);
     g_documents := Some (Flat ["cats"; "dogs"]);
     g_metadatas := None;
     g_embeddings := Some (Flat [[1; 0]%float; [0; 1]%float]) |}.

(** An answer of [query]: two documents, one id, two distances. *)
Definition two_hits : QueryResponse :=
  {| q_documents := Some [["cats"; "dogs"]];
     q_ids := Some [["a"]];
     q_distances := Some [[0.25%float; 0.5%float]] |}.

(** A remote side with one collection that accepts what it is asked,
    answers a query with [two_hits] and lists [flat_answer]. *)
Definition answering : Remote unit :=
  {| construct_client := fun _ w =>
       (Ok {| client_handle := 0; cl_getCollection := true;
              cl_createCollection := true; cl_deleteCollection := true;
              cl_add := false; cl_query := false |}, w);
     getCollection := fun _ _ w => (Ok (Some full_collection), w);
     createCollection := fun _ _ w => (Ok (Some full_collection), w);
     deleteCollection := fun _ _ w => (Ok tt, w);
     collection_add := fun _ _ w => (Ok tt, w);
     collection_upsert := fun _ _ w => (Ok tt, w);
     client_add := fun _ _ w => (Ok tt, w);
     collection_query := fun _ _ _ w => (Ok (Some two_hits), w);
     client_query := fun _ _ _ w => (Throw unreachable_error, w);
     collection_get := fun _ w => (Ok (Some flat_answer), w);
     collection_delete := fun _ w => (Ok tt, w);
     collection_clear := fun _ w => (Ok tt, w);
     embeddings_create := fun _ _ _ w => (Throw unreachable_error, w) |}.

(** A process whose store is [st], before any prompt or process. *)
Definition server_of (st : State unit) : Server unit := mkServer st [] [].

(** The requests of a short HTTP session, each with the root key of
    [dev_env] in its header. *)
Definition http_session : list (Req * route) :=
  let req := {| req_path := "/api"; header_x_api_key := Some "dev-secret";
                query_api_key := None |} in
  [ (req, PostVector None (Some "hello") None);
    (req, Chat (Some "remember me"));
    (req, VectorList);
    (req, Action (Some "open-folder") (Some "/tmp") None);
    (req, VectorClear);
    (req, Health) ].

(** Three records to add, none with an id. *)
Definition three_inputs : list (string * option Meta * option vector) :=
  [ ("cats", None, None); ("dogs", None, None); ("rockets", None, None) ].

(** A request to a protected path without a key, and the same request with
    the root key of [dev_env] in the query string. *)
Definition anonymous : Req :=
  {| req_path := "/api/action"; header_x_api_key := None;
     query_api_key := None |}.

Definition keyed : Req :=
  {| req_path := "/api/action"; header_x_api_key := None;
     query_api_key := Some (QueryString "dev-secret") |}.

(** The default configuration with the [chromadb] module installed. *)
Definition chroma_unset_config : Config :=
  {| ENABLE_CHROMA := None;
     Chroma := Some {| is_function := false; has_ChromaClient := true;
                       has_Client := false |};
     CHROMA_CLOUD_API_KEY := None; CHROMA_TENANT := None;
     CHROMA_DATABASE := None; EMBEDDING_MODEL := None |}.





(* ===================================================================== *)
(** * Part II: properties *)
(* ===================================================================== *)

Local Close Scope string_scope.

(** ** Binary64 arithmetic *)

Module NumberFacts.
Import Number.
Local Open Scope Z_scope.

Lemma fexp_eq e : fexp prec emax e = Z.max (e - 53) sf_emin.
Proof. reflexivity. Qed.

Lemma digits2_size m : digits2_pos m = Pos.size m.
Proof. induction m; simpl; congruence. Qed.

Lemma digits2_bounds m :
  2 ^ (Zpos (digits2_pos m) - 1) <= Zpos m < 2 ^ Zpos (digits2_pos m).
Proof.
  rewrite digits2_size. split.
  - pose proof (Pos.size_le m) as H.
    assert (2 ^ Zpos (Pos.size m) <= 2 * Zpos m) as H'.
    { change (2 * Zpos m) with (Zpos m~0). rewrite <- Pos2Z.inj_pow.
      now apply Pos2Z.pos_le_pos. }
    replace (Zpos (Pos.size m)) with (Z.succ (Zpos (Pos.size m) - 1)) in H' by lia.
    rewrite Z.pow_succ_r in H' by lia. lia.
  - pose proof (Pos.size_gt m) as H.
    rewrite <- Pos2Z.inj_pow. now apply Pos2Z.pos_lt_pos.
Qed.

Lemma Zdigits2_nonzero z : 0 < Zdigits2 z -> z <> 0.
Proof. destruct z; simpl; lia. Qed.

(** One right shift drops one binary digit. *)
Lemma shr_1_digits s :
  0 <= shr_m s ->
  0 <= shr_m (shr_1 s) /\
  Zdigits2 (shr_m (shr_1 s)) = Z.max 0 (Zdigits2 (shr_m s) - 1).
Proof.
  destruct s as [m r t]; cbn [shr_m]; intros Hm.
  destruct m as [|[p|p|]|p]; cbn [shr_1 shr_m Zdigits2 digits2_pos];
    rewrite ?Pos2Z.inj_succ; lia.
Qed.

Lemma iter_shr_1_digits p : forall s,
  0 <= shr_m s ->
  0 <= shr_m (SpecFloat.iter_pos shr_1 p s) /\
  Zdigits2 (shr_m (SpecFloat.iter_pos shr_1 p s)) = Z.max 0 (Zdigits2 (shr_m s) - Zpos p).
Proof.
  induction p as [p IH|p IH|]; intros s Hs; simpl.
  - destruct (shr_1_digits s Hs) as [H0 H1].
    destruct (IH _ H0) as [H2 H3]. destruct (IH _ H2) as [H4 H5].
    split; [exact H4|]. rewrite H5, H3, H1. lia.
  - destruct (IH _ Hs) as [H2 H3]. destruct (IH _ H2) as [H4 H5].
    split; [exact H4|]. rewrite H5, H3. lia.
  - apply shr_1_digits; exact Hs.
Qed.

Lemma shr_record_of_loc_m m l : shr_m (shr_record_of_loc m l) = m.
Proof. destruct l as [|[]]; reflexivity. Qed.

(** Shifting a positive significand to its canonical exponent keeps it
    positive, as long as the exponent it starts from is not below [emin]. *)
Lemma shr_fexp_pos m e l :
  0 < m -> sf_emin <= e ->
  0 < shr_m (fst (shr_fexp prec emax m e l)) /\
  sf_emin <= snd (shr_fexp prec emax m e l).
Proof.
  intros Hm He. unfold shr_fexp, shr. rewrite fexp_eq.
  destruct (Z.max (Zdigits2 m + e - 53) sf_emin - e) as [|p|p] eqn:Hn; simpl.
  - rewrite shr_record_of_loc_m. lia.
  - assert (0 <= shr_m (shr_record_of_loc m l)) as H0
      by (rewrite shr_record_of_loc_m; lia).
    destruct (iter_shr_1_digits p _ H0) as [H1 H2].
    rewrite shr_record_of_loc_m in H2.
    split; [|lia].
    assert (0 < Zdigits2 (shr_m (SpecFloat.iter_pos shr_1 p (shr_record_of_loc m l)))) as Hd
      by lia.
    apply Zdigits2_nonzero in Hd. lia.
  - rewrite shr_record_of_loc_m. lia.
Qed.

Lemma round_nearest_even_pos m l : 0 < m -> 0 < round_nearest_even m l.
Proof. destruct l as [|[]]; simpl; try destruct (Z.even m); lia. Qed.

Lemma binary_round_aux_sign sx m e l :
  0 < m -> sf_emin <= e -> has_sign sx (binary_round_aux prec emax sx m e l).
Proof.
  intros Hm He. unfold binary_round_aux.
  pose proof (shr_fexp_pos m e l Hm He) as [H1 H2].
  destruct (shr_fexp prec emax m e l) as [mrs1 e1]; simpl in H1, H2.
  pose proof (round_nearest_even_pos (shr_m mrs1) (loc_of_shr_record mrs1) H1) as H3.
  pose proof (shr_fexp_pos _ e1 loc_Exact H3 H2) as [H4 H5].
  destruct (shr_fexp prec emax _ e1 loc_Exact) as [mrs2 e2]; simpl in H4, H5.
  destruct (shr_m mrs2); try lia.
  destruct (e2 <=? emax - prec); reflexivity.
Qed.

Lemma binary_round_sign sx m e :
  sf_emin <= e -> has_sign sx (binary_round prec emax sx m e).
Proof.
  intros He. unfold binary_round, shl_align. rewrite fexp_eq.
  destruct (Z.max (Zpos (digits2_pos m) + e - 53) sf_emin - e) eqn:Hn;
    apply binary_round_aux_sign; lia.
Qed.

(** A normalised integer compares with zero as the integer does. *)
Lemma binary_normalize_compare M e :
  sf_emin <= e ->
  SFcompare (binary_normalize prec emax M e false) (S754_zero false)
  = Some (M ?= 0).
Proof.
  intros He. destruct M as [|m|m]; simpl; [reflexivity| |].
  - pose proof (binary_round_sign false m e He) as H.
    destruct (binary_round prec emax false m e); simpl in *; subst; easy.
  - pose proof (binary_round_sign true m e He) as H.
    destruct (binary_round prec emax true m e); simpl in *; subst; easy.
Qed.

Lemma shl_align_value m e ez :
  ez <= e -> Zpos (fst (shl_align m e ez)) = Zpos m * 2 ^ (e - ez).
Proof.
  intros Hle. unfold shl_align.
  destruct (ez - e) as [|d|d] eqn:Hd; cbn [fst]; try lia.
  - replace (e - ez) with 0 by lia. lia.
  - change (Pos.iter xO m d) with (shift_pos d m).
    rewrite shift_pos_correct, Z.pow_pos_fold.
    replace (e - ez) with (Zpos d) by lia. lia.
Qed.

Lemma bounded_canonical m e :
  bounded prec emax m e = true ->
  Z.max (Zpos (digits2_pos m) + e - 53) sf_emin = e.
Proof.
  unfold bounded, canonical_mantissa. rewrite fexp_eq.
  intros H. apply andb_prop in H as [H _]. now apply Z.eqb_eq in H.
Qed.

Lemma bounded_emin m e : bounded prec emax m e = true -> sf_emin <= e.
Proof. intros H. apply bounded_canonical in H. lia. Qed.

(** Among canonical significands the one with the larger exponent is the
    larger number. *)
Lemma canonical_exponent_order m1 e1 m2 e2 :
  bounded prec emax m1 e1 = true -> bounded prec emax m2 e2 = true ->
  e1 < e2 -> Zpos m1 < Zpos m2 * 2 ^ (e2 - e1).
Proof.
  intros H1 H2 Hlt.
  apply bounded_canonical in H1, H2.
  pose proof (digits2_bounds m1) as [_ U1].
  pose proof (digits2_bounds m2) as [L2 _].
  unfold sf_emin in *.
  assert (Zpos (digits2_pos m2) = 53) as D2 by lia.
  assert (Zpos (digits2_pos m1) <= 53) as D1 by lia.
  rewrite D2 in L2.
  assert (2 ^ Zpos (digits2_pos m1) <= 2 ^ 53) as P1
    by (apply Z.pow_le_mono_r; lia).
  assert (2 ^ 1 <= 2 ^ (e2 - e1)) as P2 by (apply Z.pow_le_mono_r; lia).
  change (2 ^ (53 - 1)) with 4503599627370496 in L2.
  change (2 ^ 53) with 9007199254740992 in P1.
  change (2 ^ 1) with 2 in P2.
  nia.
Qed.

Lemma finite_compare_aligned s1 m1 e1 s2 m2 e2 :
  bounded prec emax m1 e1 = true -> bounded prec emax m2 e2 = true ->
  SFcompare (S754_finite s1 m1 e1) (S754_finite s2 m2 e2)
  = Some (aligned s1 m1 e1 (Z.min e1 e2) ?= aligned s2 m2 e2 (Z.min e1 e2)).
Proof.
  intros B1 B2. unfold aligned.
  rewrite !shl_align_value by lia.
  assert (0 < 2 ^ (e1 - Z.min e1 e2)) as P1 by (apply Z.pow_pos_nonneg; lia).
  assert (0 < 2 ^ (e2 - Z.min e1 e2)) as P2 by (apply Z.pow_pos_nonneg; lia).
  cbn [SFcompare]. f_equal. symmetry.
  destruct s1, s2; cbn [cond_Zopp].
  - destruct (Z.compare_spec e1 e2) as [E|L|G].
    + subst e2. rewrite Z.min_id, Z.sub_diag, !Z.mul_1_r.
      rewrite Pos.compare_cont_spec.
      rewrite Z.compare_opp. change (Zpos m2 ?= Zpos m1) with (m2 ?= m1)%positive.
      rewrite (Pos.compare_antisym m1 m2).
      destruct (m1 ?= m2)%positive; reflexivity.
    + pose proof (canonical_exponent_order _ _ _ _ B1 B2 L).
      rewrite Z.min_l, Z.sub_diag, Z.mul_1_r by lia. apply Z.compare_gt_iff. lia.
    + pose proof (canonical_exponent_order _ _ _ _ B2 B1 G).
      rewrite Z.min_r, Z.sub_diag, Z.mul_1_r by lia. apply Z.compare_lt_iff. lia.
  - apply Z.compare_lt_iff. lia.
  - apply Z.compare_gt_iff. lia.
  - destruct (Z.compare_spec e1 e2) as [E|L|G].
    + subst e2. rewrite Z.min_id, Z.sub_diag, !Z.mul_1_r.
      rewrite Pos.compare_cont_spec.
      change (Zpos m1 ?= Zpos m2) with (m1 ?= m2)%positive.
      destruct (m1 ?= m2)%positive; reflexivity.
    + pose proof (canonical_exponent_order _ _ _ _ B1 B2 L).
      rewrite Z.min_l, Z.sub_diag, Z.mul_1_r by lia. apply Z.compare_lt_iff. lia.
    + pose proof (canonical_exponent_order _ _ _ _ B2 B1 G).
      rewrite Z.min_r, Z.sub_diag, Z.mul_1_r by lia. apply Z.compare_gt_iff. lia.
Qed.

(** The difference [y - x] is negative exactly when [y] is below [x]:
    subtraction never rounds a non-zero difference to zero. *)
Lemma SFsub_ltb_zero x y :
  valid_binary x = true -> valid_binary y = true ->
  SFltb (SF64sub y x) (S754_zero false) = SFltb y x.
Proof.
  intros Vx Vy. unfold SFltb.
  destruct y as [sy|sy| |sy my ey], x as [sx|sx| |sx mx ex];
    try reflexivity;
    try (destruct sy; reflexivity); try (destruct sx; reflexivity);
    try (destruct sy, sx; reflexivity).
  cbn [SpecFloat.valid_binary] in Vx, Vy.
  unfold SF64sub. cbn [SFsub].
  rewrite binary_normalize_compare
    by (apply bounded_emin in Vx, Vy; lia).
  rewrite (finite_compare_aligned _ _ _ _ _ _ Vy Vx). unfold aligned.
  rewrite <- Z.compare_sub. reflexivity.
Qed.

Lemma SFcompare_antisym x y :
  SFcompare y x = option_map CompOpp (SFcompare x y).
Proof.
  destruct x as [s1|s1| |s1 m1 e1], y as [s2|s2| |s2 m2 e2];
    cbn [SFcompare option_map];
    try reflexivity;
    try (destruct s1; reflexivity); try (destruct s2; reflexivity);
    try (destruct s1, s2; reflexivity).
  f_equal. rewrite (Z.compare_antisym e1 e2), !Pos.compare_cont_spec.
  rewrite (Pos.compare_antisym m1 m2).
  destruct s1, s2, (e1 ?= e2), (m1 ?= m2)%positive; reflexivity.
Qed.

Lemma SFcompare_refl x : x <> S754_nan -> SFcompare x x = Some Eq.
Proof.
  destruct x as [s|s| |s m e]; cbn [SFcompare]; intros H;
    try congruence; try (destruct s; reflexivity).
  rewrite Z.compare_refl, Pos.compare_cont_refl. destruct s; reflexivity.
Qed.

(** Two doubles compare equal when they are the same value or two zeros. *)
Lemma SFcompare_Eq_inv x y :
  SFcompare x y = Some Eq ->
  x = y \/ (exists a b, x = S754_zero a /\ y = S754_zero b).
Proof.
  destruct x as [s1|s1| |s1 m1 e1], y as [s2|s2| |s2 m2 e2]; cbn [SFcompare];
    intros H; try discriminate;
    try (destruct s1; discriminate); try (destruct s2; discriminate).
  - right. eauto.
  - left. destruct s1, s2; try discriminate; reflexivity.
  - left. injection H as H.
    destruct s1, s2; try discriminate;
      destruct (Z.compare_spec e1 e2) as [E|L|G]; try discriminate; subst e2;
      [ apply (f_equal CompOpp) in H; rewrite CompOpp_involutive in H; cbn in H | ];
      rewrite Pos.compare_cont_spec in H;
      (assert ((m1 ?= m2)%positive = Eq) as Hm
         by (destruct (m1 ?= m2)%positive; cbn in H; congruence));
      apply Pos.compare_eq in Hm; now subst.
Qed.

Lemma SFcompare_Eq_trans x y z :
  SFcompare x z = Some Eq -> SFcompare y z = Some Eq -> SFcompare x y = Some Eq.
Proof.
  intros Hx Hy.
  assert (x <> S754_nan) as Nx by (intros ->; discriminate).
  destruct (SFcompare_Eq_inv _ _ Hx) as [->|(a & b & -> & ->)].
  - rewrite SFcompare_antisym, Hy. reflexivity.
  - destruct (SFcompare_Eq_inv _ _ Hy) as [->|(c & d & -> & _)]; reflexivity.
Qed.

Lemma SFmul_comm x y : SF64mul x y = SF64mul y x.
Proof.
  unfold SF64mul.
  destruct x as [s1|s1| |s1 m1 e1], y as [s2|s2| |s2 m2 e2]; cbn [SFmul];
    rewrite ?(xorb_comm s1 s2); try reflexivity.
  now rewrite (Pos.mul_comm m1 m2), (Z.add_comm e1 e2).
Qed.


Lemma huge_pos : 0 < huge.
Proof. unfold huge. apply Z.pow_pos_nonneg; lia. Qed.

(** The scaled significand of a finite double is positive and below
    [huge]. *)
Lemma rank_finite_bounds m e :
  bounded prec emax m e = true -> 0 < Zpos m * 2 ^ (e + 1074) < huge.
Proof.
  intros B. pose proof (bounded_canonical _ _ B) as C.
  unfold bounded in B. apply andb_prop in B as [_ B]. apply Z.leb_le in B.
  change (emax - prec) with 971 in B. unfold sf_emin in C.
  pose proof (digits2_bounds m) as [_ U].
  assert (0 < 2 ^ (e + 1074)) as P by (apply Z.pow_pos_nonneg; lia).
  split; [lia|].
  assert (2 ^ Zpos (digits2_pos m) <= 2 ^ 53) as P1
    by (apply Z.pow_le_mono_r; lia).
  apply Z.lt_le_trans with (2 ^ 53 * 2 ^ (e + 1074)).
  - apply Z.mul_lt_mono_pos_r; lia.
  - rewrite <- Z.pow_add_r by lia. unfold huge. apply Z.pow_le_mono_r; lia.
Qed.

Lemma cond_Zopp_mul s a c : cond_Zopp s (a * c) = cond_Zopp s a * c.
Proof. destruct s; cbn [cond_Zopp]; lia. Qed.

Lemma compare_scale a b c : 0 < c -> (a * c ?= b * c) = (a ?= b).
Proof.
  intros Hc. destruct (Z.compare_spec a b) as [E|L|G].
  - subst. apply Z.compare_refl.
  - apply Z.compare_lt_iff. nia.
  - apply Z.compare_gt_iff. nia.
Qed.

Ltac decide_compare :=
  f_equal; symmetry;
  first [ apply Z.compare_lt_iff; lia
        | apply Z.compare_gt_iff; lia
        | apply Z.compare_eq_iff; lia ].

(** Doubles that are not NaN compare as their ranks do. *)
Lemma SFcompare_rank x y :
  valid_binary x = true -> valid_binary y = true ->
  x <> S754_nan -> y <> S754_nan ->
  SFcompare x y = Some (rank x ?= rank y).
Proof.
  intros Vx Vy Nx Ny. pose proof huge_pos as Hh.
  destruct x as [s1|s1| |s1 m1 e1], y as [s2|s2| |s2 m2 e2];
    try congruence; cbn [SpecFloat.valid_binary] in Vx, Vy;
    try pose proof (rank_finite_bounds _ _ Vx) as B1;
    try pose proof (rank_finite_bounds _ _ Vy) as B2.
  1-8: cbn [SFcompare rank]; try destruct s1; try destruct s2;
       cbn [cond_Zopp]; decide_compare.
  rewrite (finite_compare_aligned _ _ _ _ _ _ Vx Vy). unfold aligned.
  pose proof (bounded_canonical _ _ Vx) as C1.
  pose proof (bounded_canonical _ _ Vy) as C2. unfold sf_emin in *.
  rewrite !shl_align_value by lia. cbn [rank].
  assert (0 < 2 ^ (Z.min e1 e2 + 1074)) as P by (apply Z.pow_pos_nonneg; lia).
  replace (2 ^ (e1 + 1074))
    with (2 ^ (e1 - Z.min e1 e2) * 2 ^ (Z.min e1 e2 + 1074))
    by (rewrite <- Z.pow_add_r by lia; f_equal; lia).
  replace (2 ^ (e2 + 1074))
    with (2 ^ (e2 - Z.min e1 e2) * 2 ^ (Z.min e1 e2 + 1074))
    by (rewrite <- Z.pow_add_r by lia; f_equal; lia).
  rewrite !Z.mul_assoc, !cond_Zopp_mul.
  now rewrite compare_scale.
Qed.

Local Open Scope float_scope.

Lemma Prim2SF_zero : Prim2SF 0 = S754_zero false.
Proof. reflexivity. Qed.

Lemma sub_ltb_zero (x y : float) : (y - x <? 0) = (y <? x).
Proof.
  rewrite !FloatAxioms.ltb_spec, FloatAxioms.sub_spec, Prim2SF_zero.
  apply SFsub_ltb_zero; apply Prim2SF_valid.
Qed.

Lemma is_nan_spec (x : float) : is_nan x = true <-> Prim2SF x = S754_nan.
Proof.
  unfold is_nan. rewrite FloatAxioms.eqb_spec. unfold SFeqb. split.
  - intros H. destruct (Prim2SF x) eqn:E; try reflexivity;
      rewrite SFcompare_refl in H by discriminate; discriminate.
  - intros ->. reflexivity.
Qed.

Lemma ltb_nan_l (x y : float) : is_nan x = true -> (x <? y) = false.
Proof.
  intros H. apply is_nan_spec in H. rewrite FloatAxioms.ltb_spec. unfold SFltb.
  rewrite H. reflexivity.
Qed.

Lemma compare_defined (x y : float) :
  is_nan x = false -> is_nan y = false ->
  exists c, SFcompare (Prim2SF x) (Prim2SF y) = Some c.
Proof.
  intros Hx Hy.
  assert (Prim2SF x <> S754_nan) as Nx
    by (intros E; apply is_nan_spec in E; congruence).
  assert (Prim2SF y <> S754_nan) as Ny
    by (intros E; apply is_nan_spec in E; congruence).
  destruct (Prim2SF x) as [s1|s1| |s1 m1 e1], (Prim2SF y) as [s2|s2| |s2 m2 e2];
    cbn [SFcompare]; try congruence; eauto.
Qed.

Lemma ltb_asym (x y : float) : (x <? y) = true -> (y <? x) = false.
Proof.
  rewrite !FloatAxioms.ltb_spec. unfold SFltb.
  rewrite (SFcompare_antisym (Prim2SF x) (Prim2SF y)).
  destruct (SFcompare (Prim2SF x) (Prim2SF y)) as [[]|]; cbn; congruence.
Qed.

Lemma ltb_false_leb (x y : float) :
  is_nan x = false -> is_nan y = false -> (x <? y) = false -> (y <=? x) = true.
Proof.
  intros Hx Hy. destruct (compare_defined x y Hx Hy) as [c Hc].
  rewrite FloatAxioms.ltb_spec, FloatAxioms.leb_spec. unfold SFltb, SFleb.
  rewrite (SFcompare_antisym (Prim2SF x) (Prim2SF y)), Hc.
  destruct c; cbn; congruence.
Qed.

Lemma eqb_ltb_false (x y s : float) :
  (x =? s) = true -> (y =? s) = true -> (x <? y) = false.
Proof.
  rewrite !FloatAxioms.eqb_spec, FloatAxioms.ltb_spec. unfold SFeqb, SFltb. intros Hx Hy.
  rewrite (SFcompare_Eq_trans (Prim2SF x) (Prim2SF y) (Prim2SF s)); [reflexivity| |].
  - destruct (SFcompare (Prim2SF x) (Prim2SF s)) as [[]|]; congruence.
  - destruct (SFcompare (Prim2SF y) (Prim2SF s)) as [[]|]; congruence.
Qed.

Lemma mul_comm (x y : float) : x * y = y * x.
Proof. apply Prim2SF_inj. rewrite !FloatAxioms.mul_spec. apply SFmul_comm. Qed.


Lemma compare_rank (x y : float) :
  is_nan x = false -> is_nan y = false ->
  SFcompare (Prim2SF x) (Prim2SF y) = Some (rank_of x ?= rank_of y)%Z.
Proof.
  intros Hx Hy. apply SFcompare_rank; try apply Prim2SF_valid.
  - intros E. apply is_nan_spec in E. congruence.
  - intros E. apply is_nan_spec in E. congruence.
Qed.

Lemma leb_rank (x y : float) :
  is_nan x = false -> is_nan y = false ->
  (x <=? y) = (rank_of x <=? rank_of y)%Z.
Proof.
  intros Hx Hy. rewrite FloatAxioms.leb_spec. unfold SFleb, Z.leb.
  rewrite (compare_rank x y Hx Hy).
  destruct (rank_of x ?= rank_of y)%Z; reflexivity.
Qed.

Lemma eqb_rank (x y : float) :
  is_nan x = false -> is_nan y = false ->
  (x =? y) = (rank_of x =? rank_of y)%Z.
Proof.
  intros Hx Hy. rewrite FloatAxioms.eqb_spec. unfold SFeqb.
  rewrite (compare_rank x y Hx Hy).
  destruct (Z.compare_spec (rank_of x) (rank_of y)) as [E|L|G]; symmetry.
  - now apply Z.eqb_eq.
  - apply Z.eqb_neq. lia.
  - apply Z.eqb_neq. lia.
Qed.

(** A comparison that holds has no NaN on either side. *)
Lemma leb_not_nan (x y : float) :
  (x <=? y) = true -> is_nan x = false /\ is_nan y = false.
Proof.
  rewrite FloatAxioms.leb_spec. unfold SFleb. intros H.
  split; apply not_true_is_false; intros E; apply is_nan_spec in E;
    rewrite E in H; [|destruct (Prim2SF x)]; discriminate.
Qed.

Lemma eqb_not_nan (x y : float) :
  (x =? y) = true -> is_nan x = false /\ is_nan y = false.
Proof.
  rewrite FloatAxioms.eqb_spec. unfold SFeqb. intros H.
  split; apply not_true_is_false; intros E; apply is_nan_spec in E;
    rewrite E in H; [|destruct (Prim2SF x)]; discriminate.
Qed.

Lemma leb_trans (x y z : float) :
  (x <=? y) = true -> (y <=? z) = true -> (x <=? z) = true.
Proof.
  intros Hxy Hyz.
  destruct (leb_not_nan _ _ Hxy) as [Nx Ny].
  destruct (leb_not_nan _ _ Hyz) as [_ Nz].
  rewrite leb_rank in * by assumption.
  apply Z.leb_le in Hxy, Hyz. apply Z.leb_le. lia.
Qed.

Lemma leb_antisym (x y : float) :
  (x <=? y) = true -> (y <=? x) = true -> (x =? y) = true.
Proof.
  intros Hxy Hyx. destruct (leb_not_nan _ _ Hxy) as [Nx Ny].
  rewrite leb_rank in * by assumption. rewrite eqb_rank by assumption.
  apply Z.leb_le in Hxy, Hyx. apply Z.eqb_eq. lia.
Qed.

Lemma eqb_refl (x : float) : is_nan x = false -> (x =? x) = true.
Proof. intros H. rewrite eqb_rank by assumption. apply Z.eqb_refl. Qed.

Lemma eqb_sym (x y : float) : (x =? y) = true -> (y =? x) = true.
Proof.
  intros H. destruct (eqb_not_nan _ _ H) as [Nx Ny].
  rewrite eqb_rank in * by assumption. apply Z.eqb_eq in H. apply Z.eqb_eq. lia.
Qed.

(** Zero times anything is a zero or NaN. *)
Lemma zero_mul (y : float) : zero_or_nan (0 * y).
Proof.
  unfold zero_or_nan. rewrite FloatAxioms.mul_spec, Prim2SF_zero.
  destruct (Prim2SF y); exact I.
Qed.

Lemma zero_or_nan_add (x y : float) :
  zero_or_nan x -> zero_or_nan y -> zero_or_nan (x + y).
Proof.
  unfold zero_or_nan. rewrite FloatAxioms.add_spec.
  destruct (Prim2SF x) as [[]| | |], (Prim2SF y) as [[]| | |]; easy.
Qed.

(** Zero or NaN, divided by zero or NaN, is NaN. *)
Lemma zero_or_nan_div (x y : float) :
  zero_or_nan x -> zero_or_nan y -> is_nan (x / y) = true.
Proof.
  unfold zero_or_nan. intros Hx Hy. apply is_nan_spec.
  rewrite FloatAxioms.div_spec.
  destruct (Prim2SF x), (Prim2SF y); easy.
Qed.

End NumberFacts.

(** ** The similarity scorer *)

Section Scorer.
Local Open Scope float_scope.

(** Exchanging the two vectors exchanges the two norms and keeps the dot
    product. *)
Lemma cosine_loop_swap (a : vector) : forall (b : vector) (dot na nb : float),
  cosine_loop b a (dot, nb, na)
  = (let '(dot', na', nb') := cosine_loop a b (dot, na, nb) in (dot', nb', na')).
Proof.
  induction a as [|x a IH]; intros [|y b] dot na nb; cbn [cosine_loop];
    try reflexivity.
  rewrite (NumberFacts.mul_comm y x). apply IH.
Qed.


Lemma cosine_comm (a b : option vector) : cosine a b = cosine b a.
Proof.
  destruct a as [a|], b as [b|]; cbn [cosine]; try reflexivity.
  rewrite (Nat.eqb_sym (length b) (length a)).
  destruct (negb (length a =? length b)%nat); [reflexivity|].
  rewrite (cosine_loop_swap a b 0 0 0).
  destruct (cosine_loop a b (0, 0, 0)) as [[dot na] nb].
  now rewrite (NumberFacts.mul_comm (sqrt nb) (sqrt na)).
Qed.


(** Against the zero vector the loop leaves [na] at zero and [dot] at a
    zero or NaN. *)
Lemma cosine_loop_zero (b : vector) : forall dot nb : float,
  Number.zero_or_nan dot ->
  exists dot' nb',
    cosine_loop (repeat 0 (length b)) b (dot, 0, nb) = (dot', 0, nb')
    /\ Number.zero_or_nan dot'.
Proof.
  induction b as [|y b IH]; intros dot nb Hdot; cbn [length repeat cosine_loop].
  - eauto.
  - change (0 + 0 * 0) with 0.
    apply IH. apply NumberFacts.zero_or_nan_add; [exact Hdot|].
    apply NumberFacts.zero_mul.
Qed.

(** C3, as the code behaves: for every vector [b], scoring the zero vector
    of the same length against [b], in either order, divides a zero by a
    zero and returns NaN; no sentinel replaces it.  So does
    [cosine([0, 0], [1, 0])], which is not [-1]. *)
Theorem cosine_zero_norm_is_nan (b : vector) :
  is_nan (cosine (Some (repeat 0 (length b))) (Some b)) = true
  /\ is_nan (cosine (Some b) (Some (repeat 0 (length b)))) = true
  /\ is_nan (cosine (Some [0; 0]) (Some [1; 0])) = true
  /\ (cosine (Some [0; 0]) (Some [1; 0]) =? -1) = false.
Proof.
  assert (is_nan (cosine (Some (repeat 0 (length b))) (Some b)) = true) as H.
  { cbn [cosine]. rewrite repeat_length, Nat.eqb_refl. cbn [negb].
    destruct (cosine_loop_zero b 0 0) as (dot & nb & -> & Hdot); [exact I|].
    apply NumberFacts.zero_or_nan_div; [exact Hdot|].
    change (sqrt 0) with 0. apply NumberFacts.zero_mul. }
  split; [exact H|]. split; [now rewrite cosine_comm|].
  split; reflexivity.
Qed.

(** C4, as the code behaves: when either argument is absent, or the two
    lengths differ, [cosine] returns the sentinel [-1]; being a total
    function, it never throws. *)
Theorem cosine_sentinel (a b : option vector) :
  (a = None \/ b = None \/
   exists x y, a = Some x /\ b = Some y /\ length x <> length y) ->
  cosine a b = -1.
Proof.
  intros [->|[->|(x & y & -> & -> & Hlen)]].
  - reflexivity.
  - destruct a; reflexivity.
  - cbn [cosine]. apply Nat.eqb_neq in Hlen. now rewrite Hlen.
Qed.

Lemma cosine_sentinel_witness :
  cosine (Some [1; 0]) (Some [1; 0; 0]) = -1
  /\ cosine None (Some [1; 0]) = -1.
Proof.
  split.
  - apply (cosine_sentinel (Some [1; 0]) (Some [1; 0; 0])).
    right; right. exists [1; 0], [1; 0; 0].
    split; [reflexivity|]. split; [reflexivity|]. cbn. lia.
  - apply (cosine_sentinel None (Some [1; 0])). left. reflexivity.
Defined.

(** C4 as stated fails in its gloss on the sentinel: [-1] is the lowest
    exact cosine, not a value below every valid score.  Opposite vectors
    reach it, and rounding can go past it. *)
Lemma sentinel_is_reachable :
  cosine (Some [1]) (Some [-1]) = -1
  /\ (cosine (Some [1; 1; 1]) (Some [-1; -1; -1]) <? -1) = true.
Proof. split; reflexivity. Qed.





End Scorer.

(** ** The sort *)

Section SortFacts.
Context {A : Type}.
Variable comparefn : A -> A -> float.

Local Abbreviation before := (goes_before comparefn).

Lemma sift_perm (x : A) (acc : list A) : Permutation (sift comparefn x acc) (x :: acc).
Proof.
  induction acc as [|z rest IH]; cbn [sift]; [reflexivity|].
  destruct (before x z); [|reflexivity].
  rewrite IH. apply perm_swap.
Qed.

Lemma fold_sift_perm (l : list A) : forall acc,
  Permutation (fold_left (fun acc x => sift comparefn x acc) l acc) (l ++ acc).
Proof.
  induction l as [|x l IH]; intros acc; cbn [fold_left app]; [reflexivity|].
  rewrite IH, sift_perm. symmetry. apply Permutation_middle.
Qed.

(** The sorted array holds the same elements. *)
Lemma js_sort_perm (l : list A) : Permutation (js_sort comparefn l) l.
Proof.
  unfold js_sort. rewrite <- Permutation_rev, fold_sift_perm.
  now rewrite app_nil_r.
Qed.

Lemma js_sort_length (l : list A) : length (js_sort comparefn l) = length l.
Proof. apply Permutation_length, js_sort_perm. Qed.

Section Stable.
Variable P : A -> bool.
Hypothesis tied : forall x z, P x = true -> P z = true -> before x z = false.

Lemma sift_filter (x : A) (acc : list A) :
  List.filter P (sift comparefn x acc) = List.filter P (x :: acc).
Proof.
  induction acc as [|z rest IH]; cbn [sift]; [reflexivity|].
  destruct (before x z) eqn:Hb; [|reflexivity].
  cbn [List.filter] in *. rewrite IH.
  destruct (P x) eqn:Px, (P z) eqn:Pz; try reflexivity.
  rewrite (tied x z Px Pz) in Hb. discriminate.
Qed.

Lemma fold_sift_filter (l : list A) : forall acc,
  List.filter P (fold_left (fun acc x => sift comparefn x acc) l acc)
  = List.filter P (rev l ++ acc).
Proof.
  induction l as [|x l IH]; intros acc; cbn [fold_left rev]; [reflexivity|].
  rewrite IH, !List.filter_app, sift_filter, <- app_assoc.
  cbn [List.filter app]. destruct (P x); reflexivity.
Qed.

(** Elements that the comparator does not order keep their relative
    positions. *)
Lemma js_sort_stable (l : list A) :
  List.filter P (js_sort comparefn l) = List.filter P l.
Proof.
  unfold js_sort.
  rewrite List.filter_rev, fold_sift_filter, app_nil_r, <- List.filter_rev.
  now rewrite rev_involutive.
Qed.

End Stable.

Section Ordered.
Hypothesis asym : forall x z, before x z = true -> before z x = false.

Lemma sift_head (x : A) (acc : list A) :
  exists h t, sift comparefn x acc = h :: t /\ (h = x \/ exists t', acc = h :: t').
Proof.
  destruct acc as [|z rest]; cbn [sift].
  - exists x, []. auto.
  - destruct (before x z).
    + exists z, (sift comparefn x rest). eauto.
    + exists x, (z :: rest). auto.
Qed.

Lemma sift_sorted (x : A) (acc : list A) :
  Sorted (settled comparefn) acc -> Sorted (settled comparefn) (sift comparefn x acc).
Proof.
  induction acc as [|z rest IH]; intros Hs; cbn [sift].
  - repeat constructor.
  - apply Sorted_inv in Hs as [Hrest Hhd].
    destruct (before x z) eqn:Hb.
    + constructor; [now apply IH|].
      destruct (sift_head x rest) as (h & t & -> & [->|[t' ->]]).
      * constructor. now apply asym.
      * constructor. now apply HdRel_inv in Hhd.
    + constructor; [now constructor|]. constructor. exact Hb.
Qed.

Lemma fold_sift_sorted (l : list A) : forall acc,
  Sorted (settled comparefn) acc ->
  Sorted (settled comparefn) (fold_left (fun acc x => sift comparefn x acc) l acc).
Proof.
  induction l as [|x l IH]; intros acc Hs; cbn [fold_left]; [exact Hs|].
  apply IH, sift_sorted, Hs.
Qed.

Lemma Sorted_rev_app (acc : list A) : forall tail,
  Sorted (settled comparefn) acc ->
  Sorted (fun a b => (settled comparefn) b a) tail ->
  (forall a rest, acc = a :: rest -> HdRel (fun a b => (settled comparefn) b a) a tail) ->
  Sorted (fun a b => (settled comparefn) b a) (rev acc ++ tail).
Proof.
  induction acc as [|z rest IH]; intros tail Hacc Htail Hlink; cbn [rev app].
  - exact Htail.
  - rewrite <- app_assoc. cbn [app].
    apply Sorted_inv in Hacc as [Hrest Hhd].
    apply IH; [exact Hrest| |].
    + constructor; [exact Htail|]. now apply (Hlink z rest).
    + intros a rest' ->. constructor. now apply HdRel_inv in Hhd.
Qed.

(** In the sorted array no element has to precede its predecessor. *)
Lemma js_sort_sorted (l : list A) :
  Sorted (fun a b => before b a = false) (js_sort comparefn l).
Proof.
  unfold js_sort.
  rewrite <- (app_nil_r (rev _)).
  apply (Sorted_rev_app _ []).
  - apply fold_sift_sorted. constructor.
  - constructor.
  - intros; constructor.
Qed.

End Ordered.

Lemma Sorted_weaken (R1 R2 : A -> A -> Prop) (l : list A) :
  (forall a b, In a l -> In b l -> R1 a b -> R2 a b) ->
  Sorted R1 l -> Sorted R2 l.
Proof.
  induction l as [|a l IH]; intros Himp Hs; [constructor|].
  apply Sorted_inv in Hs as [Hl Hhd].
  constructor.
  - apply IH; [|exact Hl]. intros x y Hx Hy. apply Himp; now right.
  - destruct l as [|b l']; constructor.
    apply HdRel_inv in Hhd. apply Himp; cbn; auto.
Qed.

Lemma Sorted_firstn (R0 : A -> A -> Prop) (n : nat) : forall l : list A,
  Sorted R0 l -> Sorted R0 (firstn n l).
Proof.
  induction n as [|n IH]; intros [|a l] Hs; cbn [firstn]; try constructor.
  - apply IH. now apply Sorted_inv in Hs.
  - apply Sorted_inv in Hs as [_ Hhd].
    destruct l as [|b l'], n; cbn [firstn]; constructor.
    now apply HdRel_inv in Hhd.
Qed.

End SortFacts.

(** *** The comparator of [queryVectors] *)

Section Ranking.
Local Open Scope float_scope.

(** [x] goes before [z] exactly when the score of [z] is below that of
    [x]. *)
Lemma goes_before_score (x z : Item) :
  goes_before by_score_desc x z = (score_num z <? score_num x).
Proof.
  unfold goes_before, sort_compare, by_score_desc.
  destruct (is_nan (score_num z - score_num x)) eqn:Hnan.
  - rewrite <- (NumberFacts.sub_ltb_zero (score_num x) (score_num z)).
    now rewrite (NumberFacts.ltb_nan_l _ 0 Hnan).
  - apply NumberFacts.sub_ltb_zero.
Qed.

Lemma goes_before_asym (x z : Item) :
  goes_before by_score_desc x z = true -> goes_before by_score_desc z x = false.
Proof. rewrite !goes_before_score. apply NumberFacts.ltb_asym. Qed.

(** Records whose scores equal the same number are not ordered by the
    comparator. *)
Lemma goes_before_tied (s : float) (x z : Item) :
  (score_num x =? s) = true -> (score_num z =? s) = true ->
  goes_before by_score_desc x z = false.
Proof.
  intros Hx Hz. rewrite goes_before_score.
  now apply (NumberFacts.eqb_ltb_false _ _ s).
Qed.

Lemma desc_trans (a b c : Item) : desc a b -> desc b c -> desc a c.
Proof. unfold desc. intros Hab Hbc. now apply (NumberFacts.leb_trans _ (score_num b)). Qed.

(** In a ranking every record stands before all those that follow it. *)
Lemma ranking_strongly_sorted (l : list Item) :
  Sorted desc l -> StronglySorted desc l.
Proof.
  apply Sorted_StronglySorted. intros a b c. apply desc_trans.
Qed.

(** The head of a ranking scores at least as much as any other record. *)
Lemma ranking_head_max (x : Item) (l : list Item) (y : Item) :
  Sorted desc (x :: l) -> In y l -> desc x y.
Proof.
  intros Hs Hy. apply ranking_strongly_sorted in Hs.
  apply StronglySorted_inv in Hs as [_ Hall].
  rewrite List.Forall_forall in Hall. now apply Hall.
Qed.

(** Two stable rankings of the same records are the same array: the order
    a conforming sort gives is determined. *)
Lemma stable_ranking_unique (l1 : list Item) : forall l2 : list Item,
  Permutation l1 l2 ->
  Sorted desc l1 -> Sorted desc l2 ->
  (forall s, List.filter (scores s) l1 = List.filter (scores s) l2) ->
  l1 = l2.
Proof.
  induction l1 as [|x l1 IH]; intros l2 Hperm S1 S2 Hst.
  - now apply Permutation_nil in Hperm.
  - destruct l2 as [|y l2].
    { symmetry in Hperm. now apply Permutation_nil in Hperm. }
    assert (x = y) as ->.
    { destruct l1 as [|x' l1].
      - apply Permutation_length in Hperm as Hlen. destruct l2; [|discriminate].
        now apply Permutation_length_1 in Hperm.
      - assert (In y (x :: x' :: l1)) as Hy
          by (eapply Permutation_in; [symmetry; exact Hperm|now left]).
        assert (In x (y :: l2)) as Hx
          by (eapply Permutation_in; [exact Hperm|now left]).
        destruct Hy as [Hy|Hy]; [exact Hy|].
        destruct Hx as [Hx|Hx]; [now symmetry|].
        pose proof (ranking_head_max _ _ _ S1 Hy) as Dxy.
        pose proof (ranking_head_max _ _ _ S2 Hx) as Dyx.
        unfold desc in Dxy, Dyx.
        destruct (NumberFacts.leb_not_nan _ _ Dxy) as [Ny Nx].
        pose proof (NumberFacts.leb_antisym _ _ Dxy Dyx) as Eyx.
        pose proof (NumberFacts.eqb_refl _ Nx) as Exx.
        specialize (Hst (score_num x)). cbn [List.filter] in Hst.
        unfold scores in Hst. rewrite Exx, Eyx in Hst.
        now injection Hst. }
    f_equal. apply IH.
    + now apply Permutation_cons_inv in Hperm.
    + now apply Sorted_inv in S1.
    + now apply Sorted_inv in S2.
    + intros s. specialize (Hst s). cbn [List.filter] in Hst.
      destruct (scores s y); [now injection Hst|exact Hst].
Qed.

(** A ranking in descending order holds no NaN, unless it is a single
    record. *)
Lemma ranking_no_nan (l : list Item) :
  Sorted desc l -> (2 <= length l)%nat ->
  Forall (fun x => is_nan (score_num x) = false) l.
Proof.
  induction l as [|a [|b l] IH]; intros Hs Hlen; cbn [length] in Hlen; try lia.
  apply Sorted_inv in Hs as [Hs Hhd]. apply HdRel_inv in Hhd.
  destruct (NumberFacts.leb_not_nan _ _ Hhd) as [Nb Na].
  constructor; [exact Na|].
  destruct l as [|c l].
  - constructor; [exact Nb|constructor].
  - apply IH; [exact Hs|cbn; lia].
Qed.

(** The ranking of an array of scored records: a rearrangement of it, records
    of equal score in their original order; when no score is NaN it is in
    descending order of score, and it is the only such arrangement. *)
Lemma ranking_correct (scored : list Item) :
  Permutation (js_sort by_score_desc scored) scored
  /\ (forall s : float,
        List.filter (scores s) (js_sort by_score_desc scored)
        = List.filter (scores s) scored)
  /\ (Forall (fun x => is_nan (score_num x) = false) scored ->
      StronglySorted desc (js_sort by_score_desc scored)
      /\ forall other : list Item,
           Permutation other scored -> Sorted desc other ->
           (forall s, List.filter (scores s) other = List.filter (scores s) scored) ->
           other = js_sort by_score_desc scored).
Proof.
  assert (forall s : float,
            List.filter (scores s) (js_sort by_score_desc scored)
            = List.filter (scores s) scored) as Hstable.
  { intros s. apply js_sort_stable. intros x z. apply goes_before_tied. }
  split; [apply js_sort_perm|]. split; [exact Hstable|].
  intros Hnan.
  assert (Sorted desc (js_sort by_score_desc scored)) as Hsorted.
  { assert (Forall (fun x => is_nan (score_num x) = false)
              (js_sort by_score_desc scored)) as Hnan'.
    { rewrite List.Forall_forall in *. intros x Hx. apply Hnan.
      eapply Permutation_in; [apply js_sort_perm|exact Hx]. }
    rewrite List.Forall_forall in Hnan'.
    eapply Sorted_weaken; [|apply js_sort_sorted, goes_before_asym].
    intros a b Ha Hb Hab. cbn beta in Hab. rewrite goes_before_score in Hab.
    apply NumberFacts.ltb_false_leb; auto. }
  split; [now apply ranking_strongly_sorted|].
  intros other Hperm Hs Hst. apply stable_ranking_unique.
  - rewrite Hperm. symmetry. apply js_sort_perm.
  - exact Hs.
  - exact Hsorted.
  - intros s. now rewrite Hst, Hstable.
Qed.

End Ranking.

(** ** The facade *)

Section FacadeFacts.
Context {W : Type}.
Variable R : Remote W.
Variable cfg : Config.

Ltac unfold_monad :=
  unfold log, alloc, read, write in *;
  unfold bind, ret, throw, gets, modify, try_catch, remote in *.

(** *** The heap *)

Lemma array_at_fresh (st : State W) (h : list (list Item)) (a : list Item)
    (ext : list (list Item)) :
  array_at (set_arrays (h ++ a :: ext) st) (length h) = a.
Proof.
  unfold array_at. cbn [arrays set_arrays].
  now rewrite list_lookup_middle.
Qed.

(** *** The fallback query, step by step *)

Lemma insert_fresh (h : list (list Item)) (a b : list Item) :
  <[length h := b]> (h ++ [a]) = h ++ [b].
Proof.
  rewrite insert_app_r_alt by lia. now rewrite Nat.sub_diag.
Qed.

(** The in-memory query allocates two arrays, the sorted copies and the
    slice it returns, and touches nothing else. *)
Lemma memory_query_runs (e : vector) (k : Z) (st : State W) :
  memory_query e k st
  = (Ok (S (length (arrays st))),
     set_arrays
       (arrays st ++ [ranked_copies e st; slice0 (ranked_copies e st) k]) st).
Proof.
  unfold memory_query, array_map, array_sort, array_slice. unfold_monad.
  cbn -[js_sort cosine slice0 array_at].
  rewrite !(array_at_fresh _ (arrays st) _ []).
  rewrite insert_fresh.
  rewrite !(array_at_fresh _ (arrays st) _ []).
  rewrite length_app, Nat.add_1_r, <- app_assoc.
  reflexivity.
Qed.

(** With no remote collection, [queryVectors] is the in-memory query. *)
Lemma queryVectors_fallback (e : vector) (k : option Z) (st : State W) :
  chromaCollection st = None ->
  queryVectors R (Some e) k st
  = memory_query e (match k with Some k' => k' | None => 3%Z end) st.
Proof.
  intros Hc. unfold queryVectors. unfold_monad. rewrite Hc. reflexivity.
Qed.

Lemma slice0_nonneg {A : Type} (l : list A) (k : Z) :
  (0 <= k)%Z -> slice0 l k = firstn (Z.to_nat k) l.
Proof.
  intros Hk. unfold slice0, slice_end.
  destruct (Z.ltb_spec k 0); [lia|].
  destruct (Z.le_ge_cases k (Z.of_nat (length l))).
  - now rewrite Z.min_l.
  - rewrite Z.min_r, Nat2Z.id by lia.
    rewrite firstn_all. symmetry. apply firstn_all2. lia.
Qed.

Lemma slice0_negative {A : Type} (l : list A) (k : Z) :
  (k < 0)%Z -> slice0 l k = firstn (length l - Z.to_nat (- k)) l.
Proof.
  intros Hk. unfold slice0, slice_end.
  destruct (Z.ltb_spec k 0); [|lia]. f_equal. lia.
Qed.

(** C2, as the code behaves: with the fallback backend and a store none of
    whose records scores NaN against the query, [queryVectors] scores every
    stored record with [cosine], ranks the scored copies in descending order
    of score, records of equal score in insertion order, and returns
    [slice(0, k)] of the ranking: for [k >= 0] the first [k] records (all
    when there are fewer), for [k < 0] all but the last [-k].  The ranking
    is the only arrangement that is descending and stable. *)
Theorem fallback_query_ranks (e : vector) (k : option Z) (st : State W) :
  let k' := match k with Some v => v | None => 3%Z end in
  let scored :=
    map (fun v => with_score v (cosine (Some e) (embedding v)))
      (array_at st (vectors st)) in
  chromaCollection st = None ->
  Forall (fun v => is_nan (cosine (Some e) (embedding v)) = false)
    (array_at st (vectors st)) ->
  exists out st' ranked,
    queryVectors R (Some e) k st = (Ok out, st')
    /\ Permutation ranked scored
    /\ StronglySorted desc ranked
    /\ (forall s : float,
          List.filter (scores s) ranked = List.filter (scores s) scored)
    /\ (forall other : list Item,
          Permutation other scored -> Sorted desc other ->
          (forall s, List.filter (scores s) other = List.filter (scores s) scored) ->
          other = ranked)
    /\ ((0 <= k')%Z ->
        array_at st' out = firstn (Z.to_nat k') ranked
        /\ (Z.of_nat (length (array_at st' out)) <= k')%Z)
    /\ ((k' < 0)%Z ->
        array_at st' out = firstn (length ranked - Z.to_nat (- k')) ranked).
Proof.
  intros k' scored Hc Hnan.
  destruct (ranking_correct scored) as (Hperm & Hstable & Hsorted).
  destruct Hsorted as [Hdesc Hunique].
  { unfold scored. rewrite List.Forall_map.
    eapply List.Forall_impl; [|exact Hnan]. intros v Hv. exact Hv. }
  exists (S (length (arrays st))),
    (set_arrays
       (arrays st ++ [ranked_copies e st; slice0 (ranked_copies e st) k']) st),
    (js_sort by_score_desc scored).
  assert (array_at
            (set_arrays
               (arrays st ++ [ranked_copies e st; slice0 (ranked_copies e st) k'])
               st) (S (length (arrays st)))
          = slice0 (js_sort by_score_desc scored) k') as Hout.
  { replace (arrays st ++ [ranked_copies e st; slice0 (ranked_copies e st) k'])
      with ((arrays st ++ [ranked_copies e st])
              ++ slice0 (ranked_copies e st) k' :: [])
      by now rewrite <- app_assoc.
    replace (S (length (arrays st)))
      with (length (arrays st ++ [ranked_copies e st]))
      by (rewrite length_app; cbn; lia).
    now rewrite array_at_fresh. }
  split; [rewrite (queryVectors_fallback e k st Hc); apply memory_query_runs|].
  split; [exact Hperm|].
  split; [exact Hdesc|].
  split; [exact Hstable|].
  split; [exact Hunique|].
  rewrite Hout. split.
  - intros Hk. rewrite slice0_nonneg by exact Hk.
    split; [reflexivity|]. rewrite length_firstn. lia.
  - intros Hk. now apply slice0_negative.
Qed.

(** C9: for every [k], [queryVectors] called without an embedding returns
    a new empty array at once: nothing is sent to a remote service, the
    store is not read, and the only change of state is the allocation of the
    array returned.  When [k] is not given it is [3]. *)
Theorem queryVectors_absent_embedding (k : option Z) (e : option vector)
    (st : State W) :
  (exists out,
     queryVectors R None k st = (Ok out, set_arrays (arrays st ++ [[]]) st)
     /\ array_at (set_arrays (arrays st ++ [[]]) st) out = []
     /\ calls (set_arrays (arrays st ++ [[]]) st) = calls st
     /\ world (set_arrays (arrays st ++ [[]]) st) = world st
     /\ vectors (set_arrays (arrays st ++ [[]]) st) = vectors st)
  /\ queryVectors R e None st = queryVectors R e (Some 3%Z) st.
Proof.
  split; [|reflexivity].
  exists (length (arrays st)).
  split; [reflexivity|].
  split; [apply (array_at_fresh st (arrays st) [] [])|].
  repeat split.
Qed.

(** *** Effects on the heap *)

Lemma extends_refl (st : State W) : extends st st.
Proof. split; [reflexivity|]. exists []. now rewrite app_nil_r. Qed.

Lemma extends_trans (s1 s2 s3 : State W) :
  extends s1 s2 -> extends s2 s3 -> extends s1 s3.
Proof.
  intros [V1 [x1 E1]] [V2 [x2 E2]]. split; [congruence|].
  exists (x1 ++ x2). now rewrite E2, E1, app_assoc.
Qed.

Lemma extends_array_at (st st' : State W) (r : nat) :
  extends st st' -> r < length (arrays st) -> array_at st' r = array_at st r.
Proof.
  intros [_ [ext E]] Hr. unfold array_at. rewrite E.
  now rewrite lookup_app_l.
Qed.

Lemma extends_set_world (st : State W) (w : W) (c : call) :
  extends st (set_world w c st).
Proof. split; [reflexivity|]. exists []. cbn. now rewrite app_nil_r. Qed.

Lemma extends_add_log (st : State W) (l : log_entry) :
  extends st (add_log l st).
Proof. split; [reflexivity|]. exists []. cbn. now rewrite app_nil_r. Qed.

Lemma extends_alloc (st : State W) (ext : list (list Item)) :
  extends st (set_arrays (arrays st ++ ext) st).
Proof. split; [reflexivity|]. now exists ext. Qed.

Lemma preserves_ret {A : Type} (a : A) : preserves (ret (W:=W) a).
Proof. intros st. apply extends_refl. Qed.

Lemma preserves_throw {A : Type} (e : js_error) :
  preserves (throw (W:=W) (A:=A) e).
Proof. intros st. apply extends_refl. Qed.

Lemma preserves_gets {A : Type} (f : State W -> A) : preserves (gets f).
Proof. intros st. apply extends_refl. Qed.

Lemma preserves_log (l : log_entry) : preserves (log (W:=W) l).
Proof. intros st. apply extends_add_log. Qed.

Lemma preserves_remote {A : Type} (c : call) (f : W -> result A * W) :
  preserves (remote c f).
Proof.
  intros st. unfold remote. destruct (f (world st)) as [r w].
  apply extends_set_world.
Qed.

Lemma preserves_set_collection (c : option Collection) :
  preserves (modify (W:=W) (set_chromaCollection c)).
Proof. intros st. split; [reflexivity|]. exists []. cbn. now rewrite app_nil_r. Qed.

Lemma preserves_bind {A B : Type} (m : M W A) (k : A -> M W B) :
  preserves m -> (forall a, preserves (k a)) -> preserves (bind m k).
Proof.
  intros Hm Hk st. unfold bind. specialize (Hm st).
  destruct (m st) as [[a|e] s1]; cbn [snd] in *; [|exact Hm].
  eapply extends_trans; [exact Hm|apply Hk].
Qed.

Lemma preserves_try_catch {A : Type} (m : M W A) (h : js_error -> M W A) :
  preserves m -> (forall e, preserves (h e)) -> preserves (try_catch m h).
Proof.
  intros Hm Hh st. unfold try_catch. specialize (Hm st).
  destruct (m st) as [[a|e] s1]; cbn [snd] in *; [exact Hm|].
  eapply extends_trans; [exact Hm|apply Hh].
Qed.

Lemma preserves_alloc (a : list Item) : preserves (alloc (W:=W) a).
Proof. intros st. apply extends_alloc. Qed.

Lemma memory_query_preserves (e : vector) (k : Z) :
  preserves (memory_query (W:=W) e k).
Proof. intros st. rewrite memory_query_runs. apply extends_alloc. Qed.

Ltac frame :=
  repeat first
    [ apply preserves_ret | apply preserves_throw | apply preserves_gets
    | apply preserves_log | apply preserves_remote | apply preserves_alloc
    | apply preserves_set_collection | apply memory_query_preserves
    | apply preserves_bind; [|intro; cbv beta]
    | apply preserves_try_catch; [|intro; cbv beta]
    | match goal with
      | |- preserves (if ?b then _ else _) => destruct b
      | |- preserves (match ?x with _ => _ end) => destruct x
      end ].

(** On every path [queryVectors] allocates, calls and logs at most. *)
Lemma queryVectors_extends (emb : option vector) (k : option Z) (st : State W) :
  extends st (snd (queryVectors R emb k st)).
Proof.
  revert st. change (preserves (queryVectors R emb k)).
  unfold queryVectors, chroma_query, answer_hits.
  frame.
Qed.

(** C10: [queryVectors] leaves the store as it found it, on the fallback
    path as on the remote one: [vectorStore.vectors] is the same array
    object, it holds the same records in the same order with the same
    fields (none gained a score), and every array that existed keeps its
    content.  The sorted copies and the slice are new objects. *)
Theorem queryVectors_preserves_store (emb : option vector) (k : option Z)
    (st : State W) :
  wf st ->
  let st' := snd (queryVectors R emb k st) in
  vectors st' = vectors st
  /\ array_at st' (vectors st') = array_at st (vectors st)
  /\ (forall r, r < length (arrays st) -> array_at st' r = array_at st r)
  /\ wf st'.
Proof.
  intros Hwf st'.
  pose proof (queryVectors_extends emb k st) as Hext. fold st' in Hext.
  split; [apply Hext|].
  split.
  { rewrite (proj1 Hext). apply extends_array_at; [exact Hext|exact Hwf]. }
  split.
  { intros r Hr. apply extends_array_at; [exact Hext|exact Hr]. }
  destruct Hext as [Hv [ext E]]. unfold wf in *. rewrite Hv, E, length_app. lia.
Qed.

(** *** The embeddings helper and [addVector] *)

(** No binding named [openaiClient] exists: reading it throws. *)
Lemma read_openaiClient (st : State W) :
  read_client_binding "openaiClient" st
  = (Throw (ReferenceError "openaiClient"), st).
Proof. reflexivity. Qed.

Lemma addVector_rejects (supplied : option string) (txt : string)
    (m : option Meta) (st : State W) :
  addVector R cfg supplied txt m st
  = (Throw (ReferenceError "openaiClient"), st).
Proof. unfold addVector, embedText, bind. now rewrite read_openaiClient. Qed.

(** C1, as the code behaves: for every text and every module state, with or
    without an embeddings client configured, [embedText] throws a
    ReferenceError before it reaches its [try]: it reads [openaiClient],
    which the module never declares. *)
Theorem embedText_throws (txt : string) (st : State W) :
  embedText R cfg txt st = (Throw (ReferenceError "openaiClient"), st).
Proof. unfold embedText, bind. now rewrite read_openaiClient. Qed.

(** C7, as the code behaves: for every input [addVector] rejects with the
    ReferenceError of [embedText]; it returns no record and stores none. *)
Theorem addVector_returns_no_record (supplied : option string) (txt : string)
    (m : option Meta) (st : State W) :
  addVector R cfg supplied txt m st
  = (Throw (ReferenceError "openaiClient"), st).
Proof. unfold addVector, embedText, bind. now rewrite read_openaiClient. Qed.

(** The handler of [POST /api/vector] catches the error and answers 500. *)
Lemma post_vector_internal_error (supplied : option string) (txt : string)
    (m : option Meta) (st : State W) :
  txt <> EmptyString ->
  post_vector R cfg supplied (Some txt) m st
  = (Ok (JsonError 500 "internal error"),
     add_log (Error "addVector error") st).
Proof.
  intros Htxt. unfold post_vector. cbn [truthy].
  apply String.eqb_neq in Htxt. rewrite Htxt. cbn [negb].
  unfold try_catch, bind at 1.
  now rewrite addVector_rejects.
Qed.

(** [addVector] past its first line, on the fallback backend: the record is
    appended to the store array and returned; its text is the input and its
    id the supplied one or the decimal of the length plus one. *)
Lemma addVector_stored_fallback (supplied : option string) (txt : string)
    (m : option Meta) (emb : option vector) (st : State W) :
  chromaCollection st = None ->
  let item :=
    {| id := item_id supplied (length (array_at st (vectors st)));
       text := txt; embedding := emb;
       meta := Some (match m with Some m' => m' | None => [] end);
       score := None |} in
  addVector_stored R supplied txt m emb st
  = (Ok item,
     set_arrays
       (<[vectors st := array_at st (vectors st) ++ [item]]> (arrays st)) st).
Proof.
  intros Hc item. unfold addVector_stored, array_push. unfold_monad.
  rewrite Hc. reflexivity.
Qed.

(** On either backend the rest of [addVector] returns the record it built,
    whatever the remote side answers. *)
Lemma addVector_stored_returns (supplied : option string) (txt : string)
    (m : option Meta) (emb : option vector) (st : State W) :
  fst (addVector_stored R supplied txt m emb st)
  = Ok {| id := item_id supplied (length (array_at st (vectors st)));
          text := txt; embedding := emb;
          meta := Some (match m with Some m' => m' | None => [] end);
          score := None |}.
Proof.
  unfold addVector_stored, array_push, chroma_add. unfold_monad.
  cbn [fst snd].
  destruct (chromaCollection st) as [c|]; [|reflexivity].
  destruct (has_add c).
  { destruct (collection_add R c _ (world st)) as [[[]|e] w]; reflexivity. }
  destruct (has_upsert c).
  { destruct (collection_upsert R c _ (world st)) as [[[]|e] w]; reflexivity. }
  cbn. destruct (chromaClient st) as [cl|]; [|reflexivity].
  destruct (cl_add cl); [|reflexivity].
  destruct (client_add R cl _ (world st)) as [[[]|e] w]; reflexivity.
Qed.

(** *** The remote backend stays unavailable *)

Lemma serve_keeps_fallback (q : request) (st : State W) :
  chromaCollection st = None ->
  chromaCollection (serve R cfg q st) = None
  /\ type (serve R cfg q st) = type st
  /\ chroma_calls (serve R cfg q st) = chroma_calls st.
Proof.
  intros Hc. destruct q as [supplied txt m|emb k| |]; cbn [serve].
  - rewrite addVector_rejects. auto.
  - destruct emb as [e|].
    + rewrite (queryVectors_fallback e k st Hc), memory_query_runs. auto.
    + cbn. auto.
  - unfold list_handler, list_remote. unfold_monad. rewrite Hc. cbn. auto.
  - unfold clear_handler, clear_remote. unfold_monad. rewrite Hc. cbn. auto.
Qed.

Lemma serve_all_keeps_fallback (qs : list request) : forall st : State W,
  chromaCollection st = None ->
  chromaCollection (serve_all R cfg qs st) = None
  /\ type (serve_all R cfg qs st) = type st
  /\ chroma_calls (serve_all R cfg qs st) = chroma_calls st.
Proof.
  induction qs as [|q qs IH]; intros st Hc; [auto|].
  change (serve_all R cfg (q :: qs) st)
    with (serve_all R cfg qs (serve R cfg q st)).
  destruct (serve_keeps_fallback q st Hc) as (Hc' & Ht & Hcalls).
  destruct (IH _ Hc') as (H1 & H2 & H3).
  split; [exact H1|]. split; congruence.
Qed.

Lemma connect_keeps_collection (m : ChromaModule) (st : State W) :
  chromaCollection (snd (connect R cfg m st)) = chromaCollection st
  /\ type (snd (connect R cfg m st)) = type st.
Proof.
  unfold connect. unfold_monad.
  destruct (truthy (CHROMA_CLOUD_API_KEY cfg) && truthy (CHROMA_TENANT cfg)).
  - destruct (construct_client R _ (world st)) as [[cl|e] w]; auto.
  - destruct (is_function m);
      [|destruct (has_ChromaClient m); [|destruct (has_Client m)]];
      try destruct (construct_client R _ (world st)) as [[cl|e] w];
      auto.
Qed.

Lemma get_step_throws (cl : Client) (st : State W) (e : js_error) :
  fst (get_step R cl st) = Throw e ->
  chromaCollection (snd (get_step R cl st)) = chromaCollection st
  /\ type (snd (get_step R cl st)) = type st.
Proof.
  unfold get_step. unfold_monad.
  destruct (cl_getCollection cl); [|discriminate].
  destruct (getCollection R cl _ (world st)) as [[c|e'] w]; cbn; [discriminate|].
  auto.
Qed.

Lemma create_step_throws (cl : Client) (st : State W) (e : js_error) :
  fst (create_step R cl st) = Throw e ->
  chromaCollection (snd (create_step R cl st)) = chromaCollection st
  /\ type (snd (create_step R cl st)) = type st.
Proof.
  unfold create_step. unfold_monad.
  destruct (cl_createCollection cl); [|discriminate].
  destruct (createCollection R cl _ (world st)) as [[c|e'] w]; cbn; [discriminate|].
  auto.
Qed.

(** A failed initialisation leaves no collection, and the store type as it
    was. *)
Lemma failed_init_no_collection (st0 : State W) :
  chromaCollection st0 = None ->
  connection_fails R cfg st0 \/ collection_setup_fails R cfg st0 ->
  chromaCollection (snd (chroma_init R cfg st0)) = None
  /\ type (snd (chroma_init R cfg st0)) = type st0.
Proof.
  intros Hc0 Hfail.
  remember (snd (chroma_init R cfg st0)) as fin eqn:Hfin.
  unfold chroma_init in Hfin.
  destruct Hfail as [(m & e & Hm & Hconn)|(m & cl & e & Hm & Hconn & Hcl & Hget & Hcreate)];
    rewrite Hm in Hfin; destruct (chroma_enabled cfg);
    try (subst fin; split; [exact Hc0|reflexivity]).
  - destruct (connect_keeps_collection m st0) as [_ Ht].
    unfold try_catch, bind at 1 in Hfin.
    destruct (connect R cfg m st0) as [[[]|e'] s1]; cbn [fst snd] in *;
      [discriminate|].
    subst fin. cbn. auto.
  - destruct (connect_keeps_collection m st0) as [Hk Ht].
    destruct (get_step_throws cl (snd (connect R cfg m st0)) e Hget) as [Hg Hgt].
    unfold try_catch at 1, bind at 1 in Hfin.
    destruct (connect R cfg m st0) as [[[]|e'] s1]; cbn [fst snd] in *;
      [|discriminate].
    unfold bind at 1, gets at 1 in Hfin. rewrite Hcl in Hfin.
    unfold bind at 1, obtain_collection, try_catch at 1 in Hfin.
    destruct (get_step R cl s1) as [[[]|e1] s2]; cbn [fst snd] in *;
      [discriminate|].
    assert (chromaCollection s2 = None) as Hs2 by congruence.
    assert (type s2 = type st0) as Ht2 by congruence.
    unfold try_catch at 1 in Hfin.
    destruct Hcreate as [Hno|[e2 Hcr]].
    + unfold create_step in Hfin. rewrite Hno in Hfin. unfold_monad.
      cbn in Hfin. rewrite Hs2 in Hfin. cbn in Hfin. subst fin. auto.
    + destruct (create_step_throws cl s2 e2 Hcr) as [Hcs Hct].
      destruct (create_step R cl s2) as [[[]|e3] s3]; cbn [fst snd] in *;
        [discriminate|].
      unfold_monad. cbn in Hfin. subst fin. cbn. split; [reflexivity|congruence].
Qed.

(** C6: when the initialisation of the remote backend fails, at the
    connection or at the collection setup, no collection is left and the
    store type is not switched to the remote one; it stays so whatever
    requests follow: after any sequence of [addVector], [queryVectors], list
    and clear operations the collection is still absent, the store type is
    the same, and none of the operations has called the remote vector
    database.  (The block is taken as one step; the requests that the
    server handles before it has run keep the collection absent, which is
    all the statement asks of [st0].) *)
Theorem failed_init_is_permanent (st0 : State W) (qs : list request) :
  chromaCollection st0 = None ->
  connection_fails R cfg st0 \/ collection_setup_fails R cfg st0 ->
  let st1 := snd (chroma_init R cfg st0) in
  chromaCollection st1 = None
  /\ type st1 = type st0
  /\ chromaCollection (serve_all R cfg qs st1) = None
  /\ type (serve_all R cfg qs st1) = type st0
  /\ chroma_calls (serve_all R cfg qs st1) = chroma_calls st1.
Proof.
  intros Hc0 Hfail st1.
  destruct (failed_init_no_collection st0 Hc0 Hfail) as [H1 Ht].
  fold st1 in H1, Ht.
  destruct (serve_all_keeps_fallback qs st1 H1) as (H2 & H3 & H4).
  repeat split; congruence.
Qed.

(** *** Clearing, then listing *)

(** The remote attempt of the clear handler never throws, and answers
    success when it answers. *)
Lemma clear_remote_result (st : State W) :
  fst (clear_remote R st) = Ok None \/ fst (clear_remote R st) = Ok (Some JsonOk).
Proof.
  unfold clear_remote, chroma_clear. unfold_monad.
  destruct (chromaCollection st) as [c|]; [|now left].
  destruct (has_delete c).
  { destruct (collection_delete R c (world st)) as [[[]|e] w]; cbn; auto. }
  destruct (has_clear c).
  { destruct (collection_clear R c (world st)) as [[[]|e] w]; cbn; auto. }
  cbn. destruct (chromaClient st) as [cl|]; [|now left].
  destruct (cl_deleteCollection cl); [|now left].
  destruct (deleteCollection R cl _ (world st)) as [[[]|e] w]; cbn; [|auto].
  destruct (cl_createCollection cl); cbn; [|auto].
  destruct (createCollection R cl _ w) as [[c'|e] w']; cbn; auto.
Qed.

Lemma list_remote_extends (st : State W) :
  extends st (snd (list_remote R st)).
Proof.
  revert st. change (preserves (list_remote R)).
  unfold list_remote, chroma_list. frame.
Qed.

(** When its remote attempt gives nothing, the clear handler installs a new
    empty store array. *)
Lemma clear_handler_fallback (st : State W) :
  fst (clear_remote R st) = Ok None ->
  clear_handler R st
  = (Ok JsonOk,
     set_vectors (length (arrays (snd (clear_remote R st))))
       (set_arrays (arrays (snd (clear_remote R st)) ++ [[]])
          (snd (clear_remote R st)))).
Proof.
  intros H. unfold clear_handler. unfold try_catch at 1, bind at 1.
  destruct (clear_remote R st) as [r s1]. cbn [fst snd] in *. subst r.
  reflexivity.
Qed.

(** When its remote attempt gives nothing, the list handler lists the store
    array. *)
Lemma list_handler_fallback (st : State W) :
  fst (list_remote R st) = Ok None ->
  fst (list_handler R st)
  = Ok (JsonItems
          (map listed_of_item
             (array_at (snd (list_remote R st)) (vectors (snd (list_remote R st)))))).
Proof.
  intros H. unfold list_handler. unfold try_catch at 1, bind at 1.
  destruct (list_remote R st) as [r s1]. cbn [fst snd] in *. subst r.
  reflexivity.
Qed.

(** C8, as the code behaves: the clear handler always answers success.
    When the remote backend is unavailable, or its clear fails or cannot be
    tried, the store array is replaced by an empty one, and a list request
    that follows answers the empty sequence provided it is served from the
    store array too (in particular when the remote backend is
    unavailable). *)
Theorem clear_then_list (st : State W) :
  let st1 := snd (clear_handler R st) in
  fst (clear_handler R st) = Ok JsonOk
  /\ (fst (clear_remote R st) = Ok None ->
      array_at st1 (vectors st1) = []
      /\ (fst (list_remote R st1) = Ok None ->
          fst (list_handler R st1) = Ok (JsonItems [])))
  /\ (chromaCollection st = None ->
      fst (list_handler R st1) = Ok (JsonItems [])).
Proof.
  intros st1.
  assert (fst (clear_remote R st) = Ok None ->
          array_at st1 (vectors st1) = []
          /\ vectors st1 < length (arrays st1)) as Hempty.
  { intros H. unfold st1. rewrite (clear_handler_fallback st H). cbn [snd].
    split.
    - unfold array_at. cbn [arrays vectors set_vectors set_arrays].
      now rewrite list_lookup_middle.
    - cbn [arrays vectors set_vectors set_arrays]. rewrite length_app. cbn. lia. }
  assert (fst (clear_remote R st) = Ok None ->
          fst (list_remote R st1) = Ok None ->
          fst (list_handler R st1) = Ok (JsonItems [])) as Hlist.
  { intros H Hl. destruct (Hempty H) as [He Hlt].
    rewrite (list_handler_fallback st1 Hl).
    pose proof (list_remote_extends st1) as Hext.
    rewrite (proj1 Hext), (extends_array_at _ _ _ Hext Hlt), He. reflexivity. }
  split; [|split].
  - destruct (clear_remote_result st) as [H|H].
    + now rewrite (clear_handler_fallback st H).
    + unfold clear_handler. unfold try_catch at 1, bind at 1.
      destruct (clear_remote R st) as [r s1]. cbn [fst] in H. subst r.
      reflexivity.
  - intros H. split; [now apply Hempty|now apply Hlist].
  - intros Hc.
    assert (clear_remote R st = (Ok None, st)) as Hcr
      by (unfold clear_remote; unfold_monad; now rewrite Hc).
    apply Hlist; [now rewrite Hcr|].
    unfold st1. rewrite clear_handler_fallback by now rewrite Hcr.
    rewrite Hcr. cbn [snd]. unfold list_remote. unfold_monad. cbn.
    now rewrite Hc.
Qed.

(** *** Every state the server reaches has its store array allocated *)

Lemma clear_remote_preserves : preserves (clear_remote R).
Proof. unfold clear_remote, chroma_clear. frame. Qed.

Lemma list_handler_extends (st : State W) :
  extends st (snd (list_handler R st)).
Proof.
  revert st. change (preserves (list_handler R)).
  unfold list_handler, list_remote, chroma_list, read. frame.
Qed.

Lemma wf_initial (w : W) (chat emb : option ApiClient) :
  wf (initial_state w chat emb).
Proof. unfold wf. cbn. lia. Qed.

Lemma extends_wf (st st' : State W) : extends st st' -> wf st -> wf st'.
Proof.
  intros [Hv [ext E]] Hwf. unfold wf in *. rewrite Hv, E, length_app. lia.
Qed.

Lemma clear_handler_wf (st : State W) : wf st -> wf (snd (clear_handler R st)).
Proof.
  intros Hwf. destruct (clear_remote_result st) as [H|H].
  - rewrite (clear_handler_fallback st H). unfold wf.
    cbn [snd arrays vectors set_vectors set_arrays]. rewrite length_app. cbn. lia.
  - pose proof (clear_remote_preserves st) as Hext.
    unfold clear_handler. unfold try_catch at 1, bind at 1.
    destruct (clear_remote R st) as [r s1]. cbn [fst snd] in *. subst r.
    cbn [snd]. now apply (extends_wf st).
Qed.

(** The requests keep the store array allocated. *)
Lemma serve_wf (q : request) (st : State W) : wf st -> wf (serve R cfg q st).
Proof.
  intros Hwf. destruct q as [supplied txt m|emb k| |]; cbn [serve].
  - now rewrite addVector_rejects.
  - eapply extends_wf; [apply queryVectors_extends|exact Hwf].
  - eapply extends_wf; [apply list_handler_extends|exact Hwf].
  - now apply clear_handler_wf.
Qed.

Lemma serve_all_wf (qs : list request) : forall st : State W,
  wf st -> wf (serve_all R cfg qs st).
Proof.
  induction qs as [|q qs IH]; intros st Hwf; [exact Hwf|].
  change (serve_all R cfg (q :: qs) st)
    with (serve_all R cfg qs (serve R cfg q st)).
  now apply IH, serve_wf.
Qed.

(** *** Decimal numerals *)

Lemma to_uint_nonnil (n : nat) : Nat.to_uint n <> Decimal.Nil.
Proof.
  rewrite <- (DecimalNat.Unsigned.of_to n) at 1.
  rewrite DecimalNat.Unsigned.to_of. apply DecimalFacts.unorm_nonnil.
Qed.

Lemma toString_nonempty (n : nat) : toString n <> EmptyString.
Proof.
  unfold toString, NilZero.string_of_uint.
  pose proof (to_uint_nonnil n) as H.
  destruct (Nat.to_uint n); cbn; congruence.
Qed.

Lemma toString_inj (n n' : nat) : toString n = toString n' -> n = n'.
Proof.
  unfold toString. intros H.
  apply DecimalNat.Unsigned.to_uint_inj.
  apply (f_equal NilZero.uint_of_string) in H.
  rewrite !NilZero.usu in H by apply to_uint_nonnil.
  congruence.
Qed.

(** *** The handler of [POST /api/vector] *)

Lemma post_vector_state (supplied txt : option string) (m : option Meta)
    (st : State W) :
  snd (post_vector R cfg supplied txt m st) = st
  \/ snd (post_vector R cfg supplied txt m st)
     = add_log (Error "addVector error") st.
Proof.
  unfold post_vector. destruct (truthy txt); [|now left].
  unfold try_catch, bind at 1. rewrite addVector_rejects. now right.
Qed.

(** X1: [POST /api/vector] never answers with an item: without a text it
    answers 400 and leaves the state as it is; with one, [addVector] rejects
    and the handler answers 500, the only change being the line it prints.
    No record is stored and no service is called. *)
Theorem post_vector_never_stores (supplied txt : option string)
    (m : option Meta) (st : State W) :
  post_vector R cfg supplied txt m st
  = if truthy txt
    then (Ok (JsonError 500 "internal error"),
          add_log (Error "addVector error") st)
    else (Ok (JsonError 400 "text required"), st).
Proof.
  unfold post_vector. destruct (truthy txt); [|reflexivity].
  unfold try_catch, bind at 1. now rewrite addVector_rejects.
Qed.

(** *** Listing *)

(** X2: The list handler never answers an error.  It answers the rows of the
    remote collection when the collection is there, offers [get], and [get]
    resolves with an object; in every other case (no collection, no [get]
    method, a rejection, an [undefined] answer) it answers the records of
    the in-memory store, in their order. *)
Theorem list_handler_answers (st : State W) :
  exists items,
    fst (list_handler R st) = Ok (JsonItems items)
    /\ ((exists c g w,
           chromaCollection st = Some c /\ has_get c = true
           /\ collection_get R c (world st) = (Ok (Some g), w)
           /\ items = listed_rows g)
        \/ ((forall c g w,
               chromaCollection st = Some c -> has_get c = true ->
               collection_get R c (world st) <> (Ok (Some g), w))
            /\ items = map listed_of_item (array_at st (vectors st)))).
Proof.
  unfold list_handler, list_remote, chroma_list. unfold_monad.
  destruct (chromaCollection st) as [c|] eqn:Hc.
  - destruct (has_get c) eqn:Hg.
    + destruct (collection_get R c (world st)) as [[[g|]|e] w] eqn:Hget; cbn.
      * eexists. split; [reflexivity|]. left. now exists c, g, w.
      * eexists. split; [reflexivity|]. right. split; [|reflexivity].
        intros c' g' w' Hc' _. congruence.
      * eexists. split; [reflexivity|]. right. split; [|reflexivity].
        intros c' g' w' Hc' _. congruence.
    + cbn. eexists. split; [reflexivity|]. right. split; [|reflexivity].
      intros c' g' w' Hc' Hg'. congruence.
  - cbn. eexists. split; [reflexivity|]. right. split; [|reflexivity].
    intros c' g' w' Hc'. discriminate.
Qed.

Lemma lookup_map {A B : Type} (f : A -> B) (l : list A) (i : nat) :
  map f l !! i = option_map f (l !! i).
Proof.
  revert i. induction l as [|x l IH]; intros [|i]; cbn; auto.
Qed.

(** A row of the remote listing is built from the entries of its index. *)
Lemma listed_rows_lookup (g : GetResponse) (i : nat) (row : Listed) :
  listed_rows g !! i = Some row ->
  row = {| l_id := nonempty (normalise (g_ids g) !! i);
           l_text := nonempty (normalise (g_documents g) !! i);
           l_meta := match normalise (g_metadatas g) !! i with
                     | Some m => m
                     | None => None
                     end;
           l_embedding :=
             truthy_embedding (normalise_embeddings (g_embeddings g) !! i) |}.
Proof.
  unfold listed_rows. rewrite lookup_map.
  destruct (seq 0 _ !! i) as [j|] eqn:Hj; [|discriminate].
  apply lookup_seq in Hj. destruct Hj as [-> _]. cbn. congruence.
Qed.

(** X3: When the remote side answers [get] with a flat array of embeddings (one
    embedding per record, the shape of its other fields), the handler takes
    the first embedding for the list of embeddings: the row of index [i]
    carries the [i]-th number of the first record's embedding, or [null]
    when that number is absent, zero or NaN.  No row carries a vector. *)
Theorem listed_rows_flat_embeddings (g : GetResponse) (v : vector)
    (rest : list vector) (i : nat) (row : Listed) :
  g_embeddings g = Some (Flat (v :: rest)) ->
  listed_rows g !! i = Some row ->
  l_embedding row = truthy_embedding (option_map EmbNumber (v !! i))
  /\ (forall e, l_embedding row <> Some (EmbVector e)).
Proof.
  intros Hg Hrow. apply listed_rows_lookup in Hrow.
  assert (l_embedding row = truthy_embedding (option_map EmbNumber (v !! i)))
    as Hemb.
  { rewrite Hrow. cbn [l_embedding]. rewrite Hg. cbn [normalise_embeddings].
    now rewrite lookup_map. }
  split; [exact Hemb|].
  intros e. rewrite Hemb.
  destruct (v !! i) as [x|]; cbn; [|discriminate].
  destruct (is_nan x || (x =? 0)%float); discriminate.
Qed.

(** *** [queryVectors] on either backend *)

Lemma array_at_second (st : State W) (h : list (list Item)) (a b : list Item) :
  array_at (set_arrays (h ++ [a; b]) st) (S (length h)) = b.
Proof.
  replace (h ++ [a; b]) with ((h ++ [a]) ++ b :: [])
    by now rewrite <- app_assoc.
  replace (S (length h)) with (length (h ++ [a]))
    by (rewrite length_app; cbn; lia).
  apply array_at_fresh.
Qed.

Lemma ranked_copies_ext (e : vector) (st st' : State W) :
  arrays st' = arrays st -> vectors st' = vectors st ->
  ranked_copies e st' = ranked_copies e st.
Proof.
  intros Ha Hv. unfold ranked_copies, scored_copies, array_at.
  now rewrite Ha, Hv.
Qed.

(** The remote attempt of a query makes one array at most, the one it
    returns. *)
Lemma chroma_query_heap (c : Collection) (e : vector) (k : Z) (st : State W) :
  vectors (snd (chroma_query R c e k st)) = vectors st
  /\ console (snd (chroma_query R c e k st)) = console st
  /\ match fst (chroma_query R c e k st) with
     | Ok (Some out) =>
         out = length (arrays st)
         /\ exists hits,
              arrays (snd (chroma_query R c e k st)) = arrays st ++ [hits]
     | _ => arrays (snd (chroma_query R c e k st)) = arrays st
     end.
Proof.
  unfold chroma_query, answer_hits. unfold_monad.
  destruct (has_query c).
  - destruct (collection_query R c e k (world st)) as [[[q|]|err] w]; cbn;
      repeat split; eauto.
  - cbn. destruct (chromaClient st) as [cl|]; [|repeat split].
    destruct (cl_query cl); [|repeat split].
    destruct (client_query R cl e k (world st)) as [[[q|]|err] w]; cbn;
      repeat split; eauto.
Qed.

(** X4: [queryVectors] never rejects, and the array it resolves with is one it
    has made for the call: never the array of the store, nor any array that
    existed before. *)
Theorem queryVectors_returns_new_array (emb : option vector) (k : option Z)
    (st : State W) :
  exists out,
    fst (queryVectors R emb k st) = Ok out
    /\ length (arrays st) <= out
    /\ out < length (arrays (snd (queryVectors R emb k st))).
Proof.
  assert (exists out st',
            queryVectors R emb k st = (Ok out, st')
            /\ length (arrays st) <= out /\ out < length (arrays st')) as H.
  { unfold queryVectors.
    destruct emb as [e|].
    2:{ do 2 eexists. split; [reflexivity|]. cbn. rewrite length_app. cbn. lia. }
    set (k' := match k with Some v => v | None => 3%Z end).
    unfold bind at 1, gets at 1.
    destruct (chromaCollection st) as [c|].
    - destruct (chroma_query_heap c e k' st) as (Hv & _ & Hheap).
      unfold bind at 1, try_catch at 1.
      destruct (chroma_query R c e k' st) as [[[out|]|err] s1];
        cbn [fst snd] in *.
      + destruct Hheap as [-> [hits Hh]].
        do 2 eexists. split; [reflexivity|]. rewrite Hh, length_app. cbn. lia.
      + rewrite memory_query_runs.
        do 2 eexists. split; [reflexivity|]. cbn. rewrite length_app, Hheap.
        cbn. lia.
      + unfold bind at 1, log, modify, ret. rewrite memory_query_runs.
        do 2 eexists. split; [reflexivity|]. cbn. rewrite length_app, Hheap.
        cbn. lia.
    - unfold bind at 1, ret at 1. rewrite memory_query_runs.
      do 2 eexists. split; [reflexivity|]. cbn. rewrite length_app. cbn. lia. }
  destruct H as (out & st' & -> & Hlo & Hhi). now exists out.
Qed.

(** The run of [queryVectors] when its remote attempt gives no result: the
    in-memory query, on a state that differs from the first by the world,
    the calls and the console at most. *)
Lemma queryVectors_falls_back_run (e : vector) (k : option Z) (st : State W) :
  let k' := match k with Some v => v | None => 3%Z end in
  (forall c out, chromaCollection st = Some c ->
     fst (chroma_query R c e k' st) <> Ok (Some out)) ->
  exists out st',
    queryVectors R (Some e) k st = (Ok out, st')
    /\ array_at st' out = slice0 (ranked_copies e st) k'
    /\ ((exists c err, chromaCollection st = Some c
           /\ fst (chroma_query R c e k' st) = Throw err) ->
        console st'
        = console st ++ [Warn "chroma query failed, falling back to memory"%string])
    /\ ((forall c err, chromaCollection st = Some c ->
           fst (chroma_query R c e k' st) <> Throw err) ->
        console st' = console st).
Proof.
  intros k' Hnone. unfold queryVectors. fold k'.
  unfold bind at 1, gets at 1.
  destruct (chromaCollection st) as [c|] eqn:Hc.
  - destruct (chroma_query_heap c e k' st) as (Hv & Hcons & Hheap).
    specialize (Hnone c).
    unfold bind at 1, try_catch at 1.
    destruct (chroma_query R c e k' st) as [[[out|]|err] s1] eqn:Hq;
      cbn [fst snd] in *.
    + now destruct (Hnone out).
    + rewrite memory_query_runs.
      do 2 eexists. split; [reflexivity|].
      split; [|split].
      * rewrite array_at_second.
        now rewrite (ranked_copies_ext e st s1).
      * intros (c' & err & Hc' & Hthrow). injection Hc' as <-.
        rewrite Hq in Hthrow. discriminate.
      * intros _. exact Hcons.
    + unfold bind at 1, log, modify, ret. rewrite memory_query_runs.
      do 2 eexists. split; [reflexivity|].
      split; [|split].
      * rewrite array_at_second.
        now rewrite (ranked_copies_ext e st (add_log _ s1)).
      * intros _. cbn. now rewrite Hcons.
      * intros Hno. destruct (Hno c err); [reflexivity|now rewrite Hq].
  - unfold bind at 1, ret at 1. rewrite memory_query_runs.
    do 2 eexists. split; [reflexivity|].
    split; [apply array_at_second|]. split.
    + intros (c' & err & Hc' & _). discriminate.
    + intros _. reflexivity.
Qed.

(** X5: When the remote attempt of a query gives no result (there is no
    collection, neither the collection nor the client offers [query], the
    call rejects, or it resolves with [undefined]), [queryVectors] answers
    as the fallback backend does: [slice(0, k)] of a rearrangement of the
    scored copies of the in-memory records.  When no record scores NaN
    against the query, that rearrangement is the ranking: in descending
    order of score, records of equal score in insertion order, and the only
    arrangement that is so.  A warning is printed when, and only when, the
    attempt threw. *)
Theorem queryVectors_falls_back (e : vector) (k : option Z) (st : State W) :
  let k' := match k with Some v => v | None => 3%Z end in
  let scored :=
    map (fun v => with_score v (cosine (Some e) (embedding v)))
      (array_at st (vectors st)) in
  (forall c out, chromaCollection st = Some c ->
     fst (chroma_query R c e k' st) <> Ok (Some out)) ->
  exists out st' ranked,
    queryVectors R (Some e) k st = (Ok out, st')
    /\ array_at st' out = slice0 ranked k'
    /\ Permutation ranked scored
    /\ (Forall (fun v => is_nan (cosine (Some e) (embedding v)) = false)
          (array_at st (vectors st)) ->
        StronglySorted desc ranked
        /\ (forall s : float,
              List.filter (scores s) ranked = List.filter (scores s) scored)
        /\ (forall other : list Item,
              Permutation other scored -> Sorted desc other ->
              (forall s,
                 List.filter (scores s) other = List.filter (scores s) scored) ->
              other = ranked))
    /\ ((exists c err, chromaCollection st = Some c
           /\ fst (chroma_query R c e k' st) = Throw err) ->
        console st'
        = console st ++ [Warn "chroma query failed, falling back to memory"%string])
    /\ ((forall c err, chromaCollection st = Some c ->
           fst (chroma_query R c e k' st) <> Throw err) ->
        console st' = console st).
Proof.
  intros k' scored Hnone.
  destruct (queryVectors_falls_back_run e k st Hnone)
    as (out & st' & Hrun & Hout & Hwarn & Hquiet).
  destruct (ranking_correct scored) as (Hperm & Hstable & Hsorted).
  exists out, st', (js_sort by_score_desc scored).
  split; [exact Hrun|]. split; [exact Hout|]. split; [exact Hperm|].
  split; [|split; [exact Hwarn|exact Hquiet]].
  intros Hnan. destruct Hsorted as [Hdesc Hunique].
  { unfold scored. rewrite List.Forall_map.
    eapply List.Forall_impl; [|exact Hnan]. intros v Hv. exact Hv. }
  split; [exact Hdesc|]. split; [exact Hstable|exact Hunique].
Qed.

Lemma toString_hit_id (ids : list string) (i : nat) : hit_id ids i <> EmptyString.
Proof.
  unfold hit_id. destruct (ids !! i) as [s|]; [|apply toString_nonempty].
  destruct (String.eqb s EmptyString) eqn:Hs; [apply toString_nonempty|].
  now apply String.eqb_neq.
Qed.

(** X6: When the collection offers [query] and the call resolves with an
    answer, [queryVectors] returns one hit per document of the answer's
    first row, in the order of the answer: it does not truncate to [k], rank
    or score by itself.  A hit carries the document as its text, the
    distance of the same index as its score (none when the row is shorter),
    and a non-empty id: the id of the same index, or the index plus one in
    decimal.  One call is made, the query. *)
Theorem queryVectors_remote_hits (e : vector) (k : option Z) (st : State W)
    (c : Collection) (q : QueryResponse) (w : W) :
  let k' := match k with Some v => v | None => 3%Z end in
  chromaCollection st = Some c -> has_query c = true ->
  collection_query R c e k' (world st) = (Ok (Some q), w) ->
  exists out st',
    queryVectors R (Some e) k st = (Ok out, st')
    /\ array_at st' out = query_hits q
    /\ length (query_hits q) = length (first_row (q_documents q))
    /\ (forall i hit, query_hits q !! i = Some hit ->
          first_row (q_documents q) !! i = Some (text hit)
          /\ score hit = first_row (q_distances q) !! i
          /\ id hit <> EmptyString
          /\ (forall s, first_row (q_ids q) !! i = Some s -> s <> EmptyString ->
                id hit = s)
          /\ (first_row (q_ids q) !! i = None -> id hit = toString (i + 1))
          /\ embedding hit = None /\ meta hit = None)
    /\ calls st' = calls st ++ [CallCollectionQuery]
    /\ world st' = w.
Proof.
  intros k' Hc Hq Hans. unfold queryVectors. fold k'.
  unfold bind at 1, gets at 1. rewrite Hc.
  unfold bind at 1, try_catch at 1, chroma_query. rewrite Hq.
  unfold bind at 1, remote at 1. rewrite Hans.
  unfold answer_hits. unfold_monad. cbn -[query_hits].
  do 2 eexists. split; [reflexivity|].
  split; [apply (array_at_fresh _ (arrays st) _ [])|].
  split; [apply length_imap|].
  split; [|split; reflexivity].
  intros i hit Hhit. unfold query_hits in Hhit.
  apply list_lookup_imap_Some in Hhit as (doc & Hdoc & ->). cbn.
  split; [exact Hdoc|]. split; [reflexivity|].
  split; [apply toString_hit_id|].
  split; [|split; [|split; reflexivity]].
  - intros s Hs Hne. unfold hit_id. rewrite Hs.
    apply String.eqb_neq in Hne. now rewrite Hne.
  - intros Hno. unfold hit_id. now rewrite Hno.
Qed.

Lemma In_firstn {A : Type} (n : nat) : forall (l : list A) (x : A),
  In x (firstn n l) -> In x l.
Proof.
  induction n as [|n IH]; intros [|a l] x; cbn; try tauto.
  intros [->|H]; [now left|right; now apply IH].
Qed.

(** X7: On the fallback backend, whatever the scores are (NaN included), the
    result is [slice(0, k)] of a rearrangement of the scored copies of the
    stored records.  Every record returned is the copy of a stored record
    with its [cosine] score, no stored record is returned more often than
    it is stored, and the number returned is that of [slice]: at most the
    number of stored records, and at most [k] when [k] is not negative. *)
Theorem fallback_query_any_scores (e : vector) (k : option Z) (st : State W) :
  let k' := match k with Some v => v | None => 3%Z end in
  let records := array_at st (vectors st) in
  let scored :=
    map (fun v => with_score v (cosine (Some e) (embedding v))) records in
  chromaCollection st = None ->
  exists out st' ranked,
    queryVectors R (Some e) k st = (Ok out, st')
    /\ array_at st' out = firstn (slice_end (length records) k') ranked
    /\ length (array_at st' out) = slice_end (length records) k'
    /\ Permutation ranked scored
    /\ (exists rest, Permutation (array_at st' out ++ rest) scored)
    /\ Forall (fun hit =>
                 exists v, In v records
                   /\ hit = with_score v (cosine (Some e) (embedding v)))
         (array_at st' out)
    /\ (length (array_at st' out) <= length records)%nat
    /\ ((0 <= k')%Z -> (Z.of_nat (length (array_at st' out)) <= k')%Z).
Proof.
  intros k' records scored Hc.
  destruct (ranking_correct scored) as (Hperm & _ & _).
  assert (length (js_sort by_score_desc scored) = length records) as Hlen.
  { rewrite js_sort_length. unfold scored. apply length_map. }
  assert (slice_end (length records) k' <= length records
          /\ ((0 <= k')%Z -> (Z.of_nat (slice_end (length records) k') <= k')%Z))
    as [Hle Hk].
  { unfold slice_end. generalize (length records). intros n.
    destruct (Z.ltb_spec k' 0); lia. }
  exists (S (length (arrays st))), (snd (memory_query e k' st)),
    (js_sort by_score_desc scored).
  assert (array_at (snd (memory_query e k' st)) (S (length (arrays st)))
          = firstn (slice_end (length records) k') (js_sort by_score_desc scored))
    as Hout.
  { rewrite memory_query_runs. cbn [snd]. rewrite array_at_second.
    unfold slice0.
    change (ranked_copies e st) with (js_sort by_score_desc scored).
    now rewrite Hlen. }
  assert (length (array_at (snd (memory_query e k' st)) (S (length (arrays st))))
          = slice_end (length records) k') as Hcount.
  { rewrite Hout, length_firstn. lia. }
  split.
  { rewrite (queryVectors_fallback e k st Hc). fold k'.
    rewrite memory_query_runs. reflexivity. }
  split; [exact Hout|]. split; [exact Hcount|]. split; [exact Hperm|].
  split.
  { exists (skipn (slice_end (length records) k') (js_sort by_score_desc scored)).
    now rewrite Hout, firstn_skipn. }
  split.
  { rewrite Hout. rewrite List.Forall_forall. intros hit Hhit.
    apply In_firstn in Hhit.
    apply (Permutation_in _ Hperm) in Hhit.
    unfold scored in Hhit. apply in_map_iff in Hhit as (v & <- & Hv).
    now exists v. }
  rewrite Hcount. split; [exact Hle|exact Hk].
Qed.

(** *** The initialisation block, whatever the remote side answers *)

Lemma connect_cases (m : ChromaModule) (st : State W) :
  exists r s1,
    connect R cfg m st = (r, s1)
    /\ type s1 = type st /\ chromaCollection s1 = chromaCollection st
    /\ arrays s1 = arrays st /\ vectors s1 = vectors st
    /\ (r = Ok tt -> exists cl, chromaClient s1 = Some cl).
Proof.
  unfold connect. unfold_monad.
  destruct (truthy (CHROMA_CLOUD_API_KEY cfg) && truthy (CHROMA_TENANT cfg)).
  - destruct (construct_client R _ (world st)) as [[cl|e] w];
      do 2 eexists; (split; [reflexivity|]); cbn; repeat split; eauto;
      discriminate.
  - destruct (is_function m);
      [|destruct (has_ChromaClient m); [|destruct (has_Client m)]];
      try destruct (construct_client R _ (world st)) as [[cl|e] w];
      do 2 eexists; (split; [reflexivity|]); cbn; repeat split; eauto;
      discriminate.
Qed.

Lemma obtain_collection_cases (cl : Client) (st : State W) :
  exists s2,
    obtain_collection R cl st = (Ok tt, s2)
    /\ type s2 = type st /\ arrays s2 = arrays st /\ vectors s2 = vectors st.
Proof.
  unfold obtain_collection, get_step, create_step. unfold_monad.
  destruct (cl_getCollection cl).
  - destruct (getCollection R cl _ (world st)) as [[c|e] w]; cbn.
    + eexists. split; [reflexivity|]. repeat split.
    + destruct (cl_createCollection cl); cbn.
      * destruct (createCollection R cl _ w) as [[c|e'] w']; cbn;
          eexists; (split; [reflexivity|]); repeat split.
      * eexists. split; [reflexivity|]. repeat split.
  - eexists. split; [reflexivity|]. repeat split.
Qed.

(** The initialisation block, run to its end. *)
Lemma chroma_init_cases (st0 : State W) :
  exists st1,
    chroma_init R cfg st0 = (Ok tt, st1)
    /\ arrays st1 = arrays st0 /\ vectors st1 = vectors st0
    /\ (chromaCollection st0 = None -> type st0 = Memory ->
        (type st1 = ChromaStore <-> chromaCollection st1 <> None)).
Proof.
  assert (forall st : State W, type st = Memory -> chromaCollection st = None ->
            type st = ChromaStore <-> chromaCollection st <> None) as Hnone.
  { intros st H1 H2. rewrite H1, H2. split; [discriminate|congruence]. }
  unfold chroma_init.
  destruct (Chroma cfg) as [m|].
  2:{ exists st0. split; [reflexivity|]. repeat split; auto; now apply Hnone. }
  destruct (chroma_enabled cfg).
  2:{ eexists. split; [reflexivity|]. repeat split; auto; now apply Hnone. }
  destruct (connect_cases m st0) as (r & s1 & Hconn & Ht1 & Hc1 & Ha1 & Hv1 & Hcl).
  unfold try_catch at 1, bind at 1. rewrite Hconn.
  destruct r as [[]|e].
  - destruct (Hcl eq_refl) as [cl Hcl'].
    unfold bind at 1, gets at 1. rewrite Hcl'.
    destruct (obtain_collection_cases cl s1) as (s2 & Hob & Ht2 & Ha2 & Hv2).
    unfold bind at 1. rewrite Hob.
    unfold bind at 1, gets at 1.
    destruct (chromaCollection s2) as [c|] eqn:Hc2.
    + eexists. split; [reflexivity|]. cbn. rewrite Hc2.
      split; [congruence|]. split; [congruence|]. intros _ _. split; congruence.
    + eexists. split; [reflexivity|].
      split; [congruence|]. split; [congruence|].
      intros Hc Ht. apply Hnone; congruence.
  - unfold_monad. cbn. eexists. split; [reflexivity|]. cbn.
    split; [congruence|]. split; [congruence|]. intros Hc Ht.
    split; [congruence|intros H; now destruct H].
Qed.

(** X8: The initialisation block never throws and leaves the store array alone.
    Run on the module as loaded (no collection, type [memory]), it marks the
    store as remote exactly when it has obtained a collection: the store
    type is [chroma] if and only if [chromaCollection] holds a collection
    at the end. *)
Theorem init_marks_remote_backend (st0 : State W) :
  chromaCollection st0 = None -> type st0 = Memory ->
  exists st1,
    chroma_init R cfg st0 = (Ok tt, st1)
    /\ (type st1 = ChromaStore <-> chromaCollection st1 <> None)
    /\ arrays st1 = arrays st0 /\ vectors st1 = vectors st0.
Proof.
  intros Hc Ht.
  destruct (chroma_init_cases st0) as (st1 & Hrun & Ha & Hv & Hiff).
  exists st1. split; [exact Hrun|]. split; [now apply Hiff|]. now split.
Qed.

(** *** [addVector] once the embedding is known *)

Lemma array_at_insert (st : State W) (r : nat) (a : list Item) :
  r < length (arrays st) ->
  array_at (set_arrays (<[r := a]> (arrays st)) st) r = a.
Proof.
  intros Hr. unfold array_at. cbn [arrays set_arrays].
  now rewrite list_lookup_insert_eq.
Qed.

(** The remote attempt of [addVector] changes neither the heap nor the
    module bindings, and gives back the record it was given. *)
Lemma chroma_add_cases (c : Collection) (item : Item) (st : State W) :
  arrays (snd (chroma_add R c item st)) = arrays st
  /\ vectors (snd (chroma_add R c item st)) = vectors st
  /\ (fst (chroma_add R c item st) = Ok (Some item)
      \/ fst (chroma_add R c item st) = Ok None
      \/ exists e, fst (chroma_add R c item st) = Throw e).
Proof.
  unfold chroma_add. unfold_monad.
  destruct (has_add c).
  { destruct (collection_add R c _ (world st)) as [[[]|e] w]; cbn; eauto 6. }
  destruct (has_upsert c).
  { destruct (collection_upsert R c _ (world st)) as [[[]|e] w]; cbn; eauto 6. }
  cbn. destruct (chromaClient st) as [cl|]; [|auto].
  destruct (cl_add cl); [|auto].
  destruct (client_add R cl _ (world st)) as [[[]|e] w]; cbn; eauto 6.
Qed.

Lemma item_id_nonempty (supplied : option string) (len : nat) :
  item_id supplied len <> EmptyString.
Proof.
  unfold item_id. destruct supplied as [s|]; [|apply toString_nonempty].
  destruct (String.eqb s EmptyString) eqn:Hs; [apply toString_nonempty|].
  now apply String.eqb_neq.
Qed.

(** X9: Past the embedding step, [addVector] puts the record in one backend and
    returns it; the record has the input text and an id that is not empty.
    When the remote collection is there and one of its ways of adding
    resolves, the in-memory store is left as it is; in every other case (no
    collection, no method to add with, a rejection) the record is appended
    to the in-memory store. *)
Theorem addVector_stored_one_backend (supplied : option string) (txt : string)
    (m : option Meta) (emb : option vector) (st : State W) :
  let item :=
    {| id := item_id supplied (length (array_at st (vectors st)));
       text := txt; embedding := emb;
       meta := Some (match m with Some m' => m' | None => [] end);
       score := None |} in
  wf st ->
  exists st',
    addVector_stored R supplied txt m emb st = (Ok item, st')
    /\ id item <> EmptyString
    /\ vectors st' = vectors st
    /\ ((exists c, chromaCollection st = Some c
           /\ fst (chroma_add R c item st) = Ok (Some item)) ->
        array_at st' (vectors st') = array_at st (vectors st))
    /\ ((forall c, chromaCollection st = Some c ->
           fst (chroma_add R c item st) <> Ok (Some item)) ->
        array_at st' (vectors st') = array_at st (vectors st) ++ [item]).
Proof.
  intros item Hwf. unfold addVector_stored.
  unfold bind at 1, gets at 1. unfold bind at 1, read at 1, gets at 1.
  fold item. unfold bind at 1, gets at 1.
  destruct (chromaCollection st) as [c|] eqn:Hc.
  - destruct (chroma_add_cases c item st) as (Ha & Hv & Hcases).
    unfold bind at 1, try_catch at 1.
    destruct (chroma_add R c item st) as [[[it|]|e] s1] eqn:Hadd;
      cbn [fst snd] in *.
    + assert (it = item) as -> by (destruct Hcases as [H|[H|[e H]]]; congruence).
      exists s1. split; [reflexivity|]. split; [apply item_id_nonempty|].
      split; [exact Hv|]. split.
      * intros _. unfold array_at. now rewrite Ha, Hv.
      * intros Hno. destruct (Hno c eq_refl). now rewrite Hadd.
    + unfold array_push. unfold_monad. cbn [fst snd].
      eexists. split; [reflexivity|]. split; [apply item_id_nonempty|].
      split; [exact Hv|]. split.
      * intros (c' & Hc' & Hok). injection Hc' as <-.
        rewrite Hadd in Hok. discriminate.
      * intros _. cbn [vectors set_arrays]. rewrite array_at_insert.
        -- unfold array_at. now rewrite Ha, Hv.
        -- unfold wf in Hwf. now rewrite Ha, Hv.
    + unfold array_push. unfold_monad. cbn [fst snd].
      eexists. split; [reflexivity|]. split; [apply item_id_nonempty|].
      split; [exact Hv|]. split.
      * intros (c' & Hc' & Hok). injection Hc' as <-.
        rewrite Hadd in Hok. discriminate.
      * intros _. cbn [vectors set_arrays]. rewrite array_at_insert.
        -- unfold array_at. cbn [add_log arrays vectors]. now rewrite Ha, Hv.
        -- unfold wf in Hwf. cbn [add_log arrays vectors]. now rewrite Ha, Hv.
  - unfold array_push. unfold_monad. cbn [fst snd].
    eexists. split; [reflexivity|]. split; [apply item_id_nonempty|].
    split; [reflexivity|]. split.
    + intros (c' & Hc' & _). discriminate.
    + intros _. cbn [vectors set_arrays]. now rewrite array_at_insert.
Qed.

Lemma add_all_cons (txt : string) (m : option Meta) (emb : option vector)
    (inputs : list (string * option Meta * option vector)) (st : State W) :
  add_all R ((txt, m, emb) :: inputs) st
  = add_all R inputs (snd (addVector_stored R None txt m emb st)).
Proof. reflexivity. Qed.

Lemma add_all_ids (inputs : list (string * option Meta * option vector)) :
  forall st : State W,
    wf st -> chromaCollection st = None ->
    map id (array_at (add_all R inputs st) (vectors (add_all R inputs st)))
    = map id (array_at st (vectors st))
        ++ map toString
             (seq (length (array_at st (vectors st)) + 1) (length inputs))
    /\ map text (array_at (add_all R inputs st) (vectors (add_all R inputs st)))
       = map text (array_at st (vectors st))
           ++ map (fun i => fst (fst i)) inputs.
Proof.
  induction inputs as [|[[txt m] emb] inputs IH]; intros st Hwf Hc.
  - cbn. now rewrite !app_nil_r.
  - rewrite add_all_cons.
    rewrite (addVector_stored_fallback None txt m emb st Hc). cbn [snd].
    set (item := {| id := _ |}).
    set (st1 := set_arrays _ st).
    assert (array_at st1 (vectors st1) = array_at st (vectors st) ++ [item])
      as Hst1 by (apply array_at_insert; exact Hwf).
    assert (wf st1) as Hwf1.
    { unfold wf, st1 in *. cbn [vectors arrays set_arrays].
      now rewrite length_insert. }
    destruct (IH st1 Hwf1 Hc) as [Hid Htxt].
    rewrite Hid, Htxt, Hst1, !map_app, length_app, <- !app_assoc.
    cbn [map length seq app item_id id text item fst].
    rewrite (Nat.add_1_r (_ + 1)). split; reflexivity.
Qed.

(** X10: Records added without an id of their own to an empty in-memory store get
    the ids 1, 2, 3, ... in decimal, in the order of their addition: all
    distinct, none empty, each text with the id of its rank. *)
Theorem auto_ids_distinct (inputs : list (string * option Meta * option vector))
    (st : State W) :
  wf st -> chromaCollection st = None -> array_at st (vectors st) = [] ->
  let st' := add_all R inputs st in
  map id (array_at st' (vectors st')) = map toString (seq 1 (length inputs))
  /\ map text (array_at st' (vectors st')) = map (fun i => fst (fst i)) inputs
  /\ List.NoDup (map id (array_at st' (vectors st')))
  /\ Forall (fun v => id v <> EmptyString) (array_at st' (vectors st')).
Proof.
  intros Hwf Hc Hempty st'.
  destruct (add_all_ids inputs st Hwf Hc) as [Hid Htxt].
  fold st' in Hid, Htxt. rewrite Hempty in Hid, Htxt. cbn in Hid, Htxt.
  split; [exact Hid|]. split; [exact Htxt|]. split.
  - rewrite Hid. apply Finite.Injective_map_NoDup; [|apply List.seq_NoDup].
    intros a b. apply toString_inj.
  - rewrite <- List.Forall_map with (f := id) (P := fun s => s <> EmptyString).
    rewrite Hid, List.Forall_map, List.Forall_forall.
    intros n _. apply toString_nonempty.
Qed.

(** *** Clearing when the remote side accepts *)


Lemma clear_handler_remote (st : State W) :
  fst (clear_remote R st) = Ok (Some JsonOk) ->
  clear_handler R st = (Ok JsonOk, snd (clear_remote R st)).
Proof.
  intros H. unfold clear_handler. unfold try_catch, bind.
  destruct (clear_remote R st) as [r s1]. cbn [fst snd] in *. now subst r.
Qed.


(** *** The handlers on a module without a remote collection *)

Lemma list_handler_local (st : State W) :
  chromaCollection st = None -> snd (list_handler R st) = st.
Proof.
  intros Hc. unfold list_handler, list_remote. unfold_monad. now rewrite Hc.
Qed.

Lemma clear_handler_local (st : State W) :
  chromaCollection st = None ->
  snd (clear_handler R st)
  = set_vectors (length (arrays st)) (set_arrays (arrays st ++ [[]]) st).
Proof.
  intros Hc. unfold clear_handler, clear_remote. unfold_monad. now rewrite Hc.
Qed.

(** An empty store stays empty through the clear handler, whichever way it
    takes. *)
Lemma clear_handler_empty (st : State W) :
  wf st -> array_at st (vectors st) = [] ->
  array_at (snd (clear_handler R st)) (vectors (snd (clear_handler R st))) = [].
Proof.
  intros Hwf Hempty. destruct (clear_remote_result st) as [H|H].
  - rewrite (clear_handler_fallback st H). cbn [snd].
    unfold array_at. cbn [arrays vectors set_vectors set_arrays].
    now rewrite list_lookup_middle.
  - pose proof (clear_remote_preserves st) as Hext.
    rewrite (clear_handler_remote st H). cbn [snd].
    rewrite (proj1 Hext), <- Hempty. now apply extends_array_at.
Qed.


End FacadeFacts.

(** ** The properties at concrete stores and services *)

Section Examples.
Local Open Scope float_scope.

Lemma fallback_query_ranks_witness :
  exists out st' ranked,
    queryVectors unreachable (Some [1; 1]) (Some 1%Z) (memory_state two_records)
    = (Ok out, st')
    /\ Permutation ranked
         (map (fun v => with_score v (cosine (Some [1; 1]) (embedding v)))
            two_records)
    /\ StronglySorted desc ranked
    /\ (forall s : float,
          List.filter (scores s) ranked
          = List.filter (scores s)
              (map (fun v => with_score v (cosine (Some [1; 1]) (embedding v)))
                 two_records))
    /\ (forall other : list Item,
          Permutation other
            (map (fun v => with_score v (cosine (Some [1; 1]) (embedding v)))
               two_records) ->
          Sorted desc other ->
          (forall s,
             List.filter (scores s) other
             = List.filter (scores s)
                 (map (fun v => with_score v (cosine (Some [1; 1]) (embedding v)))
                    two_records)) ->
          other = ranked)
    /\ array_at st' out = firstn 1 ranked
    /\ (Z.of_nat (length (array_at st' out)) <= 1)%Z.
Proof.
  destruct (fallback_query_ranks unreachable [1; 1] (Some 1%Z)
              (memory_state two_records))
    as (out & st' & ranked & Hrun & Hperm & Hdesc & Hstable & Hunique & Hpos & _).
  - reflexivity.
  - repeat constructor.
  - exists out, st', ranked.
    destruct Hpos as [Hfirst Hlen]; [lia|].
    repeat split; assumption.
Defined.

(** C2 as stated fails.  With a record whose embedding is the zero vector
    in the store, the scores returned are not in descending order: the
    third record scores higher than the first, and since one score is NaN no
    arrangement of the scored records is in descending order.  With
    [k = -1] the call returns two records. *)
Lemma fallback_query_misranks :
  (exists out st' a b c,
     queryVectors unreachable (Some [1; 1]) (Some 3%Z) (memory_state three_records)
     = (Ok out, st')
     /\ array_at st' out = [a; b; c]
     /\ map id [a; b; c] = ["1"; "2"; "3"]%string
     /\ is_nan (score_num b) = true
     /\ (score_num a <? score_num c) = true)
  /\ (forall any : list Item,
        Permutation any
          (map (fun v => with_score v (cosine (Some [1; 1]) (embedding v)))
             three_records) ->
        ~ Sorted desc any)
  /\ (exists out st',
        queryVectors unreachable (Some [1; 1]) (Some (-1)%Z)
          (memory_state three_records)
        = (Ok out, st')
        /\ length (array_at st' out) = 2%nat).
Proof.
  split; [|split].
  - do 5 eexists. split; [vm_compute; reflexivity|].
    split; [vm_compute; reflexivity|].
    repeat split.
  - intros any Hperm Hs.
    assert (2 <= length any)%nat as Hlen
      by (rewrite (Permutation_length Hperm); cbn; lia).
    pose proof (ranking_no_nan any Hs Hlen) as Hnan.
    rewrite List.Forall_forall in Hnan.
    specialize (Hnan (with_score (stored "2" "dogs" (Some [0; 0]))
                        (cosine (Some [1; 1]) (Some [0; 0])))).
    assert (is_nan (cosine (Some [1; 1]) (Some [0; 0])) = false) as Hbad.
    { apply Hnan. eapply Permutation_in; [symmetry; exact Hperm|].
      cbn. right. left. reflexivity. }
    vm_compute in Hbad. discriminate.
  - do 2 eexists. split; [vm_compute; reflexivity|]. reflexivity.
Qed.

Lemma queryVectors_preserves_store_witness :
  let st' :=
    snd (queryVectors unreachable (Some [1; 1]) (Some 2%Z)
           (memory_state three_records)) in
  vectors st' = 0%nat
  /\ array_at st' (vectors st') = three_records
  /\ (forall r, (r < 1)%nat ->
        array_at st' r = array_at (memory_state three_records) r)
  /\ wf st'.
Proof.
  apply (queryVectors_preserves_store unreachable (Some [1; 1]) (Some 2%Z)
           (memory_state three_records)).
  unfold wf. cbn. lia.
Defined.

Lemma failed_init_is_permanent_witness :
  (let st1 :=
     snd (chroma_init unreachable local_chroma_config (initial_state tt None None)) in
   chromaCollection st1 = None
   /\ type st1 = Memory
   /\ chromaCollection (serve_all unreachable local_chroma_config session st1) = None
   /\ type (serve_all unreachable local_chroma_config session st1) = Memory
   /\ chroma_calls (serve_all unreachable local_chroma_config session st1)
      = chroma_calls st1)
  /\ (let st1 :=
        snd (chroma_init collectionless local_chroma_config
               (initial_state tt None None)) in
      chromaCollection st1 = None
      /\ type st1 = Memory
      /\ chromaCollection (serve_all collectionless local_chroma_config session st1)
         = None
      /\ type (serve_all collectionless local_chroma_config session st1) = Memory
      /\ chroma_calls (serve_all collectionless local_chroma_config session st1)
         = chroma_calls st1).
Proof.
  split.
  - apply (failed_init_is_permanent unreachable local_chroma_config
             (initial_state tt None None) session).
    + reflexivity.
    + left. do 2 eexists. split; reflexivity.
  - apply (failed_init_is_permanent collectionless local_chroma_config
             (initial_state tt None None) session).
    + reflexivity.
    + right. do 3 eexists. split; [reflexivity|].
      split; [reflexivity|]. split; [reflexivity|]. split; [reflexivity|].
      right. eexists. reflexivity.
Defined.

Lemma clear_then_list_witness :
  fst (list_handler unreachable
         (snd (clear_handler unreachable (memory_state three_records))))
  = Ok (JsonItems [])
  /\ fst (list_handler unreachable
            (snd (clear_handler unreachable (remote_state three_records))))
     = Ok (JsonItems []).
Proof.
  split.
  - apply (clear_then_list unreachable (memory_state three_records)).
    reflexivity.
  - destruct (clear_then_list unreachable (remote_state three_records))
      as (_ & H & _).
    apply H; reflexivity.
Defined.

(** C8 as stated fails.  The remote clear is rejected, the handler clears
    the store array and answers success; the list request that follows is
    served by the remote side and returns its record. *)
Lemma clear_then_list_not_empty :
  fst (clear_handler read_only (remote_state three_records)) = Ok JsonOk
  /\ fst (list_handler read_only
            (snd (clear_handler read_only (remote_state three_records))))
     = Ok (JsonItems
             [ {| l_id := Some "a"%string; l_text := Some "kept"%string;
                  l_meta := None; l_embedding := None |} ]).
Proof. split; reflexivity. Qed.

(** The id given to a record without one repeats an id supplied earlier:
    with one record of id [2] in the store, the next record gets the id
    [2]. *)
Lemma addVector_stored_repeats_id :
  exists item st',
    addVector_stored unreachable None "second" None None
      (memory_state [stored "2" "first" None])
    = (Ok item, st')
    /\ id item = "2"%string
    /\ map id (array_at st' (vectors st')) = ["2"; "2"]%string.
Proof.
  do 2 eexists. split; [vm_compute; reflexivity|]. split; reflexivity.
Qed.

End Examples.

(** ** What a computation may change *)

Section Keeps.
Context {W : Type}.
Variable rel : State W -> State W -> Prop.
Hypothesis rel_refl : forall st, rel st st.
Hypothesis rel_trans : forall a b c, rel a b -> rel b c -> rel a c.

Lemma keeps_ret {A : Type} (a : A) : keeps rel (ret a).
Proof. intros st. apply rel_refl. Qed.

Lemma keeps_throw {A : Type} (e : js_error) : keeps rel (throw (A:=A) e).
Proof. intros st. apply rel_refl. Qed.

Lemma keeps_gets {A : Type} (f : State W -> A) : keeps rel (gets f).
Proof. intros st. apply rel_refl. Qed.

Lemma keeps_bind {A B : Type} (m : M W A) (k : A -> M W B) :
  keeps rel m -> (forall a, keeps rel (k a)) -> keeps rel (bind m k).
Proof.
  intros Hm Hk st. unfold bind. specialize (Hm st).
  destruct (m st) as [[a|e] s1]; cbn [snd] in *; [|exact Hm].
  eapply rel_trans; [exact Hm|apply Hk].
Qed.

Lemma keeps_try_catch {A : Type} (m : M W A) (h : js_error -> M W A) :
  keeps rel m -> (forall e, keeps rel (h e)) -> keeps rel (try_catch m h).
Proof.
  intros Hm Hh st. unfold try_catch. specialize (Hm st).
  destruct (m st) as [[a|e] s1]; cbn [snd] in *; [exact Hm|].
  eapply rel_trans; [exact Hm|apply Hh].
Qed.

End Keeps.

(** *** Calls that manage the collection *)

Section Quiet.
Context {W : Type}.
Variable R : Remote W.
Variable cfg : Config.

Lemma quiet_same_calls (st st' : State W) : calls st' = calls st -> quiet st st'.
Proof. intros H. exists []. rewrite app_nil_r. split; [exact H|constructor]. Qed.

Lemma quiet_refl (st : State W) : quiet st st.
Proof. now apply quiet_same_calls. Qed.

Lemma quiet_trans (a b c : State W) : quiet a b -> quiet b c -> quiet a c.
Proof.
  intros (l1 & E1 & F1) (l2 & E2 & F2). exists (l1 ++ l2).
  split; [now rewrite E2, E1, app_assoc|]. apply Forall_app. now split.
Qed.

Lemma quiet_modify (f : State W -> State W) :
  (forall st, calls (f st) = calls st) -> keeps quiet (modify f).
Proof. intros Hf st. apply quiet_same_calls, Hf. Qed.

Lemma quiet_log (l : log_entry) : keeps quiet (log (W:=W) l).
Proof. now apply quiet_modify. Qed.

Lemma quiet_alloc (a : list Item) : keeps quiet (alloc (W:=W) a).
Proof. intros st. now apply quiet_same_calls. Qed.

Lemma quiet_remote {A : Type} (c : call) (f : W -> result A * W) :
  manages_collection c = true -> keeps quiet (remote c f).
Proof.
  intros Hc st. unfold remote. destruct (f (world st)) as [r w].
  exists [c]. split; [reflexivity|]. now repeat constructor.
Qed.

Ltac quiet_frame :=
  repeat first
    [ apply (keeps_ret quiet quiet_refl)
    | apply (keeps_throw quiet quiet_refl)
    | apply (keeps_gets quiet quiet_refl)
    | apply quiet_log | apply quiet_alloc
    | apply quiet_remote; reflexivity
    | apply quiet_modify; intro; reflexivity
    | apply (keeps_bind quiet quiet_trans); [|intro; cbv beta]
    | apply (keeps_try_catch quiet quiet_trans); [|intro; cbv beta]
    | match goal with
      | |- keeps quiet (if ?b then _ else _) => destruct b
      | |- keeps quiet (match ?x with _ => _ end) => destruct x
      end ].

Lemma list_handler_quiet : keeps quiet (list_handler R).
Proof. unfold list_handler, list_remote, chroma_list, read. quiet_frame. Qed.

Lemma clear_handler_quiet : keeps quiet (clear_handler R).
Proof. unfold clear_handler, clear_remote, chroma_clear. quiet_frame. Qed.

Lemma chroma_init_quiet : keeps quiet (chroma_init R cfg).
Proof.
  unfold chroma_init, connect, obtain_collection, get_step, create_step.
  quiet_frame.
Qed.

End Quiet.

(** *** The OpenAI clients are not read *)

Section Unused.
Context {W : Type}.
Variable R : Remote W.
Variable cfg : Config.
Variables chat emb : option ApiClient.

Local Abbreviation upd := (set_openai_clients (W:=W) chat emb).

Lemma ignores_ret {A : Type} (a : A) : ignores upd (ret a).
Proof. intros st. reflexivity. Qed.

Lemma ignores_throw {A : Type} (e : js_error) : ignores upd (throw (A:=A) e).
Proof. intros st. reflexivity. Qed.

Lemma ignores_bind {A B : Type} (m : M W A) (k : A -> M W B) :
  ignores upd m -> (forall a, ignores upd (k a)) -> ignores upd (bind m k).
Proof.
  intros Hm Hk st. unfold bind. rewrite Hm.
  destruct (m st) as [[a|e] s1]; cbn [fst snd]; [|reflexivity].
  rewrite Hk. now destruct (k a s1).
Qed.

Lemma ignores_try_catch {A : Type} (m : M W A) (h : js_error -> M W A) :
  ignores upd m -> (forall e, ignores upd (h e)) -> ignores upd (try_catch m h).
Proof.
  intros Hm Hh st. unfold try_catch. rewrite Hm.
  destruct (m st) as [[a|e] s1]; cbn [fst snd]; [reflexivity|].
  rewrite Hh. now destruct (h e s1).
Qed.

Lemma ignores_gets {A : Type} (f : State W -> A) :
  (forall st, f (upd st) = f st) -> ignores upd (gets f).
Proof. intros Hf st. unfold gets. now rewrite Hf. Qed.

Lemma ignores_modify (f : State W -> State W) :
  (forall st, f (upd st) = upd (f st)) -> ignores upd (modify f).
Proof. intros Hf st. unfold modify. now rewrite Hf. Qed.

Lemma ignores_alloc (a : list Item) : ignores upd (alloc a).
Proof. intros st. reflexivity. Qed.

Lemma ignores_remote {A : Type} (c : call) (f : W -> result A * W) :
  ignores upd (remote c f).
Proof.
  intros st. unfold remote. cbn [world set_openai_clients].
  now destruct (f (world st)).
Qed.

Ltac unused_frame :=
  repeat first
    [ apply ignores_ret | apply ignores_throw | apply ignores_alloc
    | apply ignores_remote
    | apply ignores_gets; intro; reflexivity
    | apply ignores_modify; intro; reflexivity
    | apply ignores_bind; [|intro; cbv beta]
    | apply ignores_try_catch; [|intro; cbv beta]
    | match goal with
      | |- ignores _ (if ?b then _ else _) => destruct b
      | |- ignores _ (match ?x with _ => _ end) => destruct x
      end ].

Lemma list_handler_unused : ignores upd (list_handler R).
Proof. unfold list_handler, list_remote, chroma_list, read. unused_frame. Qed.

Lemma clear_handler_unused : ignores upd (clear_handler R).
Proof.
  unfold clear_handler, clear_remote, chroma_clear. unused_frame.
Qed.

Lemma queryVectors_unused (e : option vector) (k : option Z) :
  ignores upd (queryVectors R e k).
Proof.
  unfold queryVectors, chroma_query, answer_hits, memory_query, array_map,
    array_sort, array_slice, read, write, log.
  unused_frame.
Qed.

Lemma chroma_init_unused : ignores upd (chroma_init R cfg).
Proof.
  unfold chroma_init, connect, obtain_collection, get_step, create_step, log.
  unused_frame.
Qed.

Lemma addVector_unused (supplied : option string) (txt : string)
    (m : option Meta) :
  ignores upd (addVector R cfg supplied txt m).
Proof. intros st. now rewrite !addVector_rejects. Qed.

Lemma post_vector_unused (supplied txt : option string) (m : option Meta) :
  ignores upd (post_vector R cfg supplied txt m).
Proof.
  unfold post_vector, log.
  destruct (truthy txt); [|apply ignores_ret].
  apply ignores_try_catch; [apply ignores_bind|];
    [apply addVector_unused|intro; apply ignores_ret|].
  intro. unused_frame.
Qed.

End Unused.

(** ** The HTTP layer *)

Section ServerFacts.
Context {W : Type}.
Variable R : Remote W.
Variable G : Services W.
Variable cfg : Config.
Variable env : Env.

Ltac unfold_app :=
  unfold lift, generate, spawn_detached in *;
  unfold app_bind, app_ret, app_throw, app_catch in *.

(** *** The key check *)

Lemma nonempty_Some (s : option string) (v : string) :
  nonempty s = Some v <-> s = Some v /\ v <> EmptyString.
Proof.
  unfold nonempty. destruct s as [x|]; [|split; [discriminate|now intros []]].
  destruct (String.eqb_spec x EmptyString) as [->|Hne].
  - split; [discriminate|]. intros [[= <-] H]. now destruct H.
  - split; [intros [= <-]; auto|]. now intros [[= <-] _].
Qed.

Lemma key_refused_false (key : option query_value) (root : string) :
  root <> EmptyString ->
  key_refused key root = false <-> key = Some (QueryString root).
Proof.
  intros Hroot. unfold key_refused.
  destruct key as [[s|]|]; try (split; discriminate).
  destruct (String.eqb_spec s EmptyString) as [->|Hs]; cbn.
  - split; [discriminate|]. intros [= <-]. now destruct Hroot.
  - destruct (String.eqb_spec s root) as [->|Hneq]; cbn.
    + tauto.
    + split; [discriminate|]. intros [= <-]. now destruct Hneq.
Qed.

(** X12: The key check, as a caller meets it.  A request is let through to the
    handler of its route when its path is [/health], or no root key is
    configured, or it presents the root key: in the [x-api-key] header, or,
    the header being absent or empty, as the string value of the [api_key]
    query parameter.  Every other request is answered 401 and changes
    nothing in the process: the header, when it is there and not empty,
    decides alone, and a repeated or bracketed [api_key] is refused. *)
Theorem api_key_gate (req : Req) (rt : route) (s : Server W) :
  let allowed :=
    req_path req = "/health"%string
    \/ ROOT_API_KEY env = None
    \/ exists root,
         ROOT_API_KEY env = Some root
         /\ (header_x_api_key req = Some root
             \/ (nonempty (header_x_api_key req) = None
                 /\ query_api_key req = Some (QueryString root))) in
  (allowed -> app R G cfg env req rt s = handle R G cfg env rt s)
  /\ (~ allowed ->
      app R G cfg env req rt s
      = (Ok (Sent (JsonError 401 "missing or invalid API key")), s)).
Proof.
  intros allowed. unfold app, apiKeyMiddleware.
  destruct (String.eqb_spec (req_path req) "/health") as [Hp|Hp].
  { split; [reflexivity|]. intros Hno. destruct Hno. now left. }
  destruct (ROOT_API_KEY env) as [root|] eqn:Hroot.
  2:{ split; [reflexivity|]. intros Hno. destruct Hno. right. now left. }
  assert (root <> EmptyString) as Hne.
  { unfold ROOT_API_KEY in Hroot. now apply nonempty_Some in Hroot. }
  destruct (key_refused (presented_key req) root) eqn:Hk.
  - split; [|reflexivity].
    intros [Hh|[Hn|(root' & [= <-] & Hkey)]]; [now destruct Hp|discriminate|].
    assert (key_refused (presented_key req) root = false) as Hok.
    { apply key_refused_false; [exact Hne|]. unfold presented_key.
      destruct Hkey as [Hh|[Hh Hq]].
      - assert (nonempty (header_x_api_key req) = Some root) as ->
          by now apply nonempty_Some.
        reflexivity.
      - now rewrite Hh. }
    congruence.
  - split; [reflexivity|].
    intros Hno. destruct Hno. right. right. exists root. split; [reflexivity|].
    apply key_refused_false in Hk; [|exact Hne]. unfold presented_key in Hk.
    destruct (nonempty (header_x_api_key req)) as [h|] eqn:Hh.
    + left. injection Hk as ->. now apply nonempty_Some in Hh.
    + right. now split.
Qed.

(** *** The chat handler *)

Lemma same_records_refl (st : State W) : same_records st st.
Proof. repeat split. Qed.

Lemma same_records_trans (a b c : State W) :
  same_records a b -> same_records b c -> same_records a c.
Proof.
  unfold same_records. intros (?&?&?&?&?&?) (?&?&?&?&?&?).
  repeat split; congruence.
Qed.

Lemma same_records_add_log (l : log_entry) (st : State W) :
  same_records st (add_log l st).
Proof. repeat split. Qed.

(** Building the reply touches the world of the model and the console at
    most, starts no process, and never throws. *)
Lemma gemini_reply_cases (msg : string) (s : Server W) :
  exists reply s1,
    gemini_reply G env msg s = (Ok reply, s1)
    /\ same_records (store s) (store s1)
    /\ spawned s1 = spawned s.
Proof.
  unfold gemini_reply.
  destruct (genai env) as [key|].
  - unfold app_catch, app_bind at 1, generate.
    destruct (generateContent G _ _ (world (store s))) as [[[[[[t|e]|]]|]|e] w];
      unfold_app; unfold log, modify; cbn;
      do 2 eexists; (split; [reflexivity|]); cbn; repeat split.
  - do 2 eexists. split; [reflexivity|]. split; [apply same_records_refl|].
    reflexivity.
Qed.

(** The chat handler on a message: the reply is built, [addVector] rejects,
    and the handler answers the reply with nothing stored. *)
Lemma chat_handler_run (message : option string) (msg : string) (s : Server W) :
  nonempty message = Some msg ->
  exists reply s1,
    gemini_reply G env msg s = (Ok reply, s1)
    /\ chat_handler R G cfg env message s
       = (Ok (SentChat reply None),
          mkServer (add_log (Error "storage error") (store s1))
            (generations s1) (spawned s1))
    /\ same_records (store s) (store s1)
    /\ spawned s1 = spawned s.
Proof.
  intros Hmsg.
  destruct (gemini_reply_cases msg s) as (reply & s1 & Hrun & Hsame & Hsp).
  exists reply, s1. split; [exact Hrun|]. split; [|now split].
  unfold chat_handler. rewrite Hmsg.
  unfold app_catch at 1, app_bind at 1. rewrite Hrun.
  unfold app_catch, app_bind at 1, lift at 1.
  now rewrite addVector_rejects.
Qed.

(** X13: The chat handler never stores the message it was sent.  Without a
    message it answers 400 and changes nothing.  With one it always answers
    [{ reply, stored: null }] (never 500, whatever the model does):
    [addVector] rejects, the handler prints [storage error], and neither the
    in-memory store nor the remote collection has received anything; no call
    was made to the vector database or the embeddings provider and no
    process was started. *)
Theorem chat_never_stores (message : option string) (s : Server W) :
  (nonempty message = None ->
   chat_handler R G cfg env message s
   = (Ok (Sent (JsonError 400 "message required")), s))
  /\ (forall msg, nonempty message = Some msg ->
      exists reply s',
        chat_handler R G cfg env message s = (Ok (SentChat reply None), s')
        /\ same_records (store s) (store s')
        /\ spawned s' = spawned s
        /\ exists before,
             console (store s') = before ++ [Error "storage error"%string]).
Proof.
  split.
  - intros H. unfold chat_handler. now rewrite H.
  - intros msg Hmsg.
    destruct (chat_handler_run message msg s Hmsg)
      as (reply & s1 & _ & -> & Hsame & Hsp).
    do 2 eexists. split; [reflexivity|]. cbn [store spawned].
    split; [|split; [exact Hsp|]].
    + eapply same_records_trans; [exact Hsame|apply same_records_add_log].
    + now exists (console (store s1)).
Qed.

(** X14: The reply of the chat handler to a message that is not empty.  With no
    Gemini key the reply echoes the message and no prompt is sent.  With a
    key, one prompt is sent, to the configured model or [gemini-1.5-flash],
    holding the message between the two fixed lines; the reply is the text
    of the answer, a fixed sentence when the answer has no response, and the
    error message behind [Error: Gemini failed: ] when the call rejects or
    reading the text throws. *)
Theorem chat_reply_cases (msg : string) (s : Server W) :
  let model := or_default (env_CHAT_MODEL env) "gemini-1.5-flash" in
  let prompt :=
    ("You are a helpful assistant." ++ newline ++ "User: " ++ msg ++ newline
     ++ "Answer:")%string in
  let run := chat_handler R G cfg env (Some msg) s in
  msg <> EmptyString ->
  (genai env = None ->
   fst run = Ok (SentChat ("Echo (no API key): " ++ msg)%string None)
   /\ generations (snd run) = generations s
   /\ world (store (snd run)) = world (store s))
  /\ (genai env <> None ->
      generations (snd run) = generations s ++ [(model, prompt)]
      /\ match generateContent G model prompt (world (store s)) with
         | (Ok (Some {| response := Some (Ok t) |}), _) =>
             fst run = Ok (SentChat t None)
         | (Ok (Some {| response := Some (Throw e) |}), _) | (Throw e, _) =>
             fst run
             = Ok (SentChat ("Error: Gemini failed: " ++ error_message e)%string
                     None)
         | (Ok (Some {| response := None |}), _) | (Ok None, _) =>
             fst run
             = Ok (SentChat "Received empty response from Gemini"%string None)
         end).
Proof.
  intros model prompt run Hmsg.
  change prompt with (prompt_of msg) in *. clear prompt.
  assert (nonempty (Some msg) = Some msg) as Hsome
    by (apply nonempty_Some; auto).
  destruct (chat_handler_run (Some msg) msg s Hsome)
    as (reply & s1 & Hreply & Hrun & _ & _).
  fold run in Hrun. rewrite Hrun. cbn [fst snd generations store].
  unfold gemini_reply in Hreply. fold model in Hreply.
  split.
  - intros Hkey. rewrite Hkey in Hreply. injection Hreply as <- <-. auto.
  - intros Hkey. destruct (genai env) as [key|]; [|now destruct Hkey].
    unfold app_catch, app_bind at 1, generate in Hreply.
    destruct (generateContent G model (prompt_of msg) (world (store s)))
      as [[[[[[t|e]|]]|]|e] w];
      unfold_app; unfold log, modify in Hreply; cbn -[prompt_of] in Hreply;
      injection Hreply as <- <-; cbn -[prompt_of]; auto.
Qed.

(** *** The action handler *)

Lemma action_is_true (name : string) (action : option string) :
  action_is name action = true <-> action = Some name.
Proof.
  unfold action_is. destruct action as [a|]; [|split; discriminate].
  destruct (String.eqb_spec a name) as [->|Hne]; split; try discriminate; auto.
  intros [= <-]. now destruct Hne.
Qed.

(** One process started: the state it leaves. *)
Lemma spawn_detached_cases (command : string) (args : list string) (s : Server W) :
  exists r s1,
    spawn_detached G command args s = (r, s1)
    /\ same_records (store s) (store s1)
    /\ generations s1 = generations s
    /\ spawned s1 = spawned s ++ [(command, args)].
Proof.
  unfold spawn_detached.
  destruct (spawn G command args (world (store s))) as [r w].
  do 2 eexists. split; [reflexivity|]. cbn. repeat split.
Qed.

(** After a process was started the handler answers by itself: success, or
    500 with the message of the error when [spawn] threw. *)
Lemma launch_cases (command : string) (args : list string) (s : Server W) :
  exists r s',
    app_catch
      (app_bind (spawn_detached G command args)
         (fun _ => app_ret (Sent JsonOk)))
      (fun e =>
         app_bind (lift (log (Error (error_message e))))
           (fun _ => app_ret (Sent (JsonError 500 (error_message e))))) s
    = (Ok r, s')
    /\ same_records (store s) (store s')
    /\ generations s' = generations s
    /\ spawned s' = spawned s ++ [(command, args)]
    /\ (r = Sent JsonOk \/ exists m, r = Sent (JsonError 500 m))
    /\ r = match fst (spawn G command args (world (store s))) with
           | Ok _ => Sent JsonOk
           | Throw e => Sent (JsonError 500 (error_message e))
           end.
Proof.
  destruct (spawn_detached_cases command args s)
    as (r & s1 & Hrun & Hsame & Hgen & Hsp).
  assert (Hr : r = fst (spawn G command args (world (store s)))).
  { revert Hrun. unfold spawn_detached.
    destruct (spawn G command args (world (store s))) as [r0 w].
    now intros [= <- _]. }
  rewrite <- Hr.
  unfold app_catch, app_bind at 1. rewrite Hrun.
  destruct r as [[]|e].
  - do 2 eexists. split; [reflexivity|].
    split; [exact Hsame|]. split; [exact Hgen|]. split; [exact Hsp|].
    split; [now left|reflexivity].
  - unfold_app. unfold log, modify. cbn.
    do 2 eexists. split; [reflexivity|]. cbn.
    split; [eapply same_records_trans; [exact Hsame|apply same_records_add_log]|].
    split; [exact Hgen|]. split; [exact Hsp|]. split; [right; eauto|reflexivity].
Qed.

(** The two ways the action handler ends: it answers at once and changes
    nothing, or it starts one process, of a kind fixed by the action, and
    then answers. *)
Lemma action_handler_run (action folder url : option string) (s : Server W) :
  (exists r, action_handler G env action folder url s = (Ok r, s))
  \/ exists program args r s',
       action_handler G env action folder url s = (Ok r, s')
       /\ same_records (store s) (store s')
       /\ generations s' = generations s
       /\ spawned s' = spawned s ++ [(program, args)]
       /\ ((action = Some "open-folder"%string
            /\ exists path,
                 folder = Some path /\ path <> EmptyString /\ args = [path]
                 /\ In program ["explorer"; "open"; "xdg-open"]%string)
           \/ (action = Some "open-chrome-new-window"%string
               /\ In (program, args)
                    [ ("cmd", ["/c"; "start"; "chrome";
                               or_default url "about:blank"]);
                      ("open", ["-a"; "Google Chrome";
                                or_default url "about:blank"]);
                      ("google-chrome", [or_default url "about:blank"])
                    ]%string)).
Proof.
  unfold action_handler.
  destruct (ACTION_WHITELIST action); [|left; eexists; reflexivity].
  cbn [negb].
  destruct (action_is "open-folder" action) eqn:Hfolder.
  - apply action_is_true in Hfolder.
    destruct (nonempty folder) as [path|] eqn:Hpath;
      [|left; eexists; reflexivity].
    apply nonempty_Some in Hpath as [Hpath Hne].
    right.
    destruct (String.eqb (platform env) "win32");
      [|destruct (String.eqb (platform env) "darwin")];
      match goal with
      | |- context [spawn_detached G ?c ?a] =>
          destruct (launch_cases c a s) as (r & s1 & -> & Hsame & Hgen & Hsp & _);
          exists c, a, r, s1
      end;
      (split; [reflexivity|]); (split; [exact Hsame|]);
      (split; [exact Hgen|]); (split; [exact Hsp|]);
      left; (split; [exact Hfolder|]); exists path; cbn; auto 8.
  - destruct (action_is "open-chrome-new-window" action) eqn:Hchrome;
      [|left; eexists; reflexivity].
    apply action_is_true in Hchrome.
    right.
    destruct (String.eqb (platform env) "win32");
      [|destruct (String.eqb (platform env) "darwin")];
      match goal with
      | |- context [spawn_detached G ?c ?a] =>
          destruct (launch_cases c a s) as (r & s1 & -> & Hsame & Hgen & Hsp & _);
          exists c, a, r, s1
      end;
      (split; [reflexivity|]); (split; [exact Hsame|]);
      (split; [exact Hgen|]); (split; [exact Hsp|]);
      right; (split; [exact Hchrome|]); cbn; auto.
Qed.

(** X15: What the action handler may start.  A request starts one process at
    most.  A folder is opened only for the action [open-folder] with a path
    that is not empty, by [explorer], [open] or [xdg-open] with the path as
    the only argument; a browser window only for the action
    [open-chrome-new-window], by one of three fixed command lines whose last
    argument is the url of the request, or [about:blank].  The request never
    chooses the program.  The handler leaves the vector store alone and sends
    no prompt. *)
Theorem action_starts_only_listed (action folder url : option string)
    (s : Server W) :
  let s' := snd (action_handler G env action folder url s) in
  same_records (store s) (store s')
  /\ generations s' = generations s
  /\ (spawned s' = spawned s
      \/ (exists program path,
            spawned s' = spawned s ++ [(program, [path])]
            /\ action = Some "open-folder"%string
            /\ folder = Some path /\ path <> EmptyString
            /\ In program ["explorer"; "open"; "xdg-open"]%string)
      \/ (exists program args,
            spawned s' = spawned s ++ [(program, args)]
            /\ action = Some "open-chrome-new-window"%string
            /\ In (program, args)
                 [ ("cmd", ["/c"; "start"; "chrome"; or_default url "about:blank"]);
                   ("open", ["-a"; "Google Chrome"; or_default url "about:blank"]);
                   ("google-chrome", [or_default url "about:blank"]) ]%string)).
Proof.
  intros s'. subst s'.
  destruct (action_handler_run action folder url s)
    as [[r ->]|(program & args & r & s1 & -> & Hsame & Hgen & Hsp & Hkind)];
    cbn [snd].
  - split; [apply same_records_refl|]. auto.
  - split; [exact Hsame|]. split; [exact Hgen|]. right.
    destruct Hkind as [[Ha (path & Hf & Hne & -> & Hin)]|[Ha Hin]].
    + left. exists program, path. auto.
    + right. exists program, args. auto.
Qed.

(** X16: The answers of the action handler.  An action that is neither one of
    the two listed names nor the name of a property that every object
    inherits is answered 403, and nothing happens.  An action named like an
    inherited property ([constructor], [toString], [__proto__], ...) passes
    the whitelist test, matches neither branch, and the handler returns
    without sending any response.  [open-folder] without a path, or with an
    empty one, is answered 400 and starts nothing.  In every other case the
    handler answers, with success or with 500: it has started one process,
    and the answer is 500, with the message of the error, when [spawn]
    threw, and success when [spawn] returned. *)
Theorem action_replies (action folder url : option string) (s : Server W) :
  let run := action_handler G env action folder url s in
  (ACTION_WHITELIST action = false ->
   run = (Ok (Sent (JsonError 403 "action not allowed")), s))
  /\ (forall a, action = Some a -> In a object_prototype_keys ->
      run = (Ok Pending, s))
  /\ (action = Some "open-folder"%string -> nonempty folder = None ->
      run = (Ok (Sent (JsonError 400 "path required")), s))
  /\ ((action = Some "open-folder"%string /\ nonempty folder <> None)
      \/ action = Some "open-chrome-new-window"%string ->
      fst run = Ok (Sent JsonOk)
      \/ exists m, fst run = Ok (Sent (JsonError 500 m)))
  /\ ((action = Some "open-folder"%string /\ nonempty folder <> None)
      \/ action = Some "open-chrome-new-window"%string ->
      exists program args,
        spawned (snd run) = spawned s ++ [(program, args)]
        /\ fst run
           = Ok match fst (spawn G program args (world (store s))) with
                | Ok _ => Sent JsonOk
                | Throw e => Sent (JsonError 500 (error_message e))
                end).
Proof.
  intros run. subst run. unfold action_handler.
  split; [|split; [|split; [|split]]].
  - intros ->. reflexivity.
  - intros a -> Hin.
    repeat (destruct Hin as [<-|Hin]; [reflexivity|]). destruct Hin.
  - intros -> ->. reflexivity.
  - intros [[-> Hpath]| ->].
    + destruct (nonempty folder) as [path|]; [|now destruct Hpath].
      change (ACTION_WHITELIST (Some "open-folder"%string)) with true.
      change (action_is "open-folder" (Some "open-folder"%string)) with true.
      cbn [negb].
      destruct (String.eqb (platform env) "win32");
        [|destruct (String.eqb (platform env) "darwin")];
        match goal with
        | |- context [spawn_detached G ?c ?a] =>
            destruct (launch_cases c a s)
              as (r & s1 & -> & _ & _ & _ & [->|[m ->]] & _)
        end; cbn [fst]; eauto.
    + change (ACTION_WHITELIST (Some "open-chrome-new-window"%string)) with true.
      change (action_is "open-folder" (Some "open-chrome-new-window"%string))
        with false.
      change (action_is "open-chrome-new-window"
                (Some "open-chrome-new-window"%string)) with true.
      cbn [negb].
      destruct (String.eqb (platform env) "win32");
        [|destruct (String.eqb (platform env) "darwin")];
        match goal with
        | |- context [spawn_detached G ?c ?a] =>
            destruct (launch_cases c a s)
              as (r & s1 & -> & _ & _ & _ & [->|[m ->]] & _)
        end; cbn [fst]; eauto.
  - intros [[-> Hpath]| ->].
    + destruct (nonempty folder) as [path|]; [|now destruct Hpath].
      change (ACTION_WHITELIST (Some "open-folder"%string)) with true.
      change (action_is "open-folder" (Some "open-folder"%string)) with true.
      cbn [negb].
      destruct (String.eqb (platform env) "win32");
        [|destruct (String.eqb (platform env) "darwin")];
        match goal with
        | |- context [spawn_detached G ?c ?a] =>
            destruct (launch_cases c a s)
              as (r & s1 & -> & _ & _ & Hsp & _ & ->);
            exists c, a
        end; cbn [fst snd]; (split; [exact Hsp|reflexivity]).
    + change (ACTION_WHITELIST (Some "open-chrome-new-window"%string)) with true.
      change (action_is "open-folder" (Some "open-chrome-new-window"%string))
        with false.
      change (action_is "open-chrome-new-window"
                (Some "open-chrome-new-window"%string)) with true.
      cbn [negb].
      destruct (String.eqb (platform env) "win32");
        [|destruct (String.eqb (platform env) "darwin")];
        match goal with
        | |- context [spawn_detached G ?c ?a] =>
            destruct (launch_cases c a s)
              as (r & s1 & -> & _ & _ & Hsp & _ & ->);
            exists c, a
        end; cbn [fst snd]; (split; [exact Hsp|reflexivity]).
Qed.

(** *** Every state the server reaches *)

Lemma same_records_quiet (st st' : State W) : same_records st st' -> quiet st st'.
Proof. intros (_ & _ & _ & _ & _ & H). now apply quiet_same_calls. Qed.

Lemma same_records_empty (st st' : State W) :
  same_records st st' ->
  wf st' = wf st
  /\ array_at st' (vectors st') = array_at st (vectors st).
Proof.
  intros (Ha & Hv & _). unfold wf, array_at. now rewrite Ha, Hv.
Qed.

(** A handler of the vector store behind a route: the store it leaves is
    the state the handler leaves. *)
Lemma lift_store {A : Type} (m : M W A) (f : A -> http_reply) (s : Server W) :
  store (snd (app_bind (lift m) (fun r => app_ret (f r)) s)) = snd (m (store s)).
Proof.
  unfold app_bind, lift, app_ret. now destruct (m (store s)) as [[a|e] st'].
Qed.

Lemma chat_handler_store (message : option string) (s : Server W) :
  same_records (store s) (store (snd (chat_handler R G cfg env message s))).
Proof.
  destruct (nonempty message) as [msg|] eqn:Hmsg.
  - destruct (chat_handler_run message msg s Hmsg)
      as (reply & s1 & _ & -> & Hsame & _).
    cbn [snd store].
    eapply same_records_trans; [exact Hsame|apply same_records_add_log].
  - unfold chat_handler. rewrite Hmsg. apply same_records_refl.
Qed.

Lemma action_handler_store (action folder url : option string) (s : Server W) :
  same_records (store s) (store (snd (action_handler G env action folder url s))).
Proof.
  destruct (action_handler_run action folder url s)
    as [[r ->]|(program & args & r & s1 & -> & Hsame & _)]; cbn [snd].
  - apply same_records_refl.
  - exact Hsame.
Qed.

(** What the handler of a route may do to the module of the vector store:
    it makes no call that sends a record, it leaves an empty store empty,
    and without a remote collection it makes no call at all. *)
Lemma handle_store (rt : route) (s : Server W) :
  let st := store s in
  let st' := store (snd (handle R G cfg env rt s)) in
  quiet st st'
  /\ (wf st -> array_at st (vectors st) = [] ->
      wf st' /\ array_at st' (vectors st') = [])
  /\ (chromaCollection st = None ->
      chromaCollection st' = None /\ type st' = type st
      /\ calls st' = calls st).
Proof.
  assert (forall st st' : State W, same_records st st' ->
            quiet st st'
            /\ (wf st -> array_at st (vectors st) = [] ->
                wf st' /\ array_at st' (vectors st') = [])
            /\ (chromaCollection st = None ->
                chromaCollection st' = None /\ type st' = type st
                /\ calls st' = calls st)) as Hsame.
  { intros st st' H. split; [now apply same_records_quiet|].
    destruct (same_records_empty st st' H) as [Hwf Harr].
    destruct H as (_ & _ & Ht & _ & Hc & Hcalls).
    split; [intros; rewrite Hwf, Harr; auto|]. intros; repeat split; congruence. }
  intros st st'. subst st st'.
  destruct rt as [|supplied txt m| | |message|action folder url]; cbn [handle].
  - apply Hsame, same_records_refl.
  - rewrite lift_store.
    destruct (post_vector_state R cfg supplied txt m (store s)) as [-> | ->];
      apply Hsame; [apply same_records_refl|apply same_records_add_log].
  - rewrite lift_store.
    split; [apply list_handler_quiet|]. split.
    + intros Hwf Hempty. pose proof (list_handler_extends R (store s)) as Hext.
      split; [now apply (extends_wf (store s))|].
      rewrite (proj1 Hext), <- Hempty. now apply extends_array_at.
    + intros Hc. now rewrite (list_handler_local R (store s) Hc).
  - rewrite lift_store.
    split; [apply clear_handler_quiet|]. split.
    + intros Hwf Hempty.
      split; [now apply clear_handler_wf|now apply clear_handler_empty].
    + intros Hc. now rewrite (clear_handler_local R (store s) Hc).
  - apply Hsame, chat_handler_store.
  - apply Hsame, action_handler_store.
Qed.

(** The same for a request, which the key check may stop. *)
Lemma app_store (req : Req) (rt : route) (s : Server W) :
  let st := store s in
  let st' := store (snd (app R G cfg env req rt s)) in
  quiet st st'
  /\ (wf st -> array_at st (vectors st) = [] ->
      wf st' /\ array_at st' (vectors st') = [])
  /\ (chromaCollection st = None ->
      chromaCollection st' = None /\ type st' = type st
      /\ calls st' = calls st).
Proof.
  unfold app. destruct (apiKeyMiddleware env req).
  - apply handle_store.
  - cbn. split; [apply quiet_refl|]. auto.
Qed.

Lemma app_all_cons (req : Req) (rt : route) (reqs : list (Req * route))
    (s : Server W) :
  app_all R G cfg env ((req, rt) :: reqs) s
  = app_all R G cfg env reqs (snd (app R G cfg env req rt s)).
Proof. reflexivity. Qed.

Lemma app_all_store (reqs : list (Req * route)) : forall s : Server W,
  let st := store s in
  let st' := store (app_all R G cfg env reqs s) in
  quiet st st'
  /\ (wf st -> array_at st (vectors st) = [] ->
      wf st' /\ array_at st' (vectors st') = [])
  /\ (chromaCollection st = None ->
      chromaCollection st' = None /\ type st' = type st
      /\ calls st' = calls st).
Proof.
  induction reqs as [|[req rt] reqs IH]; intros s.
  - cbn. split; [apply quiet_refl|]. auto.
  - rewrite app_all_cons. cbv zeta.
    destruct (app_store req rt s) as (Hq & He & Hl).
    destruct (IH (snd (app R G cfg env req rt s))) as (Hq' & He' & Hl').
    split; [eapply quiet_trans; eassumption|]. split.
    + intros Hwf Hempty. destruct (He Hwf Hempty). now apply He'.
    + intros Hc. destruct (Hl Hc) as (H1 & H2 & H3).
      destruct (Hl' H1) as (H4 & H5 & H6). repeat split; congruence.
Qed.

(** The initialisation block does the same. *)
Lemma init_block_store (s : Server W) :
  let st := store s in
  let st' := store (init_block R cfg s) in
  quiet st st'
  /\ (wf st -> array_at st (vectors st) = [] ->
      wf st' /\ array_at st' (vectors st') = [])
  /\ (chroma_enabled cfg = false \/ Chroma cfg = None ->
      chromaCollection st' = chromaCollection st /\ type st' = type st
      /\ calls st' = calls st).
Proof.
  intros st st'. subst st st'. unfold init_block. cbn [store].
  split; [apply chroma_init_quiet|]. split.
  - destruct (chroma_init_cases R cfg (store s)) as (st1 & -> & Ha & Hv & _).
    cbn [snd]. unfold wf, array_at. now rewrite Ha, Hv.
  - intros Hoff. unfold chroma_init.
    destruct (Chroma cfg) as [m|]; [|now cbn].
    destruct Hoff as [-> | H]; [now cbn|discriminate].
Qed.

Lemma reached_store (early late : list (Req * route)) (w : W)
    (chat emb : option ApiClient) :
  let st := store (reached R G cfg env early late w chat emb) in
  Forall (fun c => manages_collection c = true) (calls st)
  /\ wf st /\ array_at st (vectors st) = []
  /\ (chroma_enabled cfg = false \/ Chroma cfg = None ->
      chromaCollection st = None /\ type st = Memory /\ calls st = []).
Proof.
  unfold reached.
  set (s0 := loaded w chat emb).
  set (s1 := app_all R G cfg env early s0).
  set (s2 := init_block R cfg s1).
  destruct (app_all_store early s0) as (Hq1 & He1 & Hl1). fold s1 in Hq1, He1, Hl1.
  destruct (init_block_store s1) as (Hq2 & He2 & Hl2). fold s2 in Hq2, He2, Hl2.
  destruct (app_all_store late s2) as (Hq3 & He3 & Hl3).
  cbv zeta in *.
  split; [|split; [|split]].
  - destruct (quiet_trans _ _ _ (quiet_trans _ _ _ Hq1 Hq2) Hq3) as (l & -> & Hl).
    exact Hl.
  - apply He3; apply He2; apply He1; try (unfold wf; cbn; lia); reflexivity.
  - apply He3; apply He2; apply He1; try (unfold wf; cbn; lia); reflexivity.
  - intros Hoff.
    destruct (Hl1 eq_refl) as (H1 & H2 & H3).
    destruct (Hl2 Hoff) as (H4 & H5 & H6).
    destruct Hl3 as (H7 & H8 & H9); [now rewrite H4|].
    split; [exact H7|].
    split; [now rewrite H8, H5, H2|now rewrite H9, H6, H3].
Qed.

Lemma list_route_empty (s : Server W) :
  chromaCollection (store s) = None ->
  array_at (store s) (vectors (store s)) = [] ->
  fst (handle R G cfg env VectorList s) = Ok (Sent (JsonItems [])).
Proof.
  intros Hc Hempty. cbn [handle]. unfold app_bind, lift, app_ret.
  assert (list_handler R (store s) = (Ok (JsonItems []), store s)) as ->.
  { unfold list_handler, list_remote, read. unfold bind, gets, try_catch, ret.
    rewrite Hc. cbn. now rewrite Hempty. }
  reflexivity.
Qed.

(** X17: In every state the server reaches, the in-memory store is empty: no
    sequence of requests, with or without the key, to any route, before or
    after the initialisation block, puts a record in it.  So whenever the
    list route is served from memory (always so without a remote collection)
    it answers an empty list, whatever was posted before. *)
Theorem reachable_store_is_empty (early late : list (Req * route)) (w : W)
    (chat emb : option ApiClient) :
  let s := reached R G cfg env early late w chat emb in
  array_at (store s) (vectors (store s)) = []
  /\ wf (store s)
  /\ (chromaCollection (store s) = None ->
      fst (handle R G cfg env VectorList s) = Ok (Sent (JsonItems []))).
Proof.
  intros s.
  destruct (reached_store early late w chat emb) as (_ & Hwf & Hempty & _).
  fold s in Hwf, Hempty.
  split; [exact Hempty|]. split; [exact Hwf|].
  intros Hc. now apply list_route_empty.
Qed.

(** X18: No record, no text and no query ever leaves the process for the vector
    database or the embeddings provider.  Every call made from the start of
    the process to any state it reaches manages the collection: it
    constructs the client, gets, creates or deletes the collection, lists it
    or clears it.  There is no [add], no [upsert], no [query] and no
    embeddings request among them. *)
Theorem reachable_calls_send_no_record (early late : list (Req * route)) (w : W)
    (chat emb : option ApiClient) :
  let s := reached R G cfg env early late w chat emb in
  Forall (fun c =>
            In c [ CallConstruct; CallGetCollection; CallCreateCollection;
                   CallDeleteCollection; CallCollectionGet;
                   CallCollectionDelete; CallCollectionClear ])
    (calls (store s))
  /\ Forall (fun c =>
               ~ In c [ CallCollectionAdd; CallCollectionUpsert; CallClientAdd;
                        CallCollectionQuery; CallClientQuery; CallEmbeddings ])
       (calls (store s)).
Proof.
  intros s.
  destruct (reached_store early late w chat emb) as (H & _). fold s in H.
  split; (eapply List.Forall_impl; [|exact H]); intros c Hc;
    destruct c; try discriminate; cbn; intuition discriminate.
Qed.

(** X19: With the remote backend switched off ([ENABLE_CHROMA] other than
    [true], or no [chromadb] module), the server stays local for good: in
    every state it reaches no call has been made to the vector database or
    the embeddings provider, there is no collection, the store type is
    [memory], and the list route answers an empty list. *)
Theorem disabled_chroma_stays_local (early late : list (Req * route)) (w : W)
    (chat emb : option ApiClient) :
  chroma_enabled cfg = false \/ Chroma cfg = None ->
  let s := reached R G cfg env early late w chat emb in
  calls (store s) = []
  /\ chromaCollection (store s) = None
  /\ type (store s) = Memory
  /\ fst (handle R G cfg env VectorList s) = Ok (Sent (JsonItems [])).
Proof.
  intros Hoff s.
  destruct (reached_store early late w chat emb) as (_ & _ & Hempty & Hlocal).
  destruct (Hlocal Hoff) as (Hc & Ht & Hcalls). fold s in Hempty, Hc, Ht, Hcalls.
  split; [exact Hcalls|]. split; [exact Hc|]. split; [exact Ht|].
  now apply list_route_empty.
Qed.

(** *** The OpenAI clients have no effect *)

Section UnusedClients.
Variables chat emb : option ApiClient.

Local Abbreviation upd := (with_openai_clients (W:=W) chat emb).

Lemma app_ignores_ret {A : Type} (a : A) : ignores upd (app_ret a).
Proof. intros s. reflexivity. Qed.

Lemma app_ignores_throw {A : Type} (e : js_error) :
  ignores upd (app_throw (A:=A) e).
Proof. intros s. reflexivity. Qed.

Lemma app_ignores_bind {A B : Type} (m : App W A) (k : A -> App W B) :
  ignores upd m -> (forall a, ignores upd (k a)) -> ignores upd (app_bind m k).
Proof.
  intros Hm Hk s. unfold app_bind. rewrite Hm.
  destruct (m s) as [[a|e] s1]; cbn [fst snd]; [|reflexivity].
  rewrite Hk. now destruct (k a s1).
Qed.

Lemma app_ignores_catch {A : Type} (m : App W A) (h : js_error -> App W A) :
  ignores upd m -> (forall e, ignores upd (h e)) -> ignores upd (app_catch m h).
Proof.
  intros Hm Hh s. unfold app_catch. rewrite Hm.
  destruct (m s) as [[a|e] s1]; cbn [fst snd]; [reflexivity|].
  rewrite Hh. now destruct (h e s1).
Qed.

Lemma app_ignores_lift {A : Type} (m : M W A) :
  ignores (set_openai_clients chat emb) m -> ignores upd (lift m).
Proof.
  intros Hm s. unfold lift. cbn [store with_openai_clients]. rewrite Hm.
  now destruct (m (store s)).
Qed.

Lemma app_ignores_generate (model prompt : string) :
  ignores upd (generate G model prompt).
Proof.
  intros s. unfold generate. cbn [store with_openai_clients world set_openai_clients].
  now destruct (generateContent G model prompt (world (store s))).
Qed.

Lemma app_ignores_spawn (command : string) (args : list string) :
  ignores upd (spawn_detached G command args).
Proof.
  intros s. unfold spawn_detached.
  cbn [store with_openai_clients world set_openai_clients].
  now destruct (spawn G command args (world (store s))).
Qed.

Ltac app_unused_frame :=
  repeat first
    [ apply app_ignores_ret | apply app_ignores_throw
    | apply app_ignores_generate | apply app_ignores_spawn
    | apply app_ignores_lift;
      first [ apply addVector_unused | apply post_vector_unused
            | apply list_handler_unused | apply clear_handler_unused
            | apply ignores_modify; intro; reflexivity ]
    | apply app_ignores_bind; [|intro; cbv beta]
    | apply app_ignores_catch; [|intro; cbv beta]
    | match goal with
      | |- ignores _ (if ?b then _ else _) => destruct b
      | |- ignores _ (match ?x with _ => _ end) => destruct x
      end ].

Lemma handle_unused (rt : route) : ignores upd (handle R G cfg env rt).
Proof.
  destruct rt; cbn [handle];
    unfold health_handler, chat_handler, gemini_reply, action_handler, log;
    app_unused_frame.
Qed.

(** X20: What [openaiChatClient] and [openaiEmbeddingsClient] hold has no effect
    on the server.  With other clients in the two bindings, every request
    gets the same answer and leaves the same state (the two bindings
    apart), and so do [queryVectors] and the initialisation block: no code
    that runs reads them. *)
Theorem openai_clients_have_no_effect (req : Req) (rt : route) (s : Server W) :
  app R G cfg env req rt (with_openai_clients chat emb s)
  = (fst (app R G cfg env req rt s),
     with_openai_clients chat emb (snd (app R G cfg env req rt s)))
  /\ (forall e k st,
        queryVectors R e k (set_openai_clients chat emb st)
        = (fst (queryVectors R e k st),
           set_openai_clients chat emb (snd (queryVectors R e k st))))
  /\ (forall st,
        chroma_init R cfg (set_openai_clients chat emb st)
        = (fst (chroma_init R cfg st),
           set_openai_clients chat emb (snd (chroma_init R cfg st)))).
Proof.
  split; [|split].
  - unfold app. destruct (apiKeyMiddleware env req); [apply handle_unused|].
    reflexivity.
  - intros e k st. apply queryVectors_unused.
  - intros st. apply chroma_init_unused.
Qed.

End UnusedClients.

End ServerFacts.

(** ** The HTTP layer and both backends at concrete services *)

Section MoreExamples.

Lemma listed_rows_flat_embeddings_witness :
  let row := {| l_id := Some "b"%string; l_text := Some "dogs"%string;
                l_meta := None; l_embedding := None |} in
  l_embedding row = truthy_embedding (option_map EmbNumber ([1; 0]%float !! 1))
  /\ (forall e, l_embedding row <> Some (EmbVector e)).
Proof.
  apply (listed_rows_flat_embeddings flat_answer [1; 0]%float [[0; 1]%float] 1);
    reflexivity.
Defined.

Lemma queryVectors_falls_back_witness :
  exists out st' ranked,
    queryVectors unreachable (Some [1; 1]%float) (Some 2%Z)
      (remote_state two_records)
    = (Ok out, st')
    /\ array_at st' out = slice0 ranked 2
    /\ Permutation ranked
         (map (fun v => with_score v (cosine (Some [1; 1]%float) (embedding v)))
            two_records)
    /\ StronglySorted desc ranked
    /\ console st'
       = [Warn "chroma query failed, falling back to memory"%string].
Proof.
  destruct (queryVectors_falls_back unreachable [1; 1]%float (Some 2%Z)
              (remote_state two_records))
    as (out & st' & ranked & Hrun & Hout & Hperm & Hrank & Hwarn & _).
  - intros c out [= <-]. discriminate.
  - exists out, st', ranked. split; [exact Hrun|]. split; [exact Hout|].
    split; [exact Hperm|]. split.
    + apply Hrank. repeat constructor.
    + apply Hwarn. exists full_collection, unreachable_error. now split.
Defined.

Lemma queryVectors_remote_hits_witness :
  exists out st',
    queryVectors answering (Some [1; 1]%float) (Some 1%Z)
      (remote_state two_records)
    = (Ok out, st')
    /\ map id (array_at st' out) = ["a"; "2"]%string
    /\ map text (array_at st' out) = ["cats"; "dogs"]%string
    /\ map score (array_at st' out) = [Some 0.25%float; Some 0.5%float]
    /\ calls st' = [CallCollectionQuery].
Proof.
  destruct (queryVectors_remote_hits answering [1; 1]%float (Some 1%Z)
              (remote_state two_records) full_collection two_hits tt)
    as (out & st' & Hrun & Hout & _ & _ & Hcalls & _); try reflexivity.
  exists out, st'. split; [exact Hrun|]. rewrite Hout.
  repeat split. exact Hcalls.
Defined.

Lemma fallback_query_any_scores_witness :
  exists out st' ranked,
    queryVectors unreachable (Some [1; 1]%float) (Some 2%Z)
      (memory_state three_records)
    = (Ok out, st')
    /\ array_at st' out = firstn 2 ranked
    /\ length (array_at st' out) = 2
    /\ Permutation ranked
         (map (fun v => with_score v (cosine (Some [1; 1]%float) (embedding v)))
            three_records).
Proof.
  destruct (fallback_query_any_scores unreachable [1; 1]%float (Some 2%Z)
              (memory_state three_records))
    as (out & st' & ranked & Hrun & Hout & Hlen & Hperm & _); [reflexivity|].
  exists out, st', ranked. repeat split; assumption.
Defined.

Lemma init_marks_remote_backend_witness :
  (exists st1,
     chroma_init answering local_chroma_config (initial_state tt None None)
     = (Ok tt, st1)
     /\ (type st1 = ChromaStore <-> chromaCollection st1 <> None)
     /\ arrays st1 = [[]] /\ vectors st1 = 0)
  /\ type (snd (chroma_init answering local_chroma_config
                  (initial_state tt None None))) = ChromaStore.
Proof.
  split; [|reflexivity].
  apply (init_marks_remote_backend answering local_chroma_config
           (initial_state tt None None)); reflexivity.
Defined.

Lemma addVector_stored_one_backend_witness :
  (exists st',
     addVector_stored answering None "rockets" None None
       (remote_state two_records)
     = (Ok (stored "3" "rockets" None), st')
     /\ array_at st' (vectors st') = two_records)
  /\ (exists st',
        addVector_stored unreachable None "rockets" None None
          (remote_state two_records)
        = (Ok (stored "3" "rockets" None), st')
        /\ array_at st' (vectors st')
           = two_records ++ [stored "3" "rockets" None]).
Proof.
  split.
  - destruct (addVector_stored_one_backend answering None "rockets" None None
                (remote_state two_records))
      as (st' & Hrun & _ & _ & Hremote & _); [unfold wf; cbn; lia|].
    exists st'. split; [exact Hrun|].
    apply Hremote. exists full_collection. now split.
  - destruct (addVector_stored_one_backend unreachable None "rockets" None None
                (remote_state two_records))
      as (st' & Hrun & _ & _ & _ & Hlocal); [unfold wf; cbn; lia|].
    exists st'. split; [exact Hrun|].
    apply Hlocal. intros c [= <-]. discriminate.
Defined.

Lemma auto_ids_distinct_witness :
  let st' := add_all unreachable three_inputs (memory_state []) in
  map id (array_at st' (vectors st')) = ["1"; "2"; "3"]%string
  /\ map text (array_at st' (vectors st')) = ["cats"; "dogs"; "rockets"]%string
  /\ List.NoDup (map id (array_at st' (vectors st')))
  /\ Forall (fun v => id v <> EmptyString) (array_at st' (vectors st')).
Proof.
  apply (auto_ids_distinct unreachable three_inputs (memory_state []));
    [unfold wf; cbn; lia|reflexivity|reflexivity].
Defined.


Lemma api_key_gate_witness :
  app answering offline local_chroma_config dev_env anonymous
    (Action (Some "open-folder"%string) (Some "/tmp"%string) None)
    (server_of (memory_state []))
  = (Ok (Sent (JsonError 401 "missing or invalid API key")),
     server_of (memory_state []))
  /\ app answering offline local_chroma_config dev_env keyed
       (Action (Some "open-folder"%string) (Some "/tmp"%string) None)
       (server_of (memory_state []))
     = handle answering offline local_chroma_config dev_env
         (Action (Some "open-folder"%string) (Some "/tmp"%string) None)
         (server_of (memory_state [])).
Proof.
  split.
  - apply (api_key_gate answering offline local_chroma_config dev_env anonymous).
    intros [H|[H|(root & _ & [H|[_ H]])]]; discriminate.
  - apply (api_key_gate answering offline local_chroma_config dev_env keyed).
    right. right. exists "dev-secret"%string. split; [reflexivity|].
    right. now split.
Defined.

Lemma chat_never_stores_witness :
  exists reply s',
    chat_handler unreachable offline no_config dev_env (Some "remember me"%string)
      (server_of (memory_state []))
    = (Ok (SentChat reply None), s')
    /\ same_records (memory_state []) (store s')
    /\ spawned s' = []
    /\ exists before, console (store s') = before ++ [Error "storage error"%string].
Proof.
  destruct (chat_never_stores unreachable offline no_config dev_env
              (Some "remember me"%string) (server_of (memory_state [])))
    as [_ H].
  apply (H "remember me"%string). reflexivity.
Defined.

Lemma chat_reply_cases_witness :
  fst (chat_handler unreachable offline no_config bare_env (Some "hi"%string)
         (server_of (memory_state [])))
  = Ok (SentChat "Echo (no API key): hi"%string None)
  /\ fst (chat_handler unreachable offline no_config dev_env (Some "hi"%string)
            (server_of (memory_state [])))
     = Ok (SentChat "Error: Gemini failed: ECONNREFUSED"%string None).
Proof.
  split.
  - destruct (chat_reply_cases unreachable offline no_config bare_env "hi"%string
                (server_of (memory_state []))) as [H _]; [discriminate|].
    now apply H.
  - destruct (chat_reply_cases unreachable offline no_config dev_env "hi"%string
                (server_of (memory_state []))) as [_ H]; [discriminate|].
    destruct H as [_ H]; [discriminate|]. exact H.
Defined.

Lemma action_replies_witness :
  action_handler offline dev_env (Some "rm -rf"%string) None None
    (server_of (memory_state []))
  = (Ok (Sent (JsonError 403 "action not allowed")), server_of (memory_state []))
  /\ action_handler offline dev_env (Some "constructor"%string) None None
       (server_of (memory_state []))
     = (Ok Pending, server_of (memory_state []))
  /\ action_handler offline dev_env (Some "open-folder"%string) None None
       (server_of (memory_state []))
     = (Ok (Sent (JsonError 400 "path required")), server_of (memory_state []))
  /\ fst (action_handler no_launcher dev_env
            (Some "open-folder"%string) (Some "/tmp"%string) None
            (server_of (memory_state [])))
     = Ok (Sent (JsonError 500 "spawn failed"))
  /\ fst (action_handler offline dev_env
            (Some "open-chrome-new-window"%string) None None
            (server_of (memory_state [])))
     = Ok (Sent JsonOk).
Proof.
  split; [|split; [|split; [|split]]].
  - apply (action_replies offline dev_env (Some "rm -rf"%string) None None
             (server_of (memory_state []))). reflexivity.
  - destruct (action_replies offline dev_env (Some "constructor"%string) None None
                (server_of (memory_state []))) as (_ & H & _).
    apply (H "constructor"%string); [reflexivity|]. cbn. auto.
  - destruct (action_replies offline dev_env (Some "open-folder"%string) None None
                (server_of (memory_state []))) as (_ & _ & H & _).
    now apply H.
  - destruct (action_replies no_launcher dev_env (Some "open-folder"%string)
                (Some "/tmp"%string) None (server_of (memory_state [])))
      as (_ & _ & _ & _ & H).
    destruct H as (program & args & _ & Hrun);
      [left; split; [reflexivity|discriminate]|].
    exact Hrun.
  - destruct (action_replies offline dev_env
                (Some "open-chrome-new-window"%string) None None
                (server_of (memory_state [])))
      as (_ & _ & _ & _ & H).
    destruct H as (program & args & _ & Hrun); [now right|].
    exact Hrun.
Defined.

Lemma disabled_chroma_stays_local_witness :
  let s :=
    reached answering offline chroma_unset_config dev_env
      [(keyed, VectorClear)] http_session tt None None in
  calls (store s) = []
  /\ chromaCollection (store s) = None
  /\ type (store s) = Memory
  /\ fst (handle answering offline chroma_unset_config dev_env VectorList s)
     = Ok (Sent (JsonItems [])).
Proof.
  apply (disabled_chroma_stays_local answering offline chroma_unset_config dev_env
           [(keyed, VectorClear)] http_session tt None None).
  now left.
Defined.

(** The session of [http_session] on a server whose remote backend is up:
    a text was posted and a message sent to the chat, yet the in-memory store
    is empty and the remote side was asked for its list and to clear, never
    to add; one folder was opened and one prompt sent. *)
Lemma http_session_outcome :
  let s :=
    reached answering offline local_chroma_config dev_env [] http_session
      tt None None in
  array_at (store s) (vectors (store s)) = []
  /\ calls (store s)
     = [ CallConstruct; CallGetCollection; CallCollectionGet;
         CallCollectionDelete ]
  /\ spawned s = [("xdg-open", ["/tmp"])]%string
  /\ map fst (generations s) = ["gemini-1.5-flash"]%string.
Proof. vm_compute. repeat split. Qed.

End MoreExamples.
